(** * Climate Sentinel: the safe evacuation route of [backend/main.py]

    A shallow embedding of [calculate_route] together with the library calls
    it is made of (the module-level script [generate_evacuation_route.py]
    makes the same calls, for a fixed place and fixed end points):

    - [load_fire_data.get_wildfire_data] and the cached endpoint
      [get_wildfires];
    - the road network, a networkx [MultiDiGraph] built by osmnx, with
      [copy], [remove_nodes_from], [ox.nearest_nodes], [nx.ego_graph]
      (a cut-off Dijkstra search) and [nx.astar_path];
    - the two process-wide caches and the [try]/[except] translation of
      exceptions into HTTP outcomes.

    Conventions.  Python floats are represented by exact rationals ([Q]):
    rounding is not modelled.  Node identifiers are Python integers ([Z]).
    Dictionaries keyed by strings or nodes are [gmap]s, Python sets are
    [gset]s; a graph keeps its nodes and edges in insertion order.  A heap of
    [heapq] is kept as a plain list: the items carry distinct counters, so
    the least item, which [heappop] returns, is unique.  The JSON object
    [{"route": route_coords}] is represented by [route_coords]. *)

From Stdlib Require Import QArith Qabs Qround Lqa.
From stdpp Require Import gmap strings list pretty.

Local Open Scope Q_scope.

(** ** Numbers *)

Definition Qltb (x y : Q) : bool :=
  match x ?= y with Lt => true | _ => false end.

(** Python's [max(a, b)] and [min(a, b)] return the first argument unless the
    second is strictly greater (resp. smaller). *)
Definition py_max (a b : Q) : Q := if Qltb a b then b else a.
Definition py_min (a b : Q) : Q := if Qltb b a then b else a.

(** ** Exceptions and results *)

Inductive exn : Type :=
  | NetworkXNoPath
  | NodeNotFound
  | KeyError
  | ValueError
  | ProviderError
  | AttributeError
  | HTTPException (status_code : Z) (detail : string).

(** A computation returns, raises, or does not terminate ([Diverge]: the
    loop bound of the model was reached). *)
Inductive result (A : Type) : Type :=
  | Ok (a : A)
  | Raise (e : exn)
  | Diverge.
Arguments Ok {A} a.
Arguments Raise {A} e.
Arguments Diverge {A}.

(** ** heapq *)

Section heapq.
Context {A : Type} (key : A -> Q * nat).

(** Tuple comparison on the first two components: priority, then the
    insertion counter. *)
Definition key_ltb (a b : A) : bool :=
  if Qeq_bool (key a).1 (key b).1
  then Nat.ltb (key a).2 (key b).2
  else Qltb (key a).1 (key b).1.

Definition heappush (heap : list A) (item : A) : list A := item :: heap.

(** [heappop] removes and returns the smallest item. *)
Fixpoint heappop (heap : list A) : option (A * list A) :=
  match heap with
  | [] => None
  | e :: heap' =>
      match heappop heap' with
      | None => Some (e, [])
      | Some (m, r) =>
          if key_ltb e m then Some (e, heap') else Some (m, e :: r)
      end
  end.
End heapq.

(** ** Road network *)

Definition node := Z.
Bind Scope Z_scope with node.
Definition edge := (node * node * Q)%type.

(** A [MultiDiGraph]: [nodes] maps a node id to its attributes [(x, y)]
    (longitude, latitude); [edges] lists the directed edges [(u, v, length)],
    parallel edges included. *)
Record graph : Type := Graph {
  nodes : list (node * (Q * Q));
  edges : list edge
}.

Definition node_ids (G : graph) : list node := (nodes G).*1.

Definition has_node (G : graph) (n : node) : bool :=
  bool_decide (n ∈ node_ids G).

(** [G.nodes[n]] *)
Fixpoint assoc {B : Type} (n : node) (l : list (node * B)) : option B :=
  match l with
  | [] => None
  | (k, b) :: l' => if Z.eqb k n then Some b else assoc n l'
  end.

Definition node_attr (G : graph) (n : node) : option (Q * Q) := assoc n (nodes G).

(** [G._adj[u].items()] under the weight function of [weight='length'] on a
    multigraph: one entry per neighbour, in order of first insertion, weighted
    by the least length of the parallel edges. *)
Fixpoint adj_insert (v : node) (w : Q) (l : list (node * Q)) : list (node * Q) :=
  match l with
  | [] => [(v, w)]
  | (v', w') :: l' =>
      if Z.eqb v' v then (v', if Qltb w w' then w else w') :: l'
      else (v', w') :: adj_insert v w l'
  end.

Fixpoint adj_of (es : list edge) (u : node) : list (node * Q) :=
  match es with
  | [] => []
  | (a, b, w) :: es' =>
      if Z.eqb a u then adj_insert b w (adj_of es' u) else adj_of es' u
  end.

Definition G_succ (G : graph) (u : node) : list (node * Q) :=
  adj_of (reverse (edges G)) u.

(** [G.remove_nodes_from(ns)]: the nodes and every edge incident to them go;
    nodes that are not in the graph are skipped silently. *)
Definition remove_nodes_from (G : graph) (ns : list node) : graph :=
  {| nodes := filter (fun na => na.1 ∉ ns) (nodes G);
     edges := filter (fun e => (e.1.1 ∉ ns) ∧ (e.1.2 ∉ ns)) (edges G) |}.

(** [G.subgraph(keep)]: the graph induced on the nodes of [keep]. *)
Definition subgraph (G : graph) (keep : gset node) : graph :=
  {| nodes := filter (fun na => na.1 ∈ keep) (nodes G);
     edges := filter (fun e => (e.1.1 ∈ keep) ∧ (e.1.2 ∈ keep)) (edges G) |}.

(** Loop bound of the searches.  Each node is expanded at most once (for
    [astar_path], as long as no length is negative) and pushes at most one
    item per neighbour, so the queue is popped fewer times than this. *)
Definition out_degree (G : graph) (u : node) : nat := length (G_succ G u).
Definition search_fuel (G : graph) : nat :=
  S (S (sum_list (out_degree G <$> node_ids G))).

(** ** networkx: [astar_path] with the default (zero) heuristic *)

Section astar.
Variable succ : node -> list (node * Q).
Variables source target : node.

(** Queue items: [(priority, counter, node, cost to reach, parent)]. *)
Definition qitem := (Q * nat * node * Q * option node)%type.
Definition qkey (i : qitem) : Q * nat := (i.1.1.1.1, i.1.1.1.2).
Definition qnode (i : qitem) : node := i.1.1.2.
Definition qdist (i : qitem) : Q := i.1.2.
Definition qparent (i : qitem) : option node := i.2.

Definition heuristic (u v : node) : Q := 0.

(** The state of the search: counter [c], [queue], [enqueued], [explored]. *)
Record astar_state : Type := AStar {
  a_count : nat;
  a_queue : list qitem;
  a_enqueued : gmap node (Q * Q);
  a_explored : gmap node (option node)
}.

(** Body of [for neighbor, w in G_succ[curnode].items()]. *)
Definition astar_relax (curnode : node) (dist : Q)
    (st : astar_state) (nw : node * Q) : astar_state :=
  let '(neighbor, cost) := nw in
  let ncost := dist + cost in
  let push h :=
    {| a_count := S (a_count st);
       a_queue := heappush (a_queue st)
                    (ncost + h, a_count st, neighbor, ncost, Some curnode);
       a_enqueued := <[neighbor := (ncost, h)]> (a_enqueued st);
       a_explored := a_explored st |} in
  match a_enqueued st !! neighbor with
  | Some (qcost, h) => if Qle_bool qcost ncost then st else push h
  | None => push (heuristic neighbor target)
  end.

(** [while node is not None: path.append(node); node = explored[node]] *)
Fixpoint astar_backtrack (fuel : nat) (explored : gmap node (option node))
    (nd : option node) (path : list node) : result (list node) :=
  match nd with
  | None => Ok path
  | Some n =>
      match fuel with
      | O => Diverge
      | S fuel' =>
          match explored !! n with
          | None => Raise KeyError
          | Some parent => astar_backtrack fuel' explored parent (path ++ [n])
          end
      end
  end.

(** [while queue: ...] *)
Fixpoint astar_loop (fuel : nat) (st : astar_state) : result (list node) :=
  match fuel with
  | O => Diverge
  | S fuel' =>
      match heappop qkey (a_queue st) with
      | None => Raise NetworkXNoPath
      | Some (item, queue') =>
          let curnode := qnode item in
          let dist := qdist item in
          let parent := qparent item in
          let st := {| a_count := a_count st; a_queue := queue';
                       a_enqueued := a_enqueued st;
                       a_explored := a_explored st |} in
          if Z.eqb curnode target then
            match astar_backtrack (S (size (a_explored st)))
                    (a_explored st) parent [curnode] with
            | Ok path => Ok (reverse path)
            | Raise e => Raise e
            | Diverge => Diverge
            end
          else
            let explore :=
              let st := {| a_count := a_count st; a_queue := a_queue st;
                           a_enqueued := a_enqueued st;
                           a_explored := <[curnode := parent]> (a_explored st) |} in
              astar_loop fuel' (fold_left (astar_relax curnode dist) (succ curnode) st) in
            match a_explored st !! curnode with
            | None => explore
            | Some None => astar_loop fuel' st
            | Some (Some _) =>
                match a_enqueued st !! curnode with
                | None => Raise KeyError
                | Some (qcost, h) =>
                    if Qltb qcost dist then astar_loop fuel' st else explore
                end
            end
      end
  end.

Definition astar_init : astar_state :=
  {| a_count := 1;
     a_queue := [(0, 0%nat, source, 0, None)];
     a_enqueued := ∅;
     a_explored := ∅ |}.
End astar.

(** [nx.astar_path(G, source, target, weight='length')] *)
Definition astar_path (G : graph) (source target : node) : result (list node) :=
  if negb (has_node G source) || negb (has_node G target) then Raise NodeNotFound
  else astar_loop (G_succ G) target (search_fuel G) (astar_init source).

(** ** networkx: [ego_graph] with [distance='length'] *)

Section dijkstra.
Variable succ : node -> list (node * Q).
Variable cutoff : Q.

(** Fringe items: [(distance, counter, node)]. *)
Definition fitem := (Q * nat * node)%type.
Definition fkey (i : fitem) : Q * nat := (i.1.1, i.1.2).

Record dijkstra_state : Type := Dijkstra {
  d_count : nat;
  d_fringe : list fitem;
  d_dist : gmap node Q;
  d_seen : gmap node Q
}.

(** Body of [for u, e in G_succ[v].items()], with [pred] and [paths] unused
    and a cut-off given. *)
Definition dijkstra_relax (dist_v : Q) (st : dijkstra_state) (uw : node * Q)
    : result dijkstra_state :=
  let '(u, cost) := uw in
  let vu_dist := dist_v + cost in
  let push :=
    {| d_count := S (d_count st);
       d_fringe := heappush (d_fringe st) (vu_dist, d_count st, u);
       d_dist := d_dist st;
       d_seen := <[u := vu_dist]> (d_seen st) |} in
  if Qltb cutoff vu_dist then Ok st
  else
    match d_dist st !! u with
    | Some u_dist => if Qltb vu_dist u_dist then Raise ValueError else Ok st
    | None =>
        match d_seen st !! u with
        | None => Ok push
        | Some seen_u => if Qltb vu_dist seen_u then Ok push else Ok st
        end
    end.

Fixpoint dijkstra_for (dist_v : Q) (l : list (node * Q)) (st : dijkstra_state)
    : result dijkstra_state :=
  match l with
  | [] => Ok st
  | uw :: l' =>
      match dijkstra_relax dist_v st uw with
      | Ok st' => dijkstra_for dist_v l' st'
      | Raise e => Raise e
      | Diverge => Diverge
      end
  end.

(** [while fringe: ...] of [_dijkstra_multisource], returning [dist]. *)
Fixpoint dijkstra_loop (fuel : nat) (st : dijkstra_state) : result (gmap node Q) :=
  match fuel with
  | O => Diverge
  | S fuel' =>
      match heappop fkey (d_fringe st) with
      | None => Ok (d_dist st)
      | Some ((d, _, v), fringe') =>
          match d_dist st !! v with
          | Some _ =>
              dijkstra_loop fuel'
                {| d_count := d_count st; d_fringe := fringe';
                   d_dist := d_dist st; d_seen := d_seen st |}
          | None =>
              match dijkstra_for d (succ v)
                      {| d_count := d_count st; d_fringe := fringe';
                         d_dist := <[v := d]> (d_dist st);
                         d_seen := d_seen st |} with
              | Ok st' => dijkstra_loop fuel' st'
              | Raise e => Raise e
              | Diverge => Diverge
              end
          end
      end
  end.

Definition dijkstra_init (source : node) : dijkstra_state :=
  {| d_count := 1;
     d_fringe := [(0, 0%nat, source)];
     d_dist := ∅;
     d_seen := {[source := 0]} |}.
End dijkstra.

(** [nx.single_source_dijkstra(G, n, cutoff=radius, weight='length')],
    first component. *)
Definition single_source_dijkstra (G : graph) (source : node) (cutoff : Q)
    : result (gmap node Q) :=
  if has_node G source
  then dijkstra_loop (G_succ G) cutoff (search_fuel G) (dijkstra_init source)
  else Raise NodeNotFound.

(** [nx.ego_graph(G, n, radius=radius, distance='length')] *)
Definition ego_graph (G : graph) (n : node) (radius : Q) : result graph :=
  match single_source_dijkstra G n radius with
  | Ok sp => Ok (subgraph G (dom sp))
  | Raise e => Raise e
  | Diverge => Diverge
  end.

(** ** osmnx: [nearest_nodes] *)

(** The great-circle distance used for unprojected graphs is not rational; it
    is a parameter of the model, from a point [(lat, lon)] to a node position
    [(lat, lon)]. *)
Definition metric := Q * Q -> Q * Q -> Q.

(** [ox.nearest_nodes(G, X, Y)]: the node of [G] closest to the point; a
    graph without nodes raises.  Among equally close nodes the earliest one is
    taken (the library does not document its choice). *)
Definition nearest_nodes (haversine : metric) (G : graph) (X Y : Q) : result node :=
  let d (na : node * (Q * Q)) := haversine (Y, X) (na.2.2, na.2.1) in
  match nodes G with
  | [] => Raise ValueError
  | na :: l =>
      Ok (fold_left (fun best cand => if Qltb (d cand) (d best) then cand else best)
            l na).1
  end.

(** ** load_fire_data.py *)

(** A row of the [Fires] table, restricted to the selected columns. *)
Record row : Type := Row {
  FIRE_YEAR : Z;
  STATE : string;
  LATITUDE : Q;
  LONGITUDE : Q;
  FIRE_SIZE : Q
}.

(** A record of [df.to_dict('records')] after the renaming and the two added
    columns. *)
Record fire : Type := Fire {
  fire_year : Z;
  state : string;
  latitude : Q;
  longitude : Q;
  fire_size : Q;
  confidence : Z;
  bright_ti4 : Z
}.

(** [get_wildfire_data(year, state)]; [database = None] stands for a query
    that raises (the function then prints and returns [None]). *)
Definition get_wildfire_data (database : option (list row)) (year : Z) (st : string)
    : option (list fire) :=
  match database with
  | None => None
  | Some rows =>
      let df := filter (fun r => FIRE_YEAR r = year /\ STATE r = st) rows in
      Some ((fun r => {| fire_year := FIRE_YEAR r; state := STATE r;
                         latitude := LATITUDE r; longitude := LONGITUDE r;
                         fire_size := FIRE_SIZE r;
                         confidence := 90; bright_ti4 := 330 |}) <$> df)
  end.

(** ** backend/main.py *)

(** The external collaborators of the server. *)
Record world : Type := World {
  database : option (list row);
  (** [ox.graph_from_bbox(north, south, east, west, network_type='drive')] *)
  graph_from_bbox : Q -> Q -> Q -> Q -> result graph;
  haversine : metric;
  (** [str(e)] of an exception, as interpolated by an f-string *)
  str_exn : exn -> string
}.

Record RouteRequest : Type := Request {
  start_lat : Q;
  start_lon : Q;
  end_lat : Q;
  end_lon : Q
}.

(** Graph objects live in a store and are handled by reference, so that a
    mutation through one name is seen through every alias. *)
Definition ref := positive.

Record server : Type := Server {
  heap : gmap ref graph;
  graph_cache : gmap string ref;
  wildfire_data_cache : gmap string (list fire)
}.

(** Computations over the server state that may raise. *)
Definition M (A : Type) : Type := server -> result A * server.

Definition ret {A} (a : A) : M A := fun s => (Ok a, s).
Definition raise {A} (e : exn) : M A := fun s => (Raise e, s).
Definition lift {A} (r : result A) : M A := fun s => (r, s).
Definition bind {A B} (m : M A) (k : A -> M B) : M B := fun s =>
  match m s with
  | (Ok a, s') => k a s'
  | (Raise e, s') => (Raise e, s')
  | (Diverge, s') => (Diverge, s')
  end.

Notation "'let*' x := m 'in' k" := (bind m (fun x => k))
  (at level 10, x name, m at level 100, k at level 200, only parsing).

Definition new_graph (g : graph) : M ref := fun s =>
  let r := fresh (dom (heap s)) in
  (Ok r, {| heap := <[r := g]> (heap s); graph_cache := graph_cache s;
            wildfire_data_cache := wildfire_data_cache s |}).

Definition deref (r : ref) : M graph := fun s =>
  match heap s !! r with
  | Some g => (Ok g, s)
  | None => (Raise KeyError, s)
  end.

(** [G.copy()] *)
Definition graph_copy (G : ref) : M ref :=
  let* g := deref G in new_graph g.

(** [G.remove_nodes_from(ns)], in place *)
Definition graph_remove_nodes_from (G : ref) (ns : list node) : M unit := fun s =>
  match heap s !! G with
  | Some g =>
      (Ok tt, {| heap := <[G := remove_nodes_from g ns]> (heap s);
                 graph_cache := graph_cache s;
                 wildfire_data_cache := wildfire_data_cache s |})
  | None => (Raise KeyError, s)
  end.

(** Format specifier [.4f]: four decimals, round half to even. *)
Definition round_half_even (q : Q) : Z :=
  let fl := Qfloor q in
  match Qcompare (q - inject_Z fl) (1 # 2) with
  | Lt => fl
  | Gt => (fl + 1)%Z
  | Eq => if Z.even fl then fl else (fl + 1)%Z
  end.

Definition format_4f (q : Q) : string :=
  let n := Z.to_N (round_half_even (Qabs q * 10000)) in
  let frac := pretty (n mod 10000)%N in
  (if Qltb q 0 then "-" else "") +:+ pretty (n / 10000)%N +:+ "."
    +:+ String.concat "" (replicate (4 - String.length frac) "0") +:+ frac.

(** [GET /wildfires/{year}/{state}] *)
Definition get_wildfires (W : world) (year : Z) (st : string) : M (list fire) := fun s =>
  let cache_key := pretty year +:+ "-" +:+ st in
  match wildfire_data_cache s !! cache_key with
  | Some hotspots => (Ok hotspots, s)
  | None =>
      match get_wildfire_data (database W) year st with
      | Some (f :: l) =>
          (Ok (f :: l),
           {| heap := heap s; graph_cache := graph_cache s;
              wildfire_data_cache := <[cache_key := f :: l]> (wildfire_data_cache s) |})
      | _ =>
          (Raise (HTTPException 404
                    "No wildfire data found for the specified year and state."), s)
      end
  end.

(** The bounding box [(north, south, east, west)] of a request. *)
Definition bbox := (Q * Q * Q * Q)%type.

Definition request_bbox (request : RouteRequest) : bbox :=
  let start_point := (start_lat request, start_lon request) in
  let end_point := (end_lat request, end_lon request) in
  let north := py_max start_point.1 end_point.1 + (1 # 10) in
  let south := py_min start_point.1 end_point.1 - (1 # 10) in
  let east := py_max start_point.2 end_point.2 + (1 # 10) in
  let west := py_min start_point.2 end_point.2 - (1 # 10) in
  (north, south, east, west).

(** [west < lon < east and south < lat < north] *)
Definition in_bbox (b : bbox) (lon lat : Q) : bool :=
  let '(north, south, east, west) := b in
  Qltb west lon && Qltb lon east && Qltb south lat && Qltb lat north.

(** [f"{north:.4f}-{south:.4f}-{east:.4f}-{west:.4f}"] *)
Definition graph_cache_key (b : bbox) : string :=
  let '(north, south, east, west) := b in
  format_4f north +:+ "-" +:+ format_4f south +:+ "-"
    +:+ format_4f east +:+ "-" +:+ format_4f west.

(** The graph of the bounding box, from [graph_cache] or from the provider. *)
Definition cached_graph (W : world) (b : bbox) : M ref := fun s =>
  let '(north, south, east, west) := b in
  match graph_cache s !! graph_cache_key b with
  | Some G => (Ok G, s)
  | None =>
      (let* g := lift (graph_from_bbox W north south east west) in
       let* G := new_graph g in
       fun s => (Ok G, {| heap := heap s;
                          graph_cache := <[graph_cache_key b := G]> (graph_cache s);
                          wildfire_data_cache := wildfire_data_cache s |})) s
  end.

(** Library calls on graph objects held by reference. *)
Definition ox_nearest_nodes (W : world) (G : ref) (X Y : Q) : M node :=
  let* g := deref G in lift (nearest_nodes (haversine W) g X Y).

Definition nx_ego_graph (G : ref) (n : node) (radius : Q) : M graph :=
  let* g := deref G in lift (ego_graph g n radius).

Definition nx_astar_path (G : ref) (source target : node) : M (list node) :=
  let* g := deref G in lift (astar_path g source target).

(** [for lon, lat in danger_zones: ...], accumulating [nodes_to_avoid]. *)
Fixpoint avoid_loop (W : world) (G : ref) (b : bbox) (radius : Q)
    (danger_zones : list (Q * Q)) (nodes_to_avoid : gset node) : M (gset node) :=
  match danger_zones with
  | [] => ret nodes_to_avoid
  | (lon, lat) :: rest =>
      if in_bbox b lon lat then
        let* center_node := ox_nearest_nodes W G lon lat in
        let* nodes_within_radius := nx_ego_graph G center_node radius in
        avoid_loop W G b radius rest
          (nodes_to_avoid ∪ list_to_set (node_ids nodes_within_radius))
      else avoid_loop W G b radius rest nodes_to_avoid
  end.

(** [for node_id in safe_route_nodes: ...], accumulating [route_coords]. *)
Fixpoint coords_loop (G : ref) (safe_route_nodes : list node)
    (route_coords : list (Q * Q)) : M (list (Q * Q)) :=
  match safe_route_nodes with
  | [] => ret route_coords
  | node_id :: rest =>
      let* g := deref G in
      match node_attr g node_id with
      | None => raise KeyError
      | Some (x, y) => coords_loop G rest (route_coords ++ [(y, x)])
      end
  end.

Definition danger_radius_meters : Q := 1000.

(** The [try] block up to the projection of the two end points: the cached
    graph [G], [nodes_to_avoid], the safe copy [G_safe], [start_node] and
    [end_node]. *)
Definition route_setup (W : world) (request : RouteRequest)
    : M (ref * gset node * ref * node * node) :=
  let start_point := (start_lat request, start_lon request) in
  let end_point := (end_lat request, end_lon request) in
  let* hotspots := get_wildfires W 2015 "CA" in
  let b := request_bbox request in
  let* G := cached_graph W b in
  let danger_zones := (fun f => (longitude f, latitude f)) <$> hotspots in
  let* nodes_to_avoid := avoid_loop W G b danger_radius_meters danger_zones ∅ in
  let* G_safe := graph_copy G in
  let* _ := graph_remove_nodes_from G_safe (elements nodes_to_avoid) in
  let* start_node := ox_nearest_nodes W G_safe start_point.2 start_point.1 in
  let* end_node := ox_nearest_nodes W G_safe end_point.2 end_point.1 in
  ret (G, nodes_to_avoid, G_safe, start_node, end_node).

(** The whole [try] block: the search and the coordinates of the route. *)
Definition calculate_route_body (W : world) (request : RouteRequest)
    : M (list (Q * Q)) :=
  let* setup := route_setup W request in
  let '(G, _, G_safe, start_node, end_node) := setup in
  let* safe_route_nodes := nx_astar_path G_safe start_node end_node in
  coords_loop G safe_route_nodes [].

(** [POST /calculate-route]: the route as a list of [(lat, lon)], or an
    [HTTPException]. *)
Definition calculate_route (W : world) (request : RouteRequest)
    : M (list (Q * Q)) := fun s =>
  match calculate_route_body W request s with
  | (Ok route_coords, s') => (Ok route_coords, s')
  | (Raise NetworkXNoPath, s') =>
      (Raise (HTTPException 404 "Could not find a safe path."), s')
  | (Raise e, s') =>
      (Raise (HTTPException 500
                ("An internal server error occurred: " +:+ str_exn W e)), s')
  | (Diverge, s') => (Diverge, s')
  end.

(** ** Specification vocabulary *)

Global Instance Qle_dec : RelDecision Qle.
Proof.
  intros x y. destruct (Qlt_le_dec y x) as [H|H].
  - right. apply Qlt_not_le, H.
  - left. exact H.
Defined.

(** A walk from [u] to [v] along edges satisfying [P], and its length. *)
Fixpoint is_walk (P : edge -> Prop) (u : node) (es : list edge) (v : node) : Prop :=
  match es with
  | [] => u = v
  | e :: es' => e.1.1 = u /\ P e /\ is_walk P e.1.2 es' v
  end.

Definition walk_length (es : list edge) : Q :=
  fold_right (fun e acc => e.2 + acc) 0 es.

Definition walk_nodes (u : node) (es : list edge) : list node :=
  u :: ((fun e => e.1.2) <$> es).

(** Edges of a graph, and edges of a weighted successor function. *)
Definition graph_edge (G : graph) (e : edge) : Prop := e ∈ edges G.
Definition succ_edge (succ : node -> list (node * Q)) (e : edge) : Prop :=
  (e.1.2, e.2) ∈ succ e.1.1.

(** Well-formed road network: node ids are unique, edges join nodes of the
    graph and carry a non-negative length. *)
Definition wf_edge (G : graph) (e : edge) : Prop :=
  e.1.1 ∈ node_ids G /\ e.1.2 ∈ node_ids G /\ 0 <= e.2.

Definition wf_graph (G : graph) : Prop :=
  NoDup (node_ids G) /\ Forall (wf_edge G) (edges G).

Global Instance wf_edge_dec G e : Decision (wf_edge G e).
Proof. unfold wf_edge. apply _. Defined.

Global Instance wf_graph_dec G : Decision (wf_graph G).
Proof. unfold wf_graph. apply _. Defined.

(** The parent links of [explored] from a node back to the source. *)
Inductive chain (explored : gmap node (option node)) : option node -> list node -> Prop :=
  | chain_nil : chain explored None []
  | chain_cons n parent l :
      explored !! n = Some parent ->
      chain explored parent l ->
      chain explored (Some n) (n :: l).

(** Items still to be pushed before the search stops: the queue plus the
    out-edges of the nodes not yet in [done]. *)
Definition pending {B : Type} (succ : node -> list (node * Q)) (V : list node)
    (done : gmap node B) : nat :=
  sum_list ((fun v => match done !! v with
                      | None => length (succ v)
                      | Some _ => O
                      end) <$> V).

(** Invariant of the loop of [astar_path].  [D] records the cost at which each
    explored node was reached, [L] the cost of the last item popped; [todo]
    holds the neighbours that the running [for] loop has yet to visit. *)
Record astar_inv (succ : node -> list (node * Q)) (source target : node)
    (todo : option (node * list (node * Q)))
    (D : gmap node Q) (L : Q) (st : astar_state) : Prop := AstarInv {
  ai_dom : forall v, D !! v = None <-> a_explored st !! v = None;
  ai_src : a_explored st !! source = Some None /\
           exists d0, D !! source = Some d0 /\ d0 == 0;
  ai_root : forall v, a_explored st !! v = Some None -> v = source;
  ai_target : a_explored st !! target = None;
  ai_bound : forall v d, D !! v = Some d -> 0 <= d /\ d <= L;
  ai_queue : forall e, e ∈ a_queue st ->
      (qkey e).1 == qdist e /\ L <= qdist e /\
      (exists p Dp w, qparent e = Some p /\ D !! p = Some Dp /\
                      (qnode e, w) ∈ succ p /\ qdist e == Dp + w) /\
      (exists qc h, a_enqueued st !! qnode e = Some (qc, h) /\ qc <= qdist e) /\
      (forall Dv, D !! qnode e = Some Dv -> qnode e <> source -> Dv < qdist e) /\
      ((qkey e).2 < a_count st)%nat;
  ai_count : NoDup ((fun e => (qkey e).2) <$> a_queue st);
  ai_distinct : forall e e', e ∈ a_queue st -> e' ∈ a_queue st ->
      qnode e = qnode e' -> qdist e == qdist e' -> (qkey e).2 = (qkey e').2;
  ai_done : forall v Dv, D !! v = Some Dv -> v <> source ->
      exists qc h, a_enqueued st !! v = Some (qc, h) /\ Dv == qc;
  ai_enq : forall v qc h, a_enqueued st !! v = Some (qc, h) ->
      h == 0 /\
      (D !! v = None ->
       exists e, e ∈ a_queue st /\ qnode e = v /\ qdist e == qc);
  ai_edges : forall u Du v w, D !! u = Some Du -> (v, w) ∈ succ u ->
      (exists l, todo = Some (u, l) /\ (v, w) ∈ l) \/
      (exists qc h, a_enqueued st !! v = Some (qc, h) /\ qc <= Du + w);
  ai_chain : forall v Dv, D !! v = Some Dv ->
      exists es, chain (a_explored st) (Some v) (reverse (walk_nodes source es)) /\
                 is_walk (succ_edge succ) source es v /\
                 walk_length es == Dv /\
                 (length es < size (a_explored st))%nat
}.

(** A weaker invariant, free of any assumption on the lengths: the nodes held
    by the queue and the parent links all satisfy [S]. *)
Definition astar_nodes_inv (S : node -> Prop) (st : astar_state) : Prop :=
  (forall i, i ∈ a_queue st ->
     S (qnode i) /\ forall p, qparent i = Some p -> S p) /\
  (forall v p, a_explored st !! v = Some (Some p) -> S p).

(** Invariant of the loop of the cut-off Dijkstra search. *)
Record dijkstra_inv (succ : node -> list (node * Q)) (cutoff : Q) (source : node)
    (todo : option (node * list (node * Q)))
    (L : Q) (st : dijkstra_state) : Prop := DijkstraInv {
  di_dist : forall v d, d_dist st !! v = Some d ->
      d <= L /\ d <= cutoff /\
      exists es, is_walk (succ_edge succ) source es v /\ walk_length es == d;
  di_fringe : forall i, i ∈ d_fringe st ->
      L <= i.1.1 /\ i.1.1 <= cutoff /\
      exists es, is_walk (succ_edge succ) source es i.2 /\ walk_length es == i.1.1;
  di_seen : forall v sv, d_seen st !! v = Some sv -> d_dist st !! v = None ->
      exists i, i ∈ d_fringe st /\ i.2 = v /\ i.1.1 <= sv;
  di_edges : forall u du v w, d_dist st !! u = Some du -> (v, w) ∈ succ u ->
      du + w <= cutoff ->
      (exists l, todo = Some (u, l) /\ (v, w) ∈ l) \/
      (exists dv, d_dist st !! v = Some dv /\ dv <= du + w) \/
      (d_dist st !! v = None /\
       exists i, i ∈ d_fringe st /\ i.2 = v /\ i.1.1 <= du + w);
  di_src : (exists d, d_dist st !! source = Some d /\ d <= 0) \/
           (exists i, i ∈ d_fringe st /\ i.2 = source /\ i.1.1 <= 0)
}.

(** What the searches are expected to return. *)
Definition shortest_walk (P : edge -> Prop) (u v : node) (es : list edge) : Prop :=
  is_walk P u es v /\
  forall es', is_walk P u es' v -> walk_length es <= walk_length es'.

Definition astar_post (P : edge -> Prop) (source target : node)
    (r : result (list node)) : Prop :=
  match r with
  | Ok path => exists es, path = walk_nodes source es /\ shortest_walk P source target es
  | Raise NetworkXNoPath => forall es, ~ is_walk P source es target
  | _ => False
  end.

Definition dijkstra_post (P : edge -> Prop) (source : node) (cutoff : Q)
    (r : result (gmap node Q)) : Prop :=
  match r with
  | Ok dist =>
      forall v, is_Some (dist !! v) <->
                exists es, is_walk P source es v /\ walk_length es <= cutoff
  | _ => False
  end.

(** ** Vocabulary of the service *)

(** A hazard strictly outside the bounding box. *)
Definition outside_bbox (b : bbox) (lon lat : Q) : Prop :=
  let '(north, south, east, west) := b in
  lon < west \/ east < lon \/ lat < south \/ north < lat.


(** [route] lists the [(lat, lon)] positions of the nodes of [path] in [g]. *)
Definition route_of (g : graph) (path : list node) (route : list (Q * Q)) : Prop :=
  Forall2 (fun n c => exists x y, node_attr g n = Some (x, y) /\ c = (y, x))
    path route.

(** [n] is a node of [g] closest to the point [(lat, lon)]. *)
Definition nearest_in (h : metric) (g : graph) (lat lon : Q) (n : node) : Prop :=
  exists x y, (n, (x, y)) ∈ nodes g /\
    forall n' x' y', (n', (x', y')) ∈ nodes g ->
      h (lat, lon) (y, x) <= h (lat, lon) (y', x').

(** The store once the safe copy [g_safe] has been allocated. *)
Definition with_safe (s : server) (g_safe : graph) : server :=
  {| heap := <[fresh (dom (heap s)) := g_safe]> (heap s);
     graph_cache := graph_cache s;
     wildfire_data_cache := wildfire_data_cache s |}.

(** A computation that leaves the server state as it is. *)
Definition stateless {A : Type} (m : M A) : Prop := forall s, (m s).2 = s.

(** What a request may change in the store, from [s] to [s']: graph objects
    present in [s] are untouched, and a cache entry is either an entry of [s]
    or a graph just obtained from the provider, stored as obtained. *)
Definition frame (W : world) (s s' : server) : Prop :=
  (forall r g, heap s !! r = Some g -> heap s' !! r = Some g) /\
  (forall k G, graph_cache s' !! k = Some G ->
     graph_cache s !! k = Some G \/
     exists north south east west g,
       graph_from_bbox W north south east west = Ok g /\ heap s' !! G = Some g).

(** ** A small scenario *)

(** Five nodes in a row, west to east, and a side road from 2 to 4 through 6;
    the only recorded fire of 2015 in CA burns at node 3. *)
Definition town : graph :=
  {| nodes := [(1%Z, (1 # 100, 0)); (2%Z, (2 # 100, 0)); (3%Z, (3 # 100, 0));
               (4%Z, (4 # 100, 0)); (5%Z, (5 # 100, 0)); (6%Z, (3 # 100, 1 # 100))];
     edges := [(1%Z, 2%Z, 2000); (2%Z, 3%Z, 2000); (3%Z, 4%Z, 2000);
               (4%Z, 5%Z, 2000); (2%Z, 6%Z, 3000); (6%Z, 4%Z, 3000)] |}.

(** The same row without the side road. *)
Definition row_town : graph :=
  {| nodes := [(1%Z, (1 # 100, 0)); (2%Z, (2 # 100, 0)); (3%Z, (3 # 100, 0));
               (4%Z, (4 # 100, 0)); (5%Z, (5 # 100, 0))];
     edges := [(1%Z, 2%Z, 2000); (2%Z, 3%Z, 2000); (3%Z, 4%Z, 2000);
               (4%Z, 5%Z, 2000)] |}.

Definition fires : list row :=
  [ {| FIRE_YEAR := 2015; STATE := "CA"; LATITUDE := 0; LONGITUDE := 3 # 100;
       FIRE_SIZE := 12 |};
    {| FIRE_YEAR := 2014; STATE := "CA"; LATITUDE := 0; LONGITUDE := 2 # 100;
       FIRE_SIZE := 1 |} ].

Definition flat_metric : metric := fun p q =>
  (p.1 - q.1) * (p.1 - q.1) + (p.2 - q.2) * (p.2 - q.2).

Definition show_exn (e : exn) : string :=
  match e with
  | HTTPException status_code detail => pretty status_code +:+ ": " +:+ detail
  | _ => ""
  end.

Definition world_of (db : option (list row)) (g : graph) : world :=
  {| database := db;
     graph_from_bbox := fun _ _ _ _ => Ok g;
     haversine := flat_metric;
     str_exn := show_exn |}.

(** A world whose network provider has no data for any region. *)
Definition world_without_network (db : option (list row)) : world :=
  {| database := db;
     graph_from_bbox := fun _ _ _ _ => Raise ProviderError;
     haversine := flat_metric;
     str_exn := show_exn |}.

Definition fresh_server : server :=
  {| heap := ∅; graph_cache := ∅; wildfire_data_cache := ∅ |}.

Definition across_town : RouteRequest :=
  {| start_lat := 0; start_lon := 1 # 100; end_lat := 0; end_lon := 5 # 100 |}.

Definition from_the_fire : RouteRequest :=
  {| start_lat := 0; start_lon := 3 # 100; end_lat := 0; end_lon := 5 # 100 |}.


(** ** generate_evacuation_route.py *)

Definition START_POINT : Q * Q := (378716 # 10000, -1222727 # 10000).
Definition END_POINT : Q * Q := (378272 # 10000, -1222901 # 10000).
Definition DANGER_RADIUS_METERS : Q := 1000.

(** [-122.4 < fire['longitude'] < -122.1 and 37.8 < fire['latitude'] < 37.9] *)
Definition near_berkeley (fire : fire) : bool :=
  Qltb (-1224 # 10) (longitude fire) && Qltb (longitude fire) (-1221 # 10)
  && Qltb (378 # 10) (latitude fire) && Qltb (latitude fire) (379 # 10).

(** [for fire in all_fires: ...], left by [break] once three zones are
    collected. *)
Fixpoint danger_zones_loop (all_fires : list fire) (DANGER_ZONES : list (Q * Q))
    : list (Q * Q) :=
  match all_fires with
  | [] => DANGER_ZONES
  | fire :: rest =>
      if near_berkeley fire then
        let DANGER_ZONES := DANGER_ZONES ++ [(longitude fire, latitude fire)] in
        if (3 <=? length DANGER_ZONES)%nat then DANGER_ZONES
        else danger_zones_loop rest DANGER_ZONES
      else danger_zones_loop rest DANGER_ZONES
  end.

(** The danger zones of the script: [all_fires] is what [get_wildfire_data]
    returned, [None] and the empty list being both false for [if all_fires]. *)
Definition DANGER_ZONES (all_fires : option (list fire)) : list (Q * Q) :=
  let DANGER_ZONES :=
    match all_fires with
    | Some (fire :: rest) => danger_zones_loop (fire :: rest) []
    | _ => []
    end in
  match DANGER_ZONES with
  | [] => [(-12226 # 100, 3786 # 100); (-12225 # 100, 3785 # 100)]
  | _ :: _ => DANGER_ZONES
  end.

(** [for lon, lat in DANGER_ZONES: ...]: no bounding box is tested here. *)
Fixpoint script_avoid_loop (W : world) (G : ref) (danger_zones : list (Q * Q))
    (nodes_to_avoid : gset node) : M (gset node) :=
  match danger_zones with
  | [] => ret nodes_to_avoid
  | (lon, lat) :: rest =>
      let* center_node := ox_nearest_nodes W G lon lat in
      let* nodes_within_radius := nx_ego_graph G center_node DANGER_RADIUS_METERS in
      script_avoid_loop W G rest
        (nodes_to_avoid ∪ list_to_set (node_ids nodes_within_radius))
  end.

(** What the script leaves behind: the map it saved, with the route and the
    danger zones drawn on it, or the message of one of its two handlers. *)
Inductive script_output : Type :=
  | MapSaved (route_coords : list (Q * Q)) (danger_zones : list (Q * Q))
  | CouldNotFindSafePath
  | UnexpectedError (message : string).

(** Sections 1 to 4 of the script, before the [try]; [graph_from_place]
    stands for [ox.graph_from_place(PLACE_NAME, network_type='drive')]. *)
Definition script_setup (W : world) (graph_from_place : result graph)
    : M (ref * gset node * ref * node * node) :=
  let all_fires := get_wildfire_data (database W) 2015 "CA" in
  let* g := lift graph_from_place in
  let* G := new_graph g in
  let* nodes_to_avoid := script_avoid_loop W G (DANGER_ZONES all_fires) ∅ in
  let* G_safe := graph_copy G in
  let* _ := graph_remove_nodes_from G_safe (elements nodes_to_avoid) in
  let* start_node := ox_nearest_nodes W G_safe START_POINT.2 START_POINT.1 in
  let* end_node := ox_nearest_nodes W G_safe END_POINT.2 END_POINT.1 in
  ret (G, nodes_to_avoid, G_safe, start_node, end_node).

(** The map library, which the model does not look into: each call returns
    or raises. *)
Record folium : Type := Folium {
  (** [folium.Map(location=START_POINT, zoom_start=14)] *)
  folium_Map : result unit;
  (** the line, the two markers and the circles added to the map, then
      [route_map.save(output_file)], for a route and its danger zones *)
  draw_and_save : list (Q * Q) -> list (Q * Q) -> result unit
}.

(** The whole script.  An exception raised before the [try] is not caught;
    inside the [try], the search, the map library and the look-up of the
    coordinates may each raise, and the first handler that matches prints
    its message. *)
Definition generate_evacuation_route (W : world) (F : folium)
    (graph_from_place : result graph) : M script_output :=
  let* setup := script_setup W graph_from_place in
  let '(G, _, G_safe, start_node, end_node) := setup in
  let danger_zones := DANGER_ZONES (get_wildfire_data (database W) 2015 "CA") in
  fun s =>
    match (let* safe_route_nodes := nx_astar_path G_safe start_node end_node in
           let* _ := lift (folium_Map F) in
           let* route_coords := coords_loop G safe_route_nodes [] in
           let* _ := lift (draw_and_save F route_coords danger_zones) in
           ret route_coords) s with
    | (Ok route_coords, s') => (Ok (MapSaved route_coords danger_zones), s')
    | (Raise NetworkXNoPath, s') => (Ok CouldNotFindSafePath, s')
    | (Raise e, s') =>
        (Ok (UnexpectedError ("An unexpected error occurred: " +:+ str_exn W e)), s')
    | (Diverge, s') => (Diverge, s')
    end.

(** A few blocks of Berkeley, for the script: node 1 next to [START_POINT],
    node 4 next to [END_POINT], node 2 on the direct way and node 3 on the
    way round; one fire of the data set burns at node 2. *)
Definition berkeley : graph :=
  {| nodes := [(1%Z, (-1222727 # 10000, 378716 # 10000));
               (2%Z, (-12228 # 100, 3785 # 100));
               (3%Z, (-12232 # 100, 3785 # 100));
               (4%Z, (-1222901 # 10000, 378272 # 10000))];
     edges := [(1%Z, 2%Z, 2500); (2%Z, 4%Z, 2500);
               (1%Z, 3%Z, 4000); (3%Z, 4%Z, 4000)] |}.

Definition berkeley_fires : list row :=
  [ {| FIRE_YEAR := 2015; STATE := "CA"; LATITUDE := 36; LONGITUDE := -120;
       FIRE_SIZE := 3 |};
    {| FIRE_YEAR := 2015; STATE := "CA"; LATITUDE := 3785 # 100;
       LONGITUDE := -12228 # 100; FIRE_SIZE := 1 # 2 |} ].

(** ** backend/model_handler.py *)

Definition IMG_SIZE : Z := 128.

(** The shape of [np.array(image)] for a decoded image: [(h, w)] for a
    single-band image, [(h, w, c)] otherwise. *)
Inductive array_shape : Type :=
  | Shape2 (h w : Z)
  | Shape3 (h w c : Z).

(** The imaging libraries and the trained network, which the model does not
    look into: each call returns or raises. *)
Record vision : Type := Vision {
  ndarray : Type;
  keras_model : Type;
  (** [load_model(MODEL_PATH)] *)
  load_model : result keras_model;
  (** [np.array(Image.open(io.BytesIO(image_bytes)))] *)
  image_open : list Byte.byte -> result ndarray;
  shape : ndarray -> array_shape;
  cvtColor_GRAY2BGR : ndarray -> result ndarray;
  cvtColor_RGBA2BGR : ndarray -> result ndarray;
  resize : ndarray -> Z * Z -> result ndarray;
  (** [resized_array / 255.0] *)
  divide : ndarray -> Q -> ndarray;
  (** [np.expand_dims(scaled_array, axis=0)] *)
  expand_dims : ndarray -> ndarray;
  (** [WILDFIRE_MODEL.predict(input_data)[0]]: [(prob_nofire, prob_fire)] *)
  predict : keras_model -> ndarray -> result (Q * Q);
  str_error : exn -> string
}.

(** Sequencing of calls that return or raise. *)
Definition and_then {A B} (r : result A) (k : A -> result B) : result B :=
  match r with
  | Ok a => k a
  | Raise e => Raise e
  | Diverge => Diverge
  end.

(** [load_wildfire_model()]: the new value of the global [WILDFIRE_MODEL]. *)
Definition load_wildfire_model (V : vision) : result (option (keras_model V)) :=
  match load_model V with
  | Ok model => Ok (Some model)
  | Raise _ => Ok None
  | Diverge => Diverge
  end.

(** Format specifier [.2%]: the value times 100 with two decimals, then the
    percent sign. *)
Definition format_2pct (q : Q) : string :=
  let n := Z.to_N (round_half_even (Qabs (q * 100) * 100)) in
  let frac := pretty (n mod 100)%N in
  (if Qltb q 0 then "-" else "") +:+ pretty (n / 100)%N +:+ "."
    +:+ String.concat "" (replicate (2 - String.length frac) "0") +:+ frac +:+ "%".

(** The [try] block of [predict_wildfire_from_image]. *)
Definition predict_body (V : vision) (model : keras_model V)
    (image_bytes : list Byte.byte) : result (gmap string string) :=
  and_then (image_open V image_bytes) (fun image_np =>
  and_then (match shape V image_np with
            | Shape2 _ _ => cvtColor_GRAY2BGR V image_np
            | Shape3 _ _ c =>
                if Z.eqb c 4 then cvtColor_RGBA2BGR V image_np else Ok image_np
            end) (fun image_np =>
  and_then (resize V image_np (IMG_SIZE, IMG_SIZE)) (fun resized_array =>
  let scaled_array := divide V resized_array 255 in
  let input_data := expand_dims V scaled_array in
  and_then (predict V model input_data) (fun prediction =>
  let confidence_fire := prediction.2 in
  let label := if Qltb (1 # 2) confidence_fire
               then "Fire Detected" else "No Fire Detected" in
  Ok (<["prediction" := label]>
        (<["confidence" := format_2pct confidence_fire]> ∅)))))).

(** [predict_wildfire_from_image(image_bytes)], given the global
    [WILDFIRE_MODEL]. *)
Definition predict_wildfire_from_image (V : vision)
    (WILDFIRE_MODEL : option (keras_model V)) (image_bytes : list Byte.byte)
    : result (gmap string string) :=
  match WILDFIRE_MODEL with
  | None => Ok (<["error" := "Model is not loaded."]> ∅)
  | Some model =>
      match predict_body V model image_bytes with
      | Ok prediction_result => Ok prediction_result
      | Raise e =>
          Ok (<["error" := "Error processing image: " +:+ str_error V e]> ∅)
      | Diverge => Diverge
      end
  end.

(** An uploaded file: its bytes and its declared content type, which is
    [None] when the part of the form carries no [Content-Type] header. *)
Record UploadFile : Type := Upload {
  content_type : option string;
  file_read : list Byte.byte
}.

(** [POST /predict/wildfire].  The content type is not tested for [None]:
    [None.startswith] raises [AttributeError], which the endpoint does not
    catch. *)
Definition predict_wildfire (V : vision) (WILDFIRE_MODEL : option (keras_model V))
    (file : UploadFile) : result (gmap string string) :=
  match content_type file with
  | None => Raise AttributeError
  | Some content_type =>
      if negb (String.prefix "image/" content_type) then
        Raise (HTTPException 400 "File must be an image.")
      else
        and_then (predict_wildfire_from_image V WILDFIRE_MODEL (file_read file))
          (fun prediction_result =>
             match prediction_result !! "error" with
             | Some detail => Raise (HTTPException 500 detail)
             | None => Ok prediction_result
             end)
  end.

(** The server from its start to one upload: [startup_event] loads the
    network, then the endpoint is called. *)
Definition serve_upload (V : vision) (file : UploadFile)
    : result (gmap string string) :=
  and_then (load_wildfire_model V) (fun WILDFIRE_MODEL =>
  predict_wildfire V WILDFIRE_MODEL file).

(** ** process_drought_jpeg.py *)

(** A pixel as [cv2.imread] returns it, blue first; an image is its rows. *)
Definition pixel := (Z * Z * Z)%type.
Definition image := list (list pixel).

Definition COLOR_BGR2RGB (p : pixel) : pixel :=
  let '(b, g, r) := p in (r, g, b).

(** [np.clip(a, a_min, a_max)] *)
Definition clip (a a_min a_max : Q) : Q :=
  py_min (py_max a a_min) a_max.

(** The body of [calculate_ndvi_from_jpeg] at one pixel of [cv2.imread]'s
    array. *)
Definition ndvi_of_pixel (img : pixel) : Q :=
  let img := COLOR_BGR2RGB img in
  let '(blue, green, red) := img in
  let red := inject_Z red in
  let nir := inject_Z green in
  let numerator := nir - red in
  let denominator := nir + red in
  let ndvi := if Qeq_bool denominator 0 then 0 else numerator / denominator in
  clip ndvi (-1) 1.

(** [calculate_ndvi_from_jpeg(image_path)]; [imread = None] stands for a file
    that cannot be read. *)
Definition calculate_ndvi_from_jpeg (imread : option image) : option (list (list Q)) :=
  match imread with
  | None => None
  | Some img =>
      Some ((fun row : list pixel => ndvi_of_pixel <$> row) <$> (img : list (list pixel)))
  end.

(** The masked assignments of [classify_drought] at one cell, in order.
    [ndvi >= x] is [x <= ndvi]. *)
Definition drought_class (ndvi : Q) : Z :=
  let drought_map := 0%Z in
  let drought_map := if Qltb ndvi (5 # 100) then 4%Z else drought_map in
  let drought_map :=
    if Qle_bool (5 # 100) ndvi && Qltb ndvi (15 # 100) then 3%Z else drought_map in
  let drought_map :=
    if Qle_bool (15 # 100) ndvi && Qltb ndvi (3 # 10) then 2%Z else drought_map in
  let drought_map :=
    if Qle_bool (3 # 10) ndvi && Qltb ndvi (4 # 10) then 1%Z else drought_map in
  let drought_map := if Qle_bool (4 # 10) ndvi then 0%Z else drought_map in
  drought_map.

(** [classify_drought(ndvi)] *)
Definition classify_drought (ndvi : list (list Q)) : list (list Z) :=
  (fun row : list Q => drought_class <$> row) <$> ndvi.

(** ** train_flood_model.py *)

(** A row of the frame: every column but the last, and the last one. *)
Definition frame_row := (list Q * Q)%type.

(** [create_sequences(data, sequence_length)]: the loop over
    [range(len(data) - sequence_length)], which is empty when the frame is
    shorter than a window.  Row [i + sequence_length] exists for every [i] of
    the range, so the second branch is never taken. *)
Definition create_sequences (data : list frame_row) (sequence_length : nat)
    : list (list (list Q)) * list Q :=
  fold_left
    (fun '(xs, ys) i =>
       let x := fst <$> take sequence_length (drop i data) in
       match data !! (i + sequence_length)%nat with
       | Some row => (xs ++ [x], ys ++ [row.2])
       | None => (xs, ys)
       end)
    (seq 0 (length data - sequence_length)) ([], []).

(** ** Vocabulary of the caches *)

(** [f"{year}-{state}"] *)
Definition wildfire_cache_key (year : Z) (st : string) : string :=
  pretty year +:+ "-" +:+ st.

(** A record as [get_wildfire_data] builds it for a year and a state. *)
Definition fire_of (year : Z) (st : string) (f : fire) : Prop :=
  fire_year f = year /\ state f = st /\
  confidence f = 90%Z /\ bright_ti4 f = 330%Z.

(** Every list held by [wildfire_data_cache] for a year and a state is
    non-empty and made of records of that year and state. *)
Definition cache_sound (s : server) : Prop :=
  forall year st hotspots,
    wildfire_data_cache s !! wildfire_cache_key year st = Some hotspots ->
    hotspots <> [] /\ Forall (fire_of year st) hotspots.

(** A string without the separator ["-"]. *)
Fixpoint no_dash (s : string) : bool :=
  match s with
  | EmptyString => true
  | String c s' => negb (bool_decide (String c "" = "-")) && no_dash s'
  end.

(** A computation that leaves the two caches as they are. *)
Definition same_caches (s s' : server) : Prop :=
  graph_cache s' = graph_cache s /\
  wildfire_data_cache s' = wildfire_data_cache s.

Definition keeps_caches {A : Type} (m : M A) : Prop :=
  forall s r s', m s = (r, s') -> same_caches s s'.

(** From [s] to [s'] the caches have changed at most at the keys [kw] and
    [kg], and no entry of [s] has been replaced. *)
Definition footprint (kw kg : string) (s s' : server) : Prop :=
  (forall k, k <> kw -> wildfire_data_cache s' !! k = wildfire_data_cache s !! k) /\
  (forall k, k <> kg -> graph_cache s' !! k = graph_cache s !! k) /\
  (forall k hotspots, wildfire_data_cache s !! k = Some hotspots ->
                      wildfire_data_cache s' !! k = Some hotspots) /\
  (forall k G, graph_cache s !! k = Some G -> graph_cache s' !! k = Some G).

(** A hamlet of two nodes, 500 metres apart, next to the fire of [fires]. *)
Definition hamlet : graph :=
  {| nodes := [(1%Z, (3 # 100, 0)); (2%Z, (3 # 100, 1 # 100))];
     edges := [(1%Z, 2%Z, 500); (2%Z, 1%Z, 500)] |}.

(** A map library that works. *)
Definition folium_at_work : folium :=
  {| folium_Map := Ok tt; draw_and_save := fun _ _ => Ok tt |}.

(** Imaging libraries that work, on a server whose network file is
    missing. *)
Definition vision_without_network : vision :=
  {| ndarray := unit; keras_model := unit;
     load_model := Raise ValueError;
     image_open := fun _ => Ok tt;
     shape := fun _ => Shape3 1 1 3;
     cvtColor_GRAY2BGR := Ok; cvtColor_RGBA2BGR := Ok;
     resize := fun a _ => Ok a;
     divide := fun a _ => a;
     expand_dims := fun a => a;
     predict := fun _ _ => Ok (1 # 2, 1 # 2);
     str_error := show_exn |}.

(** * Properties *)

(** ** Numbers *)

Lemma Qltb_lt x y : Qltb x y = true <-> x < y.
Proof. unfold Qltb. rewrite Qlt_alt. destruct (x ?= y); split; congruence. Qed.

Lemma Qltb_ge x y : Qltb x y = false <-> y <= x.
Proof.
  unfold Qltb. rewrite Qle_alt, <- (Qcompare_antisym x y).
  destruct (x ?= y); simpl; split; intros; congruence.
Qed.

(** ** heapq *)

Section heapq_facts.
Context {A : Type} (key : A -> Q * nat).

Lemma key_ltb_le a b : key_ltb key a b = true -> (key a).1 <= (key b).1.
Proof.
  unfold key_ltb. destruct (Qeq_bool _ _) eqn:E.
  - intros _. apply Qeq_bool_iff in E. rewrite E. apply Qle_refl.
  - intros H. apply Qltb_lt in H. apply Qlt_le_weak, H.
Qed.

Lemma key_ltb_ge a b : key_ltb key a b = false -> (key b).1 <= (key a).1.
Proof.
  unfold key_ltb. destruct (Qeq_bool _ _) eqn:E.
  - intros _. apply Qeq_bool_iff in E. rewrite E. apply Qle_refl.
  - intros H. apply Qltb_ge in H. exact H.
Qed.

Lemma heappop_None (heap : list A) : heappop key heap = None -> heap = [].
Proof.
  destruct heap as [|e heap]; [done|]. simpl.
  destruct (heappop key heap) as [[m r]|]; [|done].
  by destruct (key_ltb key e m).
Qed.

Lemma heappop_Some (heap : list A) m r :
  heappop key heap = Some (m, r) ->
  heap ≡ₚ m :: r /\ forall e, e ∈ r -> (key m).1 <= (key e).1.
Proof.
  revert m r. induction heap as [|e heap IH]; intros m r; [done|]. simpl.
  destruct (heappop key heap) as [[m' r']|] eqn:E.
  - destruct (IH _ _ eq_refl) as [Hp Hmin].
    destruct (key_ltb key e m') eqn:Hlt; intros [= <- <-].
    + split; [done|]. intros x Hx. rewrite Hp in Hx.
      apply key_ltb_le in Hlt.
      apply elem_of_cons in Hx as [->|Hx]; [exact Hlt|].
      eapply Qle_trans; [exact Hlt|]. by apply Hmin.
    + split.
      * rewrite Hp. apply Permutation_swap.
      * intros x Hx. apply key_ltb_ge in Hlt.
        apply elem_of_cons in Hx as [->|Hx]; [exact Hlt|]. by apply Hmin.
  - apply heappop_None in E as ->. intros [= <- <-]. split; [done|].
    intros x Hx. by apply elem_of_nil in Hx.
Qed.
End heapq_facts.

(** ** Walks *)

Lemma walk_length_app es1 es2 :
  walk_length (es1 ++ es2) == walk_length es1 + walk_length es2.
Proof.
  induction es1 as [|e es1 IH]; simpl.
  - lra.
  - rewrite IH. lra.
Qed.

Lemma is_walk_app P u es1 x es2 v :
  is_walk P u es1 x -> is_walk P x es2 v -> is_walk P u (es1 ++ es2) v.
Proof.
  revert u. induction es1 as [|e es1 IH]; simpl; intros u.
  - by intros ->.
  - intros (-> & He & Hw) H2. eauto.
Qed.

Lemma is_walk_snoc P u es x e :
  is_walk P u es x -> e.1.1 = x -> P e -> is_walk P u (es ++ [e]) e.1.2.
Proof. intros H1 H2 H3. eapply is_walk_app; [exact H1|]. by simpl. Qed.

Lemma is_walk_impl (P P' : edge -> Prop) u es v :
  (forall e, P e -> P' e) -> is_walk P u es v -> is_walk P' u es v.
Proof.
  intros HP. revert u. induction es as [|e es IH]; simpl; intros u; [done|].
  intros (? & ? & ?). eauto.
Qed.

Lemma walk_length_nonneg P u es v :
  (forall e, P e -> 0 <= e.2) -> is_walk P u es v -> 0 <= walk_length es.
Proof.
  intros HP. revert u. induction es as [|e es IH]; simpl; intros u.
  - intros _. lra.
  - intros (_ & He & Hw). apply HP in He. apply IH in Hw. lra.
Qed.

Lemma walk_nodes_snoc u es e :
  walk_nodes u (es ++ [e]) = walk_nodes u es ++ [e.1.2].
Proof. unfold walk_nodes. by rewrite fmap_app. Qed.

(** ** Adjacency *)

Lemma adj_insert_elem v w l x y :
  (x, y) ∈ adj_insert v w l ->
  (x, y) ∈ l \/ (x = v /\ y = w).
Proof.
  induction l as [|[v' w'] l IH]; simpl.
  - intros [= -> ->]%list_elem_of_singleton. by right.
  - destruct (Z.eqb_spec v' v) as [->|Hne].
    + intros [H|H]%elem_of_cons.
      * injection H as -> ->. destruct (Qltb w w'); [by right|left; left].
      * left. by right.
    + intros [H|H]%elem_of_cons.
      * left. rewrite H. left.
      * destruct (IH H) as [?|?]; [left; by right|by right].
Qed.

Lemma adj_insert_le v w l :
  (forall y, (v, y) ∈ l -> exists y', (v, y') ∈ adj_insert v w l /\ y' <= y) /\
  (forall x y, x <> v -> (x, y) ∈ l -> (x, y) ∈ adj_insert v w l) /\
  (exists y', (v, y') ∈ adj_insert v w l /\ y' <= w).
Proof.
  induction l as [|[v' w'] l (IH1 & IH2 & IH3)]; simpl.
  - split; [|split].
    + intros y Hy. by apply elem_of_nil in Hy.
    + intros x y _ Hy. by apply elem_of_nil in Hy.
    + exists w. split; [left|lra].
  - destruct (Z.eqb_spec v' v) as [->|Hne].
    + assert (Hmin : (if Qltb w w' then w else w') <= w /\
                     (if Qltb w w' then w else w') <= w').
      { destruct (Qltb w w') eqn:E.
        - apply Qltb_lt in E. lra.
        - apply Qltb_ge in E. lra. }
      split; [|split].
      * intros y [H|H]%elem_of_cons.
        -- injection H as ->. eexists. split; [left|]. apply Hmin.
        -- exists y. split; [by right|lra].
      * intros x y Hx [H|H]%elem_of_cons; [congruence|by right].
      * eexists. split; [left|]. apply Hmin.
    + split; [|split].
      * intros y [H|H]%elem_of_cons; [congruence|].
        destruct (IH1 _ H) as (y' & ? & ?). exists y'. split; [by right|done].
      * intros x y Hx [H|H]%elem_of_cons; [rewrite H; left|right; eauto].
      * destruct IH3 as (y' & ? & ?). exists y'. split; [by right|done].
Qed.

Lemma adj_of_sound es u v w : (v, w) ∈ adj_of es u -> (u, v, w) ∈ es.
Proof.
  induction es as [|[[a b] c] es IH]; simpl.
  - intros H. by apply elem_of_nil in H.
  - destruct (Z.eqb_spec a u) as [->|Hne].
    + intros H. apply adj_insert_elem in H as [H|[-> ->]]; [|left].
      right. by apply IH.
    + intros H. right. by apply IH.
Qed.

Lemma adj_of_complete es u v w :
  (u, v, w) ∈ es -> exists w', (v, w') ∈ adj_of es u /\ w' <= w.
Proof.
  induction es as [|[[a b] c] es IH]; simpl.
  - intros H. by apply elem_of_nil in H.
  - intros [H|H]%elem_of_cons.
    + injection H as <- <- <-. rewrite Z.eqb_refl.
      apply (adj_insert_le v w (adj_of es u)).
    + destruct (IH H) as (w' & Hin & Hle).
      destruct (Z.eqb_spec a u) as [->|Hne]; [|eauto].
      destruct (adj_insert_le b c (adj_of es u)) as (H1 & H2 & _).
      destruct (decide (v = b)) as [->|Hvb].
      * destruct (H1 _ Hin) as (y' & ? & ?). exists y'. split; [done|lra].
      * exists w'. split; [|done]. by apply H2.
Qed.

Lemma G_succ_sound G u v w : (v, w) ∈ G_succ G u -> (u, v, w) ∈ edges G.
Proof. unfold G_succ. intros H%adj_of_sound. by rewrite elem_of_reverse in H. Qed.

Lemma G_succ_complete G u v w :
  (u, v, w) ∈ edges G -> exists w', (v, w') ∈ G_succ G u /\ w' <= w.
Proof. intros H. apply adj_of_complete. by rewrite elem_of_reverse. Qed.

Lemma Qle_bool_false x y : Qle_bool x y = false -> y < x.
Proof.
  intros H. apply Qnot_le_lt. intros Hle. apply Qle_bool_iff in Hle. congruence.
Qed.

(** ** Parent links *)

Lemma chain_insert explored nd l v x :
  chain explored nd l -> explored !! v = None ->
  chain (<[v := x]> explored) nd l.
Proof.
  induction 1 as [|n parent l Hn _ IH]; intros Hv; [constructor|].
  apply chain_cons with parent; [|by apply IH].
  rewrite lookup_insert_ne; [done|]. intros ->. congruence.
Qed.

Lemma astar_backtrack_chain explored nd l fuel path :
  chain explored nd l -> (length l <= fuel)%nat ->
  astar_backtrack fuel explored nd path = Ok (path ++ l).
Proof.
  intros H. revert fuel path.
  induction H as [|n parent l Hn _ IH]; intros fuel path Hlen.
  - destruct fuel; simpl; by rewrite app_nil_r.
  - simpl in Hlen. destruct fuel as [|fuel]; [lia|]. simpl. rewrite Hn.
    rewrite IH by lia. by rewrite <- app_assoc.
Qed.

(** ** Pending work *)

Lemma pending_cons {B} succ a V (done : gmap node B) :
  pending succ (a :: V) done =
  (match done !! a with None => length (succ a) | Some _ => O end
   + pending succ V done)%nat.
Proof. reflexivity. Qed.

Lemma pending_insert_notin {B} succ V (done : gmap node B) v x :
  v ∉ V -> pending succ V (<[v := x]> done) = pending succ V done.
Proof.
  induction V as [|a V IH]; [done|].
  intros Hv. apply not_elem_of_cons in Hv as [Hne Hv].
  rewrite !pending_cons, lookup_insert_ne by done. by rewrite IH.
Qed.

Lemma pending_insert {B} succ V (done : gmap node B) v x :
  NoDup V -> v ∈ V -> done !! v = None ->
  (pending succ V (<[v := x]> done) + length (succ v) = pending succ V done)%nat.
Proof.
  induction V as [|a V IH]; intros Hnd Hv Hdone.
  - by apply elem_of_nil in Hv.
  - apply NoDup_cons in Hnd as [Ha Hnd]. rewrite !pending_cons.
    apply elem_of_cons in Hv as [->|Hv].
    + rewrite lookup_insert_eq, Hdone, pending_insert_notin by done. lia.
    + rewrite lookup_insert_ne by (intros ->; done).
      specialize (IH Hnd Hv Hdone). lia.
Qed.

Section astar_facts.
Variable succ : node -> list (node * Q).
Variables source target : node.
Variable V : list node.
Hypothesis succ_nonneg : forall u v w, (v, w) ∈ succ u -> 0 <= w.
Hypothesis V_nodup : NoDup V.
Hypothesis succ_V : forall u, u ∉ V -> succ u = [].

Local Abbreviation inv := (astar_inv succ source target).

Ltac inv_fields I :=
  destruct I as [Hdom Hsrc Hroot Htgt Hbound Hqueue Hcount Hdist Hdone
                 Henq Hedges Hchain].

Lemma astar_inv_todo_nil u D L st :
  inv (Some (u, [])) D L st -> inv None D L st.
Proof.
  intros I. inv_fields I. constructor; try done.
  intros u' Du v w Hu' He.
  destruct (Hedges _ _ _ _ Hu' He) as [(l & [= _ <-] & Hin)|?]; [|by right].
  by apply elem_of_nil in Hin.
Qed.

Lemma astar_push_inv u l D L st n w h :
  inv (Some (u, (n, w) :: l)) D L st ->
  D !! u = Some L -> (n, w) ∈ succ u -> h == 0 ->
  (forall qc h', a_enqueued st !! n = Some (qc, h') -> L + w < qc) ->
  inv (Some (u, l)) D L
    {| a_count := S (a_count st);
       a_queue := (L + w + h, a_count st, n, L + w, Some u) :: a_queue st;
       a_enqueued := <[n := (L + w, h)]> (a_enqueued st);
       a_explored := a_explored st |}.
Proof.
  intros I Hu Hnw Hh Hlt.
  assert (Hw : 0 <= w) by eauto.
  inv_fields I.
  assert (Hfresh : forall Dn, D !! n = Some Dn -> n = source).
  { intros Dn HDn. destruct (decide (n = source)) as [|Hns]; [done|].
    destruct (Hdone _ _ HDn Hns) as (qc & h' & Hq & Heq).
    specialize (Hlt _ _ Hq). destruct (Hbound _ _ HDn). lra. }
  assert (Hold : forall e, e ∈ a_queue st -> qnode e = n -> L + w < qdist e).
  { intros e He Hen.
    destruct (Hqueue _ He) as (_ & _ & _ & (qc & h' & Hq & Hle) & _).
    rewrite Hen in Hq. specialize (Hlt _ _ Hq). lra. }
  constructor; simpl; try done.
  - (* queue *)
    intros e [->|He]%elem_of_cons.
    + unfold qkey, qdist, qnode, qparent; simpl.
      split; [lra|]. split; [lra|]. split.
      { exists u, L, w. split; [done|]. split; [done|]. split; [done|lra]. }
      split.
      { exists (L + w), h. rewrite lookup_insert_eq. split; [done|lra]. }
      split; [|lia].
      intros Dv HDv Hns. by apply Hfresh in HDv.
    + destruct (Hqueue _ He) as (H1 & H2 & H3 & (qc & h' & Hq & Hle) & H5 & H6).
      split; [done|]. split; [done|]. split; [done|].
      split; [|split; [done|unfold qkey in *; simpl in *; lia]].
      destruct (decide (qnode e = n)) as [Hen|Hen].
      * exists (L + w), h. rewrite Hen, lookup_insert_eq. split; [done|].
        specialize (Hold _ He Hen). lra.
      * exists qc, h'. by rewrite lookup_insert_ne.
  - (* counters *)
    apply NoDup_cons. split; [|done].
    intros (e & Hc & He)%list_elem_of_fmap.
    destruct (Hqueue _ He) as (_ & _ & _ & _ & _ & H6).
    unfold qkey in Hc, H6; simpl in *. lia.
  - (* distinct *)
    intros e e' [->|He]%elem_of_cons [->|He']%elem_of_cons; try done.
    + unfold qnode at 1, qdist at 1; simpl. intros Hn Heq.
      specialize (Hold _ He' (eq_sym Hn)). lra.
    + unfold qnode at 2, qdist at 2; simpl. intros Hn Heq.
      specialize (Hold _ He Hn). lra.
    + by apply Hdist.
  - (* done *)
    intros v Dv HDv Hns.
    destruct (Hdone _ _ HDv Hns) as (qc & h' & Hq & Heq).
    exists qc, h'. split; [|done]. rewrite lookup_insert_ne; [done|].
    intros ->. by apply Hfresh in HDv.
  - (* enqueued *)
    intros v qc h'. destruct (decide (n = v)) as [<-|Hne].
    + rewrite lookup_insert_eq. intros [= <- <-]. split; [done|].
      intros _. eexists. split; [left|]. split; [done|].
      unfold qdist; simpl. lra.
    + rewrite lookup_insert_ne by done. intros Hq.
      destruct (Henq _ _ _ Hq) as [? Hwit]. split; [done|].
      intros HD. destruct (Hwit HD) as (e & ? & ? & ?).
      exists e. split; [by right|done].
  - (* edges *)
    intros u' Du v' w' Hu' He.
    destruct (Hedges _ _ _ _ Hu' He) as [(l' & [= -> <-] & Hin)|(qc & h' & Hq & Hle)].
    + rewrite Hu in Hu'. injection Hu' as <-.
      apply elem_of_cons in Hin as [[= -> ->]|Hin].
      * right. exists (L + w), h. rewrite lookup_insert_eq. split; [done|lra].
      * left. eauto.
    + right. destruct (decide (n = v')) as [<-|Hne].
      * exists (L + w), h. rewrite lookup_insert_eq. split; [done|].
        specialize (Hlt _ _ Hq). lra.
      * exists qc, h'. by rewrite lookup_insert_ne.
Qed.

Lemma astar_relax_inv u l D L st n w :
  inv (Some (u, (n, w) :: l)) D L st ->
  D !! u = Some L -> (n, w) ∈ succ u ->
  inv (Some (u, l)) D L (astar_relax target u L st (n, w)).
Proof.
  intros I Hu Hnw. unfold astar_relax, heappush.
  destruct (a_enqueued st !! n) as [[qc h]|] eqn:Hn.
  - destruct (Qle_bool qc (L + w)) eqn:Hle.
    + apply Qle_bool_iff in Hle. inv_fields I. constructor; try done.
      intros u' Du v' w' Hu' He.
      destruct (Hedges _ _ _ _ Hu' He) as [(l' & [= -> <-] & Hin)|?]; [|by right].
      rewrite Hu in Hu'. injection Hu' as <-.
      apply elem_of_cons in Hin as [[= -> ->]|Hin]; [right|left; eauto].
      exists qc, h. done.
    + apply Qle_bool_false in Hle. apply astar_push_inv; try done.
      * by destruct (ai_enq _ _ _ _ _ _ _ I _ _ _ Hn).
      * intros qc' h'. rewrite Hn. by intros [= <- <-].
  - apply astar_push_inv; try done.
    intros qc h'. by rewrite Hn.
Qed.

Lemma astar_for_inv u D L l st :
  inv (Some (u, l)) D L st ->
  D !! u = Some L -> (forall nw, nw ∈ l -> nw ∈ succ u) ->
  inv None D L (fold_left (astar_relax target u L) l st) /\
  a_explored (fold_left (astar_relax target u L) l st) = a_explored st /\
  (length (a_queue (fold_left (astar_relax target u L) l st))
   <= length (a_queue st) + length l)%nat.
Proof.
  revert st. induction l as [|[n w] l IH]; intros st I Hu Hl; cbn [fold_left].
  - split; [by apply astar_inv_todo_nil with u|]. split; [done|lia].
  - assert (Hnw : (n, w) ∈ succ u) by (apply Hl; left).
    pose proof (astar_relax_inv _ _ _ _ _ _ _ I Hu Hnw) as I'.
    destruct (IH _ I' Hu) as (I'' & Hex & Hlen).
    { intros nw Hin. apply Hl. by right. }
    split; [done|]. split.
    + rewrite Hex. unfold astar_relax.
      destruct (a_enqueued st !! n) as [[qc h]|]; [|done].
      by destruct (Qle_bool qc (L + w)).
    + etrans; [exact Hlen|]. unfold astar_relax. cbn [length].
      destruct (a_enqueued st !! n) as [[qc h]|]; [|simpl; lia].
      destruct (Qle_bool qc (L + w)); simpl; lia.
Qed.

(** The item popped is a least one; every other item for the same node
    costs strictly more. *)
Lemma astar_pop_facts D L st item queue' :
  inv None D L st ->
  heappop qkey (a_queue st) = Some (item, queue') ->
  item ∈ a_queue st /\
  (forall e, e ∈ queue' -> e ∈ a_queue st) /\
  (forall e, e ∈ a_queue st -> e = item \/ e ∈ queue') /\
  (forall e, e ∈ a_queue st -> qdist item <= qdist e) /\
  (forall e, e ∈ queue' -> qnode e = qnode item -> qdist item < qdist e) /\
  NoDup ((fun e => (qkey e).2) <$> queue') /\
  length (a_queue st) = S (length queue').
Proof.
  intros I Hpop. apply heappop_Some in Hpop as [Hperm Hmin].
  inv_fields I.
  assert (Hitem : item ∈ a_queue st) by (rewrite Hperm; left).
  assert (Hsub : forall e, e ∈ queue' -> e ∈ a_queue st).
  { intros e He. rewrite Hperm. by right. }
  assert (Hle : forall e, e ∈ a_queue st -> qdist item <= qdist e).
  { intros e He. rewrite Hperm in He.
    destruct (Hqueue _ Hitem) as (Hk & _).
    apply elem_of_cons in He as [->|He]; [lra|].
    destruct (Hqueue _ (Hsub _ He)) as (Hk' & _).
    specialize (Hmin _ He). lra. }
  rewrite Hperm in Hcount. simpl in Hcount. apply NoDup_cons in Hcount as [Hc Hnd].
  split; [done|]. split; [done|]. split.
  { intros e He. rewrite Hperm in He. by apply elem_of_cons in He. }
  split; [done|]. split; [|split; [done|by rewrite Hperm]].
  intros e He Hn.
  destruct (Qlt_le_dec (qdist item) (qdist e)) as [|Hge]; [done|].
  exfalso. apply Hc. apply list_elem_of_fmap. exists e. split; [|done].
  symmetry. apply Hdist; auto. specialize (Hle _ (Hsub _ He)). lra.
Qed.

Lemma astar_skip_inv D L st item queue' x :
  inv None D L st ->
  heappop qkey (a_queue st) = Some (item, queue') ->
  a_explored st !! qnode item = Some x ->
  inv None D L
    {| a_count := a_count st; a_queue := queue';
       a_enqueued := a_enqueued st; a_explored := a_explored st |}.
Proof.
  intros I Hpop Hx.
  destruct (astar_pop_facts _ _ _ _ _ I Hpop) as (Hitem & Hsub & Hcases & _ & _ & Hnd & _).
  inv_fields I. constructor; simpl; try done.
  - intros e He. by apply Hqueue, Hsub.
  - intros e e' He He'. apply Hdist; by apply Hsub.
  - intros v qc h Hq. destruct (Henq _ _ _ Hq) as [? Hwit]. split; [done|].
    intros HD. destruct (Hwit HD) as (e & He & Hev & Hed).
    exists e. split; [|done].
    destruct (Hcases _ He) as [->|]; [|done].
    apply Hdom in HD. congruence.
Qed.

Lemma astar_skip_test D L st item queue' p :
  inv None D L st ->
  heappop qkey (a_queue st) = Some (item, queue') ->
  a_explored st !! qnode item = Some (Some p) ->
  exists qcost h, a_enqueued st !! qnode item = Some (qcost, h) /\
                  Qltb qcost (qdist item) = true.
Proof.
  intros I Hpop Hx.
  destruct (astar_pop_facts _ _ _ _ _ I Hpop) as (Hitem & _).
  inv_fields I.
  assert (Hns : qnode item <> source).
  { intros E. rewrite E in Hx. destruct Hsrc. congruence. }
  destruct (D !! qnode item) as [Dv|] eqn:HD.
  2:{ apply Hdom in HD. congruence. }
  destruct (Hdone _ _ HD Hns) as (qc & h & Hq & Heq).
  exists qc, h. split; [done|]. apply Qltb_lt.
  destruct (Hqueue _ Hitem) as (_ & _ & _ & _ & Hlt & _).
  specialize (Hlt _ HD Hns). lra.
Qed.

Lemma astar_explore_inv D L st item queue' :
  inv None D L st ->
  heappop qkey (a_queue st) = Some (item, queue') ->
  qnode item <> target ->
  a_explored st !! qnode item = None ->
  inv (Some (qnode item, succ (qnode item)))
    (<[qnode item := qdist item]> D) (qdist item)
    {| a_count := a_count st; a_queue := queue';
       a_enqueued := a_enqueued st;
       a_explored := <[qnode item := qparent item]> (a_explored st) |}.
Proof.
  intros I Hpop Hnt Hx.
  destruct (astar_pop_facts _ _ _ _ _ I Hpop)
    as (Hitem & Hsub & Hcases & Hle & Hstrict & Hnd & _).
  inv_fields I.
  set (v := qnode item) in *. set (d := qdist item) in *.
  assert (HDv : D !! v = None) by by apply Hdom.
  assert (Hvs : v <> source).
  { intros E. rewrite E in Hx. destruct Hsrc. congruence. }
  destruct (Hqueue _ Hitem)
    as (Hk & HL & (p & Dp & w & Hp & HDp & Hpw & Hd) & (qc & h & Hq & Hqc) & _ & _).
  fold v in Hpw, Hq. fold d in HL, Hd, Hqc, Hk.
  assert (Hpv : p <> v) by (intros ->; congruence).
  assert (HL0 : 0 <= L).
  { destruct Hsrc as [_ (d0 & Hd0 & _)]. destruct (Hbound _ _ Hd0). lra. }
  constructor; simpl.
  - intros x. destruct (decide (v = x)) as [<-|Hne].
    + rewrite !lookup_insert_eq, Hp. done.
    + rewrite !lookup_insert_ne by done. apply Hdom.
  - destruct Hsrc as [Hs (d0 & Hd0 & ?)].
    rewrite !lookup_insert_ne by done. eauto.
  - intros x. destruct (decide (v = x)) as [<-|Hne].
    + rewrite lookup_insert_eq, Hp. done.
    + rewrite lookup_insert_ne by done. apply Hroot.
  - by rewrite lookup_insert_ne.
  - intros x dx. destruct (decide (v = x)) as [<-|Hne].
    + rewrite lookup_insert_eq. intros [= <-]. lra.
    + rewrite lookup_insert_ne by done. intros Hdx.
      destruct (Hbound _ _ Hdx). lra.
  - intros e He.
    destruct (Hqueue _ (Hsub _ He))
      as (H1 & H2 & (p' & Dp' & w' & ? & HDp' & ? & ?) & H4 & H5 & H6).
    split; [done|]. split; [apply Hle; auto|]. split.
    { exists p', Dp', w'. split; [done|]. split; [|done].
      rewrite lookup_insert_ne; [done|]. intros <-. congruence. }
    split; [done|]. split; [|done].
    intros Dv'. destruct (decide (v = qnode e)) as [Heq|Hne].
    + rewrite <- Heq, lookup_insert_eq. intros [= <-] _. by apply Hstrict.
    + rewrite lookup_insert_ne by done. apply H5.
  - done.
  - intros e e' He He'. apply Hdist; by apply Hsub.
  - intros x Dx. destruct (decide (v = x)) as [<-|Hne].
    + rewrite lookup_insert_eq. intros [= <-] _. exists qc, h. split; [done|].
      destruct (Henq _ _ _ Hq) as [_ Hwit].
      destruct (Hwit HDv) as (e & He & Hev & Hed).
      specialize (Hle _ He). lra.
    + rewrite lookup_insert_ne by done. apply Hdone.
  - intros x qc' h' Hq'. destruct (Henq _ _ _ Hq') as [? Hwit]. split; [done|].
    destruct (decide (v = x)) as [<-|Hne].
    + by rewrite lookup_insert_eq.
    + rewrite lookup_insert_ne by done. intros HD.
      destruct (Hwit HD) as (e & He & Hev & Hed).
      exists e. split; [|done].
      destruct (Hcases _ He) as [->|]; [|done]. done.
  - intros u Du x wx. destruct (decide (v = u)) as [<-|Hne].
    + intros _ Hin. left. eauto.
    + rewrite lookup_insert_ne by done. intros Hu Hin.
      destruct (Hedges _ _ _ _ Hu Hin) as [(l & ? & _)|?]; [done|by right].
  - assert (Hsize : size (<[v := qparent item]> (a_explored st))
                    = S (size (a_explored st))) by by apply map_size_insert_None.
    intros x Dx. destruct (decide (v = x)) as [<-|Hne].
    + rewrite lookup_insert_eq. intros [= <-].
      destruct (Hchain _ _ HDp) as (es & Hch & Hwalk & Hlen & Hsz).
      exists (es ++ [(p, v, w)]). split; [|split; [|split]].
      * rewrite walk_nodes_snoc, reverse_snoc. simpl.
        apply chain_cons with (Some p).
        -- by rewrite lookup_insert_eq, Hp.
        -- by apply chain_insert.
      * by apply (is_walk_snoc _ _ _ p (p, v, w)).
      * rewrite walk_length_app. simpl. lra.
      * rewrite length_app, Hsize. simpl. lia.
    + rewrite lookup_insert_ne by done. intros HDx.
      destruct (Hchain _ _ HDx) as (es & Hch & Hwalk & Hlen & Hsz).
      exists es. split; [by apply chain_insert|]. split; [done|].
      split; [done|]. rewrite Hsize. lia.
Qed.

(** Along a walk that starts at an explored node, either every node is
    explored at no more than the cost of the walk so far, or some item on
    the queue costs no more. *)
Lemma astar_walk_inv D L st es u v Du c :
  inv None D L st ->
  is_walk (succ_edge succ) u es v ->
  D !! u = Some Du -> Du <= c ->
  (exists Dv, D !! v = Some Dv /\ Dv <= c + walk_length es) \/
  (exists e, e ∈ a_queue st /\ qdist e <= c + walk_length es).
Proof.
  intros I. revert u Du c.
  induction es as [|[[a x] w] es IH]; simpl; intros u Du c.
  - intros <- Hu Hc. left. exists Du. split; [done|lra].
  - intros (-> & He & Hwalk) Hu Hc. unfold succ_edge in He; simpl in He.
    assert (Hw : 0 <= w) by eauto.
    assert (Hrest : 0 <= walk_length es).
    { eapply walk_length_nonneg; [|exact Hwalk].
      intros e. unfold succ_edge. eauto. }
    pose proof I as I0. inv_fields I0.
    destruct (Hbound _ _ Hu) as [HDu0 _].
    destruct (Hedges _ _ _ _ Hu He) as [(l & ? & _)|(qc & h & Hq & Hqc)]; [done|].
    destruct (D !! x) as [Dx|] eqn:HDx.
    + assert (Hx : Dx <= c + w).
      { destruct (decide (x = source)) as [->|Hns].
        - destruct Hsrc as [_ (d0 & Hd0 & Hz)]. rewrite Hd0 in HDx.
          injection HDx as <-. lra.
        - destruct (Hdone _ _ HDx Hns) as (qc' & h' & Hq' & Heq).
          rewrite Hq in Hq'. injection Hq' as <- <-. lra. }
      destruct (IH _ _ _ Hwalk HDx Hx) as [(Dv & ? & ?)|(e & ? & ?)].
      * left. exists Dv. split; [done|lra].
      * right. exists e. split; [done|lra].
    + right. destruct (Henq _ _ _ Hq) as [_ Hwit].
      destruct (Hwit HDx) as (e & He' & _ & Hed).
      exists e. split; [done|lra].
Qed.

Lemma astar_queue_empty D L st :
  inv None D L st -> a_queue st = [] ->
  forall es, ~ is_walk (succ_edge succ) source es target.
Proof.
  intros I Hq es Hwalk. pose proof I as I0. inv_fields I0.
  destruct Hsrc as [_ (d0 & Hd0 & Hz)].
  destruct (astar_walk_inv _ _ _ _ _ _ _ d0 I Hwalk Hd0 (Qle_refl _))
    as [(Dv & HDv & _)|(e & He & _)].
  - apply Hdom in Htgt. congruence.
  - rewrite Hq in He. by apply elem_of_nil in He.
Qed.

Lemma astar_target_found D L st item queue' :
  inv None D L st ->
  heappop qkey (a_queue st) = Some (item, queue') ->
  qnode item = target ->
  match astar_backtrack (S (size (a_explored st))) (a_explored st)
          (qparent item) [qnode item] with
  | Ok path => astar_post (succ_edge succ) source target (Ok (reverse path))
  | _ => False
  end.
Proof.
  intros I Hpop Ht.
  destruct (astar_pop_facts _ _ _ _ _ I Hpop) as (Hitem & _ & _ & Hle & _).
  pose proof I as I0. inv_fields I0.
  destruct (Hqueue _ Hitem)
    as (_ & _ & (p & Dp & w & Hp & HDp & Hpw & Hd) & _).
  destruct (Hchain _ _ HDp) as (es & Hch & Hwalk & Hlen & Hsz).
  rewrite Hp.
  rewrite (astar_backtrack_chain _ _ _ _ _ Hch).
  2:{ rewrite length_reverse. unfold walk_nodes. simpl. rewrite length_fmap.
      unfold edge in *. lia. }
  simpl. exists (es ++ [(p, qnode item, w)]). split.
  { rewrite walk_nodes_snoc. rewrite reverse_cons, reverse_involutive. done. }
  split.
  { rewrite <- Ht. by apply (is_walk_snoc _ _ _ p (p, qnode item, w)). }
  intros es' Hwalk'. rewrite walk_length_app. simpl.
  destruct Hsrc as [_ (d0 & Hd0 & Hz)].
  destruct (astar_walk_inv _ _ _ _ _ _ _ d0 I Hwalk' Hd0 (Qle_refl _))
    as [(Dv & HDv & _)|(e & He & Hcost)].
  - apply Hdom in Htgt. congruence.
  - specialize (Hle _ He). lra.
Qed.

Lemma astar_loop_inv fuel : forall D L st,
  inv None D L st ->
  (length (a_queue st) + pending succ V (a_explored st) < fuel)%nat ->
  astar_post (succ_edge succ) source target (astar_loop succ target fuel st).
Proof.
  induction fuel as [|fuel IH]; intros D L st I Hfuel; [lia|].
  cbn [astar_loop a_queue a_explored a_enqueued a_count].
  destruct (heappop qkey (a_queue st)) as [[item queue']|] eqn:Hpop.
  2:{ apply heappop_None in Hpop. simpl. by eapply astar_queue_empty. }
  destruct (astar_pop_facts _ _ _ _ _ I Hpop) as (_ & _ & _ & _ & _ & _ & Hlen).
  destruct (Z.eqb_spec (qnode item) target) as [Ht|Ht].
  { pose proof (astar_target_found _ _ _ _ _ I Hpop Ht) as H.
    by destruct (astar_backtrack _ _ _ _). }
  destruct (a_explored st !! qnode item) as [x|] eqn:Hx.
  - assert (Hnext : astar_post (succ_edge succ) source target
                      (astar_loop succ target fuel
                         {| a_count := a_count st; a_queue := queue';
                            a_enqueued := a_enqueued st;
                            a_explored := a_explored st |})).
    { apply (IH D L); [by eapply astar_skip_inv|]. simpl. lia. }
    destruct x as [p|]; [|done].
    by destruct (astar_skip_test _ _ _ _ _ _ I Hpop Hx) as (qc & h & -> & ->).
  - pose proof (astar_explore_inv _ _ _ _ _ I Hpop Ht Hx) as I'.
    eapply astar_for_inv in I' as (I'' & Hex & Hq);
      [|by rewrite lookup_insert_eq|done].
    apply (IH _ _ _ I''). rewrite Hex.
    match goal with
    | |- context [fold_left ?f ?l ?s] => set (st' := fold_left f l s) in *
    end.
    simpl in Hq |- *.
    destruct (decide (qnode item ∈ V)) as [Hin|Hnin].
    + pose proof (pending_insert succ V (a_explored st) (qnode item)
                    (qparent item) V_nodup Hin Hx). lia.
    + rewrite pending_insert_notin by done.
      rewrite (succ_V _ Hnin) in Hq. simpl in Hq. lia.
Qed.

Lemma astar_init_inv :
  source <> target ->
  inv (Some (source, succ source)) {[source := 0]} 0
    {| a_count := 1; a_queue := [];
       a_enqueued := ∅;
       a_explored := <[source := None]> ∅ |}.
Proof.
  intros Hne. constructor; simpl.
  - intros v. destruct (decide (source = v)) as [<-|Hv].
    + by rewrite lookup_singleton_eq, lookup_insert_eq.
    + by rewrite lookup_singleton_ne, lookup_insert_ne.
  - rewrite lookup_insert_eq, lookup_singleton_eq. split; [done|].
    exists 0. split; [done|lra].
  - intros v. destruct (decide (source = v)) as [<-|Hv]; [done|].
    by rewrite lookup_insert_ne.
  - by rewrite lookup_insert_ne.
  - intros v d [<- <-]%lookup_singleton_Some. lra.
  - intros e He. by apply elem_of_nil in He.
  - constructor.
  - intros e e' He. by apply elem_of_nil in He.
  - intros v Dv [<- <-]%lookup_singleton_Some. done.
  - intros v qc h. by rewrite lookup_empty.
  - intros u Du v w [<- <-]%lookup_singleton_Some Hin. left. eauto.
  - intros v Dv [<- <-]%lookup_singleton_Some. exists []. simpl.
    split; [|split; [done|split; [lra|]]].
    + apply chain_cons with None; [by rewrite lookup_insert_eq|constructor].
    + rewrite map_size_insert_None by done. rewrite map_size_empty. lia.
Qed.

Theorem astar_loop_correct fuel :
  (2 + pending succ V (∅ : gmap node (option node)) <= fuel)%nat ->
  astar_post (succ_edge succ) source target
    (astar_loop succ target fuel (astar_init source)).
Proof.
  intros Hfuel. destruct fuel as [|fuel]; [lia|].
  cbn -[heappop]. cbn.
  destruct (Z.eqb_spec source target) as [Heq|Hne].
  - simpl. exists []. split; [done|]. split; [done|].
    intros es' Hwalk. simpl. eapply walk_length_nonneg; [|exact Hwalk].
    intros e. unfold succ_edge. eauto.
  - rewrite lookup_empty.
    pose proof (astar_init_inv Hne) as I.
    eapply astar_for_inv in I as (I' & Hex & Hq);
      [|by rewrite lookup_singleton_eq|done].
    apply (astar_loop_inv _ _ _ _ I'). rewrite Hex.
    match goal with
    | |- context [fold_left ?f ?l ?s] => set (st' := fold_left f l s) in *
    end.
    simpl in Hq |- *.
    destruct (decide (source ∈ V)) as [Hin|Hnin].
    + pose proof (pending_insert succ V (∅ : gmap node (option node)) source
                    None V_nodup Hin (lookup_empty _)). lia.
    + rewrite pending_insert_notin by done.
      rewrite (succ_V _ Hnin) in Hq. simpl in Hq. lia.
Qed.
End astar_facts.

Section dijkstra_facts.
Variable succ : node -> list (node * Q).
Variable cutoff : Q.
Variable source : node.
Variable V : list node.
Hypothesis succ_nonneg : forall u v w, (v, w) ∈ succ u -> 0 <= w.
Hypothesis V_nodup : NoDup V.
Hypothesis succ_V : forall u, u ∉ V -> succ u = [].
Hypothesis cutoff_nonneg : 0 <= cutoff.

Local Abbreviation dinv := (dijkstra_inv succ cutoff source).

Ltac dinv_fields I := destruct I as [Hdist Hfringe Hseen Hedges Hsrc].

Lemma dijkstra_inv_todo_nil v L st :
  dinv (Some (v, [])) L st -> dinv None L st.
Proof.
  intros I. dinv_fields I. constructor; try done.
  intros u du x w Hu He Hc.
  destruct (Hedges _ _ _ _ Hu He Hc) as [(l & [= _ <-] & Hin)|?]; [|by right].
  by apply elem_of_nil in Hin.
Qed.

Lemma dijkstra_relax_inv v l L st u w :
  dinv (Some (v, (u, w) :: l)) L st ->
  d_dist st !! v = Some L -> (u, w) ∈ succ v ->
  exists st', dijkstra_relax cutoff L st (u, w) = Ok st' /\
              dinv (Some (v, l)) L st' /\
              d_dist st' = d_dist st /\
              (length (d_fringe st') <= S (length (d_fringe st)))%nat.
Proof.
  intros I Hv Huw. assert (Hw : 0 <= w) by eauto.
  pose proof I as I0. dinv_fields I0.
  (* the state is left as it is *)
  assert (Hkeep :
    (L + w <= cutoff ->
     (exists dv, d_dist st !! u = Some dv /\ dv <= L + w) \/
     (d_dist st !! u = None /\
      exists i, i ∈ d_fringe st /\ i.2 = u /\ i.1.1 <= L + w)) ->
    dinv (Some (v, l)) L st).
  { intros Hcase. constructor; try done.
    intros u' du x wx Hu' He Hc.
    destruct (Hedges _ _ _ _ Hu' He Hc) as [(l' & [= -> <-] & Hin)|?]; [|by right].
    rewrite Hv in Hu'. injection Hu' as <-.
    apply elem_of_cons in Hin as [[= -> ->]|Hin]; [|left; eauto].
    right. by apply Hcase. }
  (* a new item is pushed *)
  assert (Hpush :
    L + w <= cutoff -> d_dist st !! u = None ->
    dinv (Some (v, l)) L
      {| d_count := S (d_count st);
         d_fringe := (L + w, d_count st, u) :: d_fringe st;
         d_dist := d_dist st;
         d_seen := <[u := L + w]> (d_seen st) |}).
  { intros Hc Hu. constructor; simpl.
    - done.
    - intros i [->|Hi]%elem_of_cons; [|by apply Hfringe]. simpl.
      split; [lra|]. split; [done|].
      destruct (Hdist _ _ Hv) as (_ & _ & es & Hwalk & Hlen).
      exists (es ++ [(v, u, w)]). split.
      + by apply (is_walk_snoc _ _ _ v (v, u, w)).
      + rewrite walk_length_app. simpl. lra.
    - intros x sx. destruct (decide (u = x)) as [<-|Hne].
      + rewrite lookup_insert_eq. intros [= <-] _.
        eexists. split; [left|]. simpl. split; [done|lra].
      + rewrite lookup_insert_ne by done. intros Hs Hd.
        destruct (Hseen _ _ Hs Hd) as (i & ? & ? & ?).
        exists i. split; [by right|done].
    - intros u' du x wx Hu' He Hcx.
      destruct (Hedges _ _ _ _ Hu' He Hcx)
        as [(l' & [= -> <-] & Hin)|[?|(Hx & i & ? & ? & ?)]].
      + rewrite Hv in Hu'. injection Hu' as <-.
        apply elem_of_cons in Hin as [[= -> ->]|Hin]; [|left; eauto].
        right; right. split; [done|]. eexists. split; [left|]. simpl.
        split; [done|lra].
      + right; by left.
      + right; right. split; [done|]. exists i. split; [by right|done].
    - destruct Hsrc as [?|(i & ? & ? & ?)]; [by left|right].
      exists i. split; [by right|done]. }
  unfold dijkstra_relax, heappush.
  destruct (Qltb cutoff (L + w)) eqn:Hcut.
  { apply Qltb_lt in Hcut. exists st. split; [done|]. split; [|split; [done|lia]].
    apply Hkeep. intros ?. lra. }
  apply Qltb_ge in Hcut.
  destruct (d_dist st !! u) as [u_dist|] eqn:Hu.
  { destruct (Hdist _ _ Hu) as (HuL & _).
    destruct (Qltb (L + w) u_dist) eqn:Hlt.
    { apply Qltb_lt in Hlt. lra. }
    exists st. split; [done|]. split; [|split; [done|lia]].
    apply Hkeep. intros _. left. exists u_dist. split; [done|lra]. }
  destruct (d_seen st !! u) as [seen_u|] eqn:Hs.
  2:{ eexists. split; [done|]. split; [by apply Hpush|]. split; [done|simpl; lia]. }
  destruct (Qltb (L + w) seen_u) eqn:Hlt.
  { eexists. split; [done|]. split; [by apply Hpush|]. split; [done|simpl; lia]. }
  apply Qltb_ge in Hlt.
  exists st. split; [done|]. split; [|split; [done|lia]].
  apply Hkeep. intros _. right. split; [done|].
  destruct (Hseen _ _ Hs Hu) as (i & ? & ? & ?).
  exists i. split; [done|]. split; [done|lra].
Qed.

Lemma dijkstra_for_inv v L l : forall st,
  dinv (Some (v, l)) L st ->
  d_dist st !! v = Some L -> (forall uw, uw ∈ l -> uw ∈ succ v) ->
  exists st', dijkstra_for cutoff L l st = Ok st' /\
              dinv None L st' /\
              d_dist st' = d_dist st /\
              (length (d_fringe st') <= length (d_fringe st) + length l)%nat.
Proof.
  induction l as [|[u w] l IH]; intros st I Hv Hl; cbn [dijkstra_for].
  - exists st. split; [done|]. split; [by apply dijkstra_inv_todo_nil with v|].
    split; [done|lia].
  - assert (Huw : (u, w) ∈ succ v) by (apply Hl; left).
    destruct (dijkstra_relax_inv _ _ _ _ _ _ I Hv Huw) as (st1 & -> & I1 & Hd1 & Hlen1).
    destruct (IH st1 I1) as (st2 & -> & I2 & Hd2 & Hlen2).
    { by rewrite Hd1. }
    { intros uw Hin. apply Hl. by right. }
    exists st2. split; [done|]. split; [done|]. split; [congruence|].
    cbn [length]. lia.
Qed.

Lemma dijkstra_pop_facts L st item fringe' :
  dinv None L st ->
  heappop fkey (d_fringe st) = Some (item, fringe') ->
  item ∈ d_fringe st /\
  (forall i, i ∈ fringe' -> i ∈ d_fringe st) /\
  (forall i, i ∈ d_fringe st -> i = item \/ i ∈ fringe') /\
  (forall i, i ∈ d_fringe st -> item.1.1 <= i.1.1) /\
  length (d_fringe st) = S (length fringe').
Proof.
  intros I Hpop. apply heappop_Some in Hpop as [Hperm Hmin].
  split; [rewrite Hperm; left|]. split.
  { intros i Hi. rewrite Hperm. by right. }
  split.
  { intros i Hi. rewrite Hperm in Hi. by apply elem_of_cons in Hi. }
  split; [|by rewrite Hperm].
  intros i Hi. rewrite Hperm in Hi.
  apply elem_of_cons in Hi as [->|Hi]; [lra|]. by apply (Hmin i).
Qed.

Lemma dijkstra_skip_inv L st item fringe' d :
  dinv None L st ->
  heappop fkey (d_fringe st) = Some (item, fringe') ->
  d_dist st !! item.2 = Some d ->
  dinv None L
    {| d_count := d_count st; d_fringe := fringe';
       d_dist := d_dist st; d_seen := d_seen st |}.
Proof.
  intros I Hpop Hd.
  destruct (dijkstra_pop_facts _ _ _ _ I Hpop) as (Hitem & Hsub & Hcases & _).
  assert (Hother : forall i x, i ∈ d_fringe st -> i.2 = x ->
                               d_dist st !! x = None -> i ∈ fringe').
  { intros i x Hi Hix Hx. destruct (Hcases _ Hi) as [->|]; [|done]. congruence. }
  dinv_fields I. constructor; simpl; try done.
  - intros i Hi. by apply Hfringe, Hsub.
  - intros x sx Hs Hx. destruct (Hseen _ _ Hs Hx) as (i & ? & ? & ?).
    exists i. split; [by eapply Hother|done].
  - intros u du x w Hu He Hc.
    destruct (Hedges _ _ _ _ Hu He Hc) as [?|[?|(Hx & i & ? & ? & ?)]];
      [by left|right; by left|right; right].
    split; [done|]. exists i. split; [by eapply Hother|done].
  - destruct Hsrc as [?|(i & Hi & His & ?)]; [by left|].
    destruct (d_dist st !! source) as [ds|] eqn:Hds.
    + destruct (Hfringe _ Hi) as (? & _). destruct (Hdist _ _ Hds) as (? & _).
      left. exists ds. split; [done|lra].
    + right. exists i. split; [by eapply Hother|done].
Qed.

Lemma dijkstra_explore_inv L st item fringe' :
  dinv None L st ->
  heappop fkey (d_fringe st) = Some (item, fringe') ->
  d_dist st !! item.2 = None ->
  dinv (Some (item.2, succ item.2)) item.1.1
    {| d_count := d_count st; d_fringe := fringe';
       d_dist := <[item.2 := item.1.1]> (d_dist st);
       d_seen := d_seen st |}.
Proof.
  intros I Hpop Hv.
  destruct (dijkstra_pop_facts _ _ _ _ I Hpop) as (Hitem & Hsub & Hcases & Hle & _).
  assert (Hother : forall i x, i ∈ d_fringe st -> i.2 = x -> x <> item.2 ->
                               i ∈ fringe').
  { intros i x Hi Hix Hx. destruct (Hcases _ Hi) as [->|]; [|done]. congruence. }
  dinv_fields I.
  destruct (Hfringe _ Hitem) as (HL & Hcut & Hwalk).
  constructor; simpl.
  - intros x dx. destruct (decide (item.2 = x)) as [<-|Hne].
    + rewrite lookup_insert_eq. intros [= <-]. split; [lra|done].
    + rewrite lookup_insert_ne by done. intros Hx.
      destruct (Hdist _ _ Hx) as (? & ? & ?). split; [lra|done].
  - intros i Hi. destruct (Hfringe _ (Hsub _ Hi)) as (_ & ? & ?).
    split; [by apply Hle, Hsub|done].
  - intros x sx Hs. destruct (decide (item.2 = x)) as [<-|Hne].
    + by rewrite lookup_insert_eq.
    + rewrite lookup_insert_ne by done. intros Hx.
      destruct (Hseen _ _ Hs Hx) as (i & ? & ? & ?).
      exists i. split; [by eapply Hother|done].
  - intros u du x w. destruct (decide (item.2 = u)) as [<-|Hne].
    + intros _ Hin _. left. eauto.
    + rewrite lookup_insert_ne by done. intros Hu He Hc. right.
      destruct (Hedges _ _ _ _ Hu He Hc)
        as [(l & ? & _)|[(dv & Hx & ?)|(Hx & i & Hi & ? & ?)]]; [done| |].
      * left. exists dv. split; [|done].
        rewrite lookup_insert_ne; [done|]. intros <-. congruence.
      * destruct (decide (item.2 = x)) as [<-|Hnx].
        -- left. exists item.1.1. rewrite lookup_insert_eq. split; [done|].
           specialize (Hle _ Hi). lra.
        -- right. rewrite lookup_insert_ne by done. split; [done|].
           exists i. split; [by eapply Hother|done].
  - destruct Hsrc as [(d & Hd & ?)|(i & Hi & His & ?)].
    + left. exists d. split; [|done].
      rewrite lookup_insert_ne; [done|]. intros E. rewrite E in Hv. congruence.
    + destruct (decide (item.2 = source)) as [E|Hne].
      * left. exists item.1.1. rewrite E, lookup_insert_eq. split; [done|].
        specialize (Hle _ Hi). lra.
      * right. exists i. split; [|done]. eapply Hother; [done|done|].
        by intros ->.
Qed.

Lemma dijkstra_walk_inv L st es u v du c :
  dinv None L st -> d_fringe st = [] ->
  is_walk (succ_edge succ) u es v ->
  d_dist st !! u = Some du -> du <= c -> c + walk_length es <= cutoff ->
  exists dv, d_dist st !! v = Some dv /\ dv <= c + walk_length es.
Proof.
  intros I Hempty. revert u du c.
  induction es as [|[[a x] w] es IH]; simpl; intros u du c.
  - intros <- Hu Hc _. exists du. split; [done|lra].
  - intros (-> & He & Hwalk) Hu Hc Hcut. unfold succ_edge in He; simpl in He.
    assert (Hw : 0 <= w) by eauto.
    assert (Hrest : 0 <= walk_length es).
    { eapply walk_length_nonneg; [|exact Hwalk].
      intros e. unfold succ_edge. eauto. }
    pose proof I as I0. dinv_fields I0.
    destruct (Hedges _ _ _ _ Hu He)
      as [(l & ? & _)|[(dx & Hx & ?)|(_ & i & Hi & _)]]; [lra|done| |].
    + destruct (IH x dx (c + w) Hwalk Hx) as (dv & ? & ?); [lra|lra|].
      exists dv. split; [done|lra].
    + rewrite Hempty in Hi. by apply elem_of_nil in Hi.
Qed.

Lemma dijkstra_loop_inv fuel : forall L st,
  dinv None L st ->
  (length (d_fringe st) + pending succ V (d_dist st) < fuel)%nat ->
  dijkstra_post (succ_edge succ) source cutoff (dijkstra_loop succ cutoff fuel st).
Proof.
  induction fuel as [|fuel IH]; intros L st I Hfuel; [lia|].
  cbn [dijkstra_loop].
  destruct (heappop fkey (d_fringe st)) as [[[[d c] v] fringe']|] eqn:Hpop.
  2:{ apply heappop_None in Hpop. simpl. intros x. split.
      - intros [dx Hx]. destruct (di_dist _ _ _ _ _ _ I _ _ Hx) as (_ & ? & es & ? & ?).
        exists es. split; [done|lra].
      - intros (es & Hwalk & Hlen).
        destruct (di_src _ _ _ _ _ _ I) as [(ds & Hds & ?)|(i & Hi & _)].
        + destruct (dijkstra_walk_inv _ _ _ _ _ _ 0 I Hpop Hwalk Hds) as (dv & ? & _);
            [lra|lra|eauto].
        + rewrite Hpop in Hi. by apply elem_of_nil in Hi. }
  destruct (dijkstra_pop_facts _ _ _ _ I Hpop) as (_ & _ & _ & _ & Hlen).
  destruct (d_dist st !! v) as [dv|] eqn:Hv.
  - apply (IH L); [by eapply (dijkstra_skip_inv _ _ (d, c, v))|]. simpl. lia.
  - pose proof (dijkstra_explore_inv _ _ _ _ I Hpop Hv) as I'. simpl in I'.
    apply dijkstra_for_inv in I' as (st' & -> & I'' & Hd & Hq);
      [|simpl; by rewrite lookup_insert_eq|done].
    apply (IH _ _ I''). rewrite Hd. simpl in Hq |- *.
    destruct (decide (v ∈ V)) as [Hin|Hnin].
    + pose proof (pending_insert succ V (d_dist st) v d V_nodup Hin Hv). lia.
    + rewrite pending_insert_notin by done.
      rewrite (succ_V _ Hnin) in Hq. simpl in Hq. lia.
Qed.

Lemma dijkstra_init_inv : dinv None 0 (dijkstra_init source).
Proof.
  constructor; simpl.
  - intros v d. by rewrite lookup_empty.
  - intros i ->%list_elem_of_singleton. simpl. split; [lra|]. split; [done|].
    exists []. simpl. split; [done|lra].
  - intros v sv [<- <-]%lookup_singleton_Some _.
    eexists. split; [left|]. simpl. split; [done|lra].
  - intros u du v w. by rewrite lookup_empty.
  - right. eexists. split; [left|]. simpl. split; [done|lra].
Qed.

Theorem dijkstra_loop_correct fuel :
  (2 + pending succ V (∅ : gmap node Q) <= fuel)%nat ->
  dijkstra_post (succ_edge succ) source cutoff
    (dijkstra_loop succ cutoff fuel (dijkstra_init source)).
Proof.
  intros Hfuel. apply (dijkstra_loop_inv _ 0); [apply dijkstra_init_inv|].
  simpl. lia.
Qed.
End dijkstra_facts.

(** ** Graphs *)

Lemma wf_graph_nonneg G u v w : wf_graph G -> (v, w) ∈ G_succ G u -> 0 <= w.
Proof.
  intros [_ Hall] H%G_succ_sound.
  rewrite Forall_forall in Hall. by destruct (Hall _ H) as (_ & _ & ?).
Qed.

Lemma wf_graph_succ_nil G u : wf_graph G -> u ∉ node_ids G -> G_succ G u = [].
Proof.
  intros [_ Hall] Hu. destruct (G_succ G u) as [|[v w] l] eqn:E; [done|].
  assert (H : (v, w) ∈ G_succ G u) by (rewrite E; left).
  apply G_succ_sound in H. rewrite Forall_forall in Hall.
  by destruct (Hall _ H) as (? & _).
Qed.

Lemma pending_empty {B} succ V :
  pending succ V (∅ : gmap node B) = sum_list ((fun v => length (succ v)) <$> V).
Proof.
  induction V as [|a V IH]; [done|].
  rewrite pending_cons, lookup_empty, IH. done.
Qed.

Lemma search_fuel_pending {B} G :
  (2 + pending (G_succ G) (node_ids G) (∅ : gmap node B) <= search_fuel G)%nat.
Proof. rewrite pending_empty. unfold search_fuel, out_degree. simpl. lia. Qed.

Lemma succ_walk_graph_walk G u es v :
  is_walk (succ_edge (G_succ G)) u es v -> is_walk (graph_edge G) u es v.
Proof.
  apply is_walk_impl. intros [[a b] w]. unfold succ_edge, graph_edge. simpl.
  apply G_succ_sound.
Qed.

Lemma graph_walk_succ_walk G u es v :
  is_walk (graph_edge G) u es v ->
  exists es', is_walk (succ_edge (G_succ G)) u es' v /\
              walk_length es' <= walk_length es.
Proof.
  revert u. induction es as [|[[a b] w] es IH]; simpl; intros u.
  - intros <-. exists []. simpl. split; [done|lra].
  - intros (-> & He & Hwalk). destruct (IH _ Hwalk) as (es' & Hwalk' & Hlen).
    apply G_succ_complete in He as (w' & Hin & Hle).
    exists ((u, b, w') :: es'). simpl. split; [|lra].
    split; [done|]. split; [|done]. done.
Qed.

Lemma has_node_true G n : has_node G n = true <-> n ∈ node_ids G.
Proof. unfold has_node. apply bool_decide_eq_true. Qed.

(** [astar_path] returns a shortest walk of the graph, or raises
    [NetworkXNoPath] when there is none. *)
Theorem astar_path_correct G source target :
  wf_graph G -> source ∈ node_ids G -> target ∈ node_ids G ->
  astar_post (graph_edge G) source target (astar_path G source target).
Proof.
  intros Hwf Hs Ht. unfold astar_path.
  apply has_node_true in Hs, Ht. rewrite Hs, Ht. cbn [negb orb].
  pose proof (astar_loop_correct (G_succ G) source target (node_ids G)
                (fun u v w => wf_graph_nonneg G u v w Hwf) (proj1 Hwf)
                (fun u => wf_graph_succ_nil G u Hwf)
                (search_fuel G) (search_fuel_pending G)) as H.
  destruct (astar_loop _ _ _ _) as [path|e|]; [|destruct e|]; simpl in H |- *;
    try done.
  - destruct H as (es & -> & Hwalk & Hmin). exists es. split; [done|]. split.
    + by apply succ_walk_graph_walk.
    + intros es' Hwalk'. apply graph_walk_succ_walk in Hwalk' as (es'' & ? & ?).
      specialize (Hmin _ H). lra.
  - intros es Hwalk. apply graph_walk_succ_walk in Hwalk as (es' & ? & _).
    by apply (H es').
Qed.

(** The cut-off Dijkstra search reaches exactly the nodes within the cut-off
    distance. *)
Theorem single_source_dijkstra_correct G source cutoff :
  wf_graph G -> source ∈ node_ids G -> 0 <= cutoff ->
  dijkstra_post (graph_edge G) source cutoff (single_source_dijkstra G source cutoff).
Proof.
  intros Hwf Hs Hc. unfold single_source_dijkstra.
  apply has_node_true in Hs. rewrite Hs.
  pose proof (dijkstra_loop_correct (G_succ G) cutoff source (node_ids G)
                (fun u v w => wf_graph_nonneg G u v w Hwf) (proj1 Hwf)
                (fun u => wf_graph_succ_nil G u Hwf) Hc
                (search_fuel G) (search_fuel_pending G)) as H.
  destruct (dijkstra_loop _ _ _ _) as [dist|e|]; [|done|done].
  intros v. rewrite (H v). split.
  - intros (es & ? & ?). exists es. split; [by apply succ_walk_graph_walk|done].
  - intros (es & Hwalk & ?). apply graph_walk_succ_walk in Hwalk as (es' & ? & ?).
    exists es'. split; [done|lra].
Qed.

Lemma graph_walk_nodes G u es v :
  wf_graph G -> u ∈ node_ids G -> is_walk (graph_edge G) u es v -> v ∈ node_ids G.
Proof.
  intros [_ Hall]. rewrite Forall_forall in Hall. revert u.
  induction es as [|e es IH]; simpl; intros u Hu.
  - by intros <-.
  - intros (_ & He & Hwalk). apply (IH e.1.2); [|done].
    by destruct (Hall _ He) as (_ & ? & _).
Qed.

Lemma node_ids_subgraph G keep v :
  v ∈ node_ids (subgraph G keep) <-> v ∈ node_ids G /\ v ∈ keep.
Proof.
  unfold node_ids, subgraph. simpl. rewrite !list_elem_of_fmap. split.
  - intros ([n a] & -> & [? ?]%list_elem_of_filter). simpl in *. split; [|done].
    by exists (n, a).
  - intros [([n a] & -> & Hin) Hk]. exists (n, a). split; [done|].
    by apply list_elem_of_filter.
Qed.

(** The nodes of the ego graph are the nodes within [radius] of the centre,
    measured along the edges. *)
Theorem ego_graph_nodes G n radius :
  wf_graph G -> n ∈ node_ids G -> 0 <= radius ->
  exists H, ego_graph G n radius = Ok H /\
    forall v, v ∈ node_ids H <->
      exists es, is_walk (graph_edge G) n es v /\ walk_length es <= radius.
Proof.
  intros Hwf Hn Hr. unfold ego_graph.
  pose proof (single_source_dijkstra_correct G n radius Hwf Hn Hr) as H.
  destruct (single_source_dijkstra G n radius) as [sp|e|]; [|done|done].
  eexists. split; [done|]. intros v.
  rewrite node_ids_subgraph, elem_of_dom, (H v). split; [by intros [_ ?]|].
  intros (es & Hwalk & Hlen). split; [|eauto].
  by eapply graph_walk_nodes.
Qed.

Lemma node_ids_remove G ns v :
  v ∈ node_ids (remove_nodes_from G ns) <-> v ∈ node_ids G /\ v ∉ ns.
Proof.
  unfold node_ids, remove_nodes_from. simpl. rewrite !list_elem_of_fmap. split.
  - intros ([n a] & -> & [? ?]%list_elem_of_filter). simpl in *. split; [|done].
    by exists (n, a).
  - intros [([n a] & -> & Hin) Hk]. exists (n, a). split; [done|].
    by apply list_elem_of_filter.
Qed.

Lemma edges_remove G ns e :
  e ∈ edges (remove_nodes_from G ns) <->
  e ∈ edges G /\ (e.1.1 ∉ ns) /\ (e.1.2 ∉ ns).
Proof. unfold remove_nodes_from. simpl. rewrite list_elem_of_filter. tauto. Qed.


Lemma wf_graph_remove G ns : wf_graph G -> wf_graph (remove_nodes_from G ns).
Proof.
  intros [Hnd Hall]. split.
  - unfold node_ids, remove_nodes_from. simpl.
    eapply sublist_NoDup; [exact Hnd|]. apply fmap_sublist, sublist_filter.
  - rewrite Forall_forall in Hall |- *. intros e (He & H1 & H2)%edges_remove.
    destruct (Hall _ He) as (? & ? & ?).
    split; [|split; [|done]]; by apply node_ids_remove.
Qed.

(** ** The nodes of a path found by [astar_path] *)

Section astar_nodes.
Variable succ : node -> list (node * Q).
Variables source target : node.
Variable S : node -> Prop.
Hypothesis succ_closed : forall u v w, (v, w) ∈ succ u -> S v.

Lemma astar_backtrack_nodes explored fuel : forall nd path path',
  (forall v p, explored !! v = Some (Some p) -> S p) ->
  (forall n, nd = Some n -> S n) -> Forall S path ->
  astar_backtrack fuel explored nd path = Ok path' -> Forall S path'.
Proof.
  induction fuel as [|fuel IH]; intros nd path path' Hex Hnd Hpath;
    destruct nd as [n|]; simpl; try congruence.
  destruct (explored !! n) as [parent|] eqn:Hn; [|done].
  apply IH; [done| |].
  - intros p ->. eauto.
  - apply Forall_app. split; [done|]. constructor; [eauto|constructor].
Qed.

Lemma astar_relax_nodes u dist st nw :
  S u -> nw ∈ succ u -> astar_nodes_inv S st ->
  astar_nodes_inv S (astar_relax target u dist st nw).
Proof.
  intros Hu Hnw [Hq Hex]. destruct nw as [n w]. unfold astar_relax, heappush.
  assert (Hpush : forall h,
    astar_nodes_inv S
      {| a_count := Datatypes.S (a_count st);
         a_queue := (dist + w + h, a_count st, n, dist + w, Some u) :: a_queue st;
         a_enqueued := <[n := (dist + w, h)]> (a_enqueued st);
         a_explored := a_explored st |}).
  { intros h. split; [|done]. simpl. intros i [->|Hi]%elem_of_cons; [|eauto].
    unfold qnode, qparent. simpl. split; [eauto|]. by intros p [= <-]. }
  destruct (a_enqueued st !! n) as [[qc h]|]; [|apply Hpush].
  destruct (Qle_bool qc (dist + w)); [done|apply Hpush].
Qed.

Lemma astar_for_nodes u dist l : forall st,
  S u -> (forall nw, nw ∈ l -> nw ∈ succ u) -> astar_nodes_inv S st ->
  astar_nodes_inv S (fold_left (astar_relax target u dist) l st).
Proof.
  induction l as [|nw l IH]; intros st Hu Hl I; cbn [fold_left]; [done|].
  apply IH; [done| |].
  - intros x Hx. apply Hl. by right.
  - apply astar_relax_nodes; [done| |done]. apply Hl. left.
Qed.

Lemma astar_loop_nodes fuel : forall st path,
  astar_nodes_inv S st ->
  astar_loop succ target fuel st = Ok path -> Forall S path.
Proof.
  induction fuel as [|fuel IH]; intros st path I; [done|].
  cbn [astar_loop a_queue a_explored a_enqueued a_count].
  destruct (heappop qkey (a_queue st)) as [[item queue']|] eqn:Hpop; [|done].
  apply heappop_Some in Hpop as [Hperm _]. destruct I as [Hq Hex].
  assert (Hitem : S (qnode item) /\ forall p, qparent item = Some p -> S p).
  { apply Hq. rewrite Hperm. left. }
  assert (Hq' : forall i, i ∈ queue' ->
                 S (qnode i) /\ forall p, qparent i = Some p -> S p).
  { intros i Hi. apply Hq. rewrite Hperm. by right. }
  destruct (Z.eqb (qnode item) target).
  { destruct (astar_backtrack _ _ _ _) as [p| |] eqn:Hb; [|done|done].
    intros [= <-]. apply Forall_reverse.
    eapply astar_backtrack_nodes; [exact Hex| | |exact Hb].
    - intros n Hn. by apply Hitem.
    - constructor; [by destruct Hitem|constructor]. }
  assert (Hnext : astar_loop succ target fuel
                    {| a_count := a_count st; a_queue := queue';
                       a_enqueued := a_enqueued st;
                       a_explored := a_explored st |} = Ok path ->
                  Forall S path).
  { apply IH. by split. }
  assert (Hexplore : astar_loop succ target fuel
            (fold_left (astar_relax target (qnode item) (qdist item))
               (succ (qnode item))
               {| a_count := a_count st; a_queue := queue';
                  a_enqueued := a_enqueued st;
                  a_explored := <[qnode item := qparent item]> (a_explored st) |})
            = Ok path -> Forall S path).
  { apply IH. apply astar_for_nodes; [by destruct Hitem|done|]. split; [done|].
    simpl. intros v p. destruct (decide (qnode item = v)) as [<-|Hne].
    + rewrite lookup_insert_eq. intros [= E]. by apply Hitem.
    + rewrite lookup_insert_ne by done. apply Hex. }
  destruct (a_explored st !! qnode item) as [[p|]|]; [|done..].
  destruct (a_enqueued st !! qnode item) as [[qc h]|]; [|done].
  by destruct (Qltb qc (qdist item)).
Qed.

Lemma astar_init_nodes : S source -> astar_nodes_inv S (astar_init source).
Proof.
  intros Hs. split; simpl.
  - intros i ->%list_elem_of_singleton. unfold qnode, qparent. simpl. done.
  - intros v p. by rewrite lookup_empty.
Qed.
End astar_nodes.

(** Every node of a path returned by [astar_path] satisfies a property that
    holds of the source and of the head of every edge. *)
Lemma astar_path_nodes (S : node -> Prop) G source target path :
  S source -> (forall e, e ∈ edges G -> S e.1.2) ->
  astar_path G source target = Ok path -> Forall S path.
Proof.
  intros Hs Hedges. unfold astar_path.
  destruct (negb _ || negb _); [done|].
  apply astar_loop_nodes.
  - intros u v w H%G_succ_sound. apply (Hedges _ H).
  - by apply astar_init_nodes.
Qed.

(** ** Nearest node *)

Lemma argmin_fold {A} (d : A -> Q) l : forall a,
  let m := fold_left (fun best cand => if Qltb (d cand) (d best) then cand else best) l a in
  m ∈ a :: l /\ forall c, c ∈ a :: l -> d m <= d c.
Proof.
  induction l as [|x l IH]; intros a; simpl.
  - split; [left|]. intros c ->%list_elem_of_singleton. lra.
  - destruct (Qltb (d x) (d a)) eqn:E.
    + apply Qltb_lt in E. destruct (IH x) as [Hin Hmin]. split.
      * right. exact Hin.
      * intros c [->|Hc]%elem_of_cons; [|by apply Hmin].
        specialize (Hmin x (list_elem_of_here _ _)). lra.
    + apply Qltb_ge in E. destruct (IH a) as [Hin Hmin]. split.
      * apply elem_of_cons in Hin as [->|Hin]; [left|right; by right].
      * intros c [->|[->|Hc]%elem_of_cons]%elem_of_cons.
        -- apply Hmin. left.
        -- specialize (Hmin a (list_elem_of_here _ _)). lra.
        -- apply Hmin. by right.
Qed.

Lemma nearest_nodes_Ok h G X Y n :
  nearest_nodes h G X Y = Ok n ->
  exists x y, (n, (x, y)) ∈ nodes G /\
    forall n' x' y', (n', (x', y')) ∈ nodes G -> h (Y, X) (y, x) <= h (Y, X) (y', x').
Proof.
  unfold nearest_nodes. destruct (nodes G) as [|na l]; [done|].
  intros [= <-].
  destruct (argmin_fold (fun na : node * (Q * Q) => h (Y, X) (na.2.2, na.2.1)) l na)
    as [Hin Hmin].
  set (m := fold_left _ l na) in *. destruct m as [n [x y]]. simpl in *.
  exists x, y. split; [done|]. intros n' x' y' H'. apply (Hmin _ H').
Qed.

Lemma nearest_nodes_node h G X Y n :
  nearest_nodes h G X Y = Ok n -> n ∈ node_ids G.
Proof.
  intros (x & y & Hin & _)%nearest_nodes_Ok.
  apply list_elem_of_fmap. by exists (n, (x, y)).
Qed.

Lemma nearest_nodes_total h G X Y :
  nodes G <> [] -> exists n, nearest_nodes h G X Y = Ok n.
Proof. unfold nearest_nodes. destruct (nodes G); [done|]. eauto. Qed.

Lemma node_attr_Some G n : n ∈ node_ids G -> is_Some (node_attr G n).
Proof.
  unfold node_attr, node_ids. induction (nodes G) as [|[k a] l IH]; simpl.
  - intros H. by apply elem_of_nil in H.
  - intros [->|H]%elem_of_cons.
    + rewrite Z.eqb_refl. eauto.
    + destruct (Z.eqb k n); eauto.
Qed.

(** ** Computations over the server state *)

Lemma bind_inv {A B} (m : M A) (k : A -> M B) s r s' :
  bind m k s = (r, s') ->
  (exists a s1, m s = (Ok a, s1) /\ k a s1 = (r, s')) \/
  (exists e, m s = (Raise e, s') /\ r = Raise e) \/
  (m s = (Diverge, s') /\ r = Diverge).
Proof.
  unfold bind. destruct (m s) as [[a|e|] s1].
  - intros H. left. eauto.
  - intros [= <- <-]. right; left. eauto.
  - intros [= <- <-]. right; right. eauto.
Qed.

Lemma bind_Ok_inv {A B} (m : M A) (k : A -> M B) s b s' :
  bind m k s = (Ok b, s') ->
  exists a s1, m s = (Ok a, s1) /\ k a s1 = (Ok b, s').
Proof.
  intros [H|[(e & _ & [=])|(_ & [=])]]%bind_inv. exact H.
Qed.

Lemma bind_Ok {A B} (m : M A) (k : A -> M B) s a s1 :
  m s = (Ok a, s1) -> bind m k s = k a s1.
Proof. unfold bind. by intros ->. Qed.

Lemma stateless_eq {A} (m : M A) s r s' : stateless m -> m s = (r, s') -> s' = s.
Proof. intros H E. specialize (H s). rewrite E in H. done. Qed.

Lemma stateless_ret {A} (a : A) : stateless (ret a).
Proof. done. Qed.

Lemma stateless_raise {A} e : stateless (@raise A e).
Proof. done. Qed.

Lemma stateless_lift {A} (r : result A) : stateless (lift r).
Proof. done. Qed.

Lemma stateless_deref r : stateless (deref r).
Proof. intros s. unfold deref. by destruct (heap s !! r). Qed.

Lemma stateless_bind {A B} (m : M A) (k : A -> M B) :
  stateless m -> (forall a, stateless (k a)) -> stateless (bind m k).
Proof.
  intros Hm Hk s. unfold bind. specialize (Hm s).
  destruct (m s) as [[a|e|] s1]; simpl in *; subst; [apply Hk|done|done].
Qed.

Lemma stateless_ox_nearest_nodes W G X Y : stateless (ox_nearest_nodes W G X Y).
Proof.
  apply stateless_bind; [apply stateless_deref|]. intros g. apply stateless_lift.
Qed.

Lemma stateless_nx_ego_graph G n r : stateless (nx_ego_graph G n r).
Proof.
  apply stateless_bind; [apply stateless_deref|]. intros g. apply stateless_lift.
Qed.

Lemma stateless_nx_astar_path G n t : stateless (nx_astar_path G n t).
Proof.
  apply stateless_bind; [apply stateless_deref|]. intros g. apply stateless_lift.
Qed.

Lemma stateless_avoid_loop W G b radius zones : forall acc,
  stateless (avoid_loop W G b radius zones acc).
Proof.
  induction zones as [|[lon lat] zones IH]; intros acc; simpl.
  - apply stateless_ret.
  - destruct (in_bbox b lon lat); [|apply IH].
    apply stateless_bind; [apply stateless_ox_nearest_nodes|]. intros c.
    apply stateless_bind; [apply stateless_nx_ego_graph|]. intros H. apply IH.
Qed.

Lemma stateless_coords_loop G path : forall acc, stateless (coords_loop G path acc).
Proof.
  induction path as [|n path IH]; intros acc; simpl.
  - apply stateless_ret.
  - apply stateless_bind; [apply stateless_deref|]. intros g.
    destruct (node_attr g n) as [[x y]|]; [apply IH|apply stateless_raise].
Qed.

(** Reading a graph through its reference. *)
Lemma deref_Some G g s : heap s !! G = Some g -> deref G s = (Ok g, s).
Proof. unfold deref. by intros ->. Qed.

Lemma ox_nearest_nodes_eq W G g X Y s :
  heap s !! G = Some g ->
  ox_nearest_nodes W G X Y s = (nearest_nodes (haversine W) g X Y, s).
Proof. intros H. unfold ox_nearest_nodes. by rewrite (bind_Ok _ _ _ _ _ (deref_Some _ _ _ H)). Qed.

Lemma nx_ego_graph_eq G g n r s :
  heap s !! G = Some g -> nx_ego_graph G n r s = (ego_graph g n r, s).
Proof. intros H. unfold nx_ego_graph. by rewrite (bind_Ok _ _ _ _ _ (deref_Some _ _ _ H)). Qed.

Lemma nx_astar_path_eq G g n t s :
  heap s !! G = Some g -> nx_astar_path G n t s = (astar_path g n t, s).
Proof. intros H. unfold nx_astar_path. by rewrite (bind_Ok _ _ _ _ _ (deref_Some _ _ _ H)). Qed.

Lemma deref_Ok_inv G g s s' : deref G s = (Ok g, s') -> heap s !! G = Some g /\ s' = s.
Proof. unfold deref. destruct (heap s !! G); [|done]. by intros [= <- <-]. Qed.

(** ** The frame of a request *)

Lemma frame_refl W s : frame W s s.
Proof. split; [done|]. intros k G H. by left. Qed.

Lemma frame_trans W s1 s2 s3 : frame W s1 s2 -> frame W s2 s3 -> frame W s1 s3.
Proof.
  intros [H1 C1] [H2 C2]. split; [by eauto|].
  intros k G H3. destruct (C2 _ _ H3) as [H|H]; [|by right].
  destruct (C1 _ _ H) as [?|(n & so & e & w & g & ? & ?)]; [by left|right].
  exists n, so, e, w, g. eauto.
Qed.

Lemma frame_same W s s' :
  heap s' = heap s -> graph_cache s' = graph_cache s -> frame W s s'.
Proof. intros Hh Hc. unfold frame. rewrite Hh, Hc. apply frame_refl. Qed.

Lemma get_wildfires_state W year st s r s' :
  get_wildfires W year st s = (r, s') ->
  heap s' = heap s /\ graph_cache s' = graph_cache s.
Proof.
  unfold get_wildfires. destruct (wildfire_data_cache s !! _).
  - by intros [= <- <-].
  - destruct (get_wildfire_data _ _ _) as [[|f l]|]; by intros [= <- <-].
Qed.

Lemma cached_graph_inv W b s r s' :
  cached_graph W b s = (r, s') ->
  (exists G, graph_cache s !! graph_cache_key b = Some G /\ r = Ok G /\ s' = s) \/
  (graph_cache s !! graph_cache_key b = None /\
   ((s' = s /\ forall G, r <> Ok G) \/
    exists g, graph_from_bbox W b.1.1.1 b.1.1.2 b.1.2 b.2 = Ok g /\
      r = Ok (fresh (dom (heap s))) /\
      s' = {| heap := <[fresh (dom (heap s)) := g]> (heap s);
              graph_cache := <[graph_cache_key b := fresh (dom (heap s))]> (graph_cache s);
              wildfire_data_cache := wildfire_data_cache s |})).
Proof.
  destruct b as [[[north south] east] west]. unfold cached_graph.
  destruct (graph_cache s !! _) as [G|]; [intros [= <- <-]; left; eauto|].
  intros H. right. split; [done|]. simpl.
  unfold bind, lift, new_graph in H.
  destruct (graph_from_bbox W north south east west) as [g|e|];
    injection H as <- <-; [right; eauto|left..]; by split.
Qed.

Lemma cached_graph_frame W b s r s' : cached_graph W b s = (r, s') -> frame W s s'.
Proof.
  intros [(G & _ & _ & ->)|[_ [[-> _]|(g & Hg & _ & ->)]]]%cached_graph_inv;
    try apply frame_refl.
  split; simpl.
  - intros r0 g0 H0. rewrite lookup_insert_ne; [done|].
    intros <-. apply (is_fresh (dom (heap s))). apply elem_of_dom. eauto.
  - intros k G. destruct (decide (graph_cache_key b = k)) as [<-|Hne].
    + rewrite lookup_insert_eq. intros [= <-]. right.
      eexists _, _, _, _, g. split; [exact Hg|]. by rewrite lookup_insert_eq.
    + rewrite lookup_insert_ne by done. by left.
Qed.

(** Copying a graph and removing nodes from the copy. *)
Lemma safe_copy_frame W s G_safe g :
  G_safe ∉ dom (heap s) ->
  frame W s {| heap := <[G_safe := g]> (heap s);
               graph_cache := graph_cache s;
               wildfire_data_cache := wildfire_data_cache s |}.
Proof.
  intros Hfresh. split; simpl; [|by left].
  intros r g0 H0. rewrite lookup_insert_ne; [done|].
  intros <-. apply Hfresh, elem_of_dom. eauto.
Qed.

Lemma with_safe_lookup s g_safe :
  heap (with_safe s g_safe) !! fresh (dom (heap s)) = Some g_safe.
Proof. apply lookup_insert_eq. Qed.

Lemma with_safe_lookup_old s g_safe G g :
  heap s !! G = Some g -> heap (with_safe s g_safe) !! G = Some g.
Proof.
  intros H. unfold with_safe. simpl. rewrite lookup_insert_ne; [done|].
  intros <-. apply (is_fresh (dom (heap s))), elem_of_dom. eauto.
Qed.

Lemma graph_copy_inv G s r s' :
  graph_copy G s = (r, s') ->
  (heap s !! G = None /\ r = Raise KeyError /\ s' = s) \/
  (exists g, heap s !! G = Some g /\ r = Ok (fresh (dom (heap s))) /\
             s' = with_safe s g).
Proof.
  unfold graph_copy, new_graph, deref, bind.
  destruct (heap s !! G) as [g|] eqn:HG; intros [= <- <-]; [right|left]; eauto.
Qed.

Lemma graph_remove_safe s g ns :
  graph_remove_nodes_from (fresh (dom (heap s))) ns (with_safe s g)
  = (Ok tt, with_safe s (remove_nodes_from g ns)).
Proof.
  unfold graph_remove_nodes_from. rewrite with_safe_lookup.
  unfold with_safe. simpl. by rewrite insert_insert_eq.
Qed.

Lemma with_safe_frame W s g : frame W s (with_safe s g).
Proof. apply safe_copy_frame, is_fresh. Qed.

Lemma route_setup_Ok W request s G avoid G_safe start_node end_node s' :
  route_setup W request s = (Ok (G, avoid, G_safe, start_node, end_node), s') ->
  exists hotspots s1 s2 g,
    get_wildfires W 2015 "CA" s = (Ok hotspots, s1) /\
    cached_graph W (request_bbox request) s1 = (Ok G, s2) /\
    heap s2 !! G = Some g /\
    avoid_loop W G (request_bbox request) danger_radius_meters
      ((fun f => (longitude f, latitude f)) <$> hotspots) ∅ s2 = (Ok avoid, s2) /\
    G_safe = fresh (dom (heap s2)) /\
    s' = with_safe s2 (remove_nodes_from g (elements avoid)) /\
    nearest_nodes (haversine W) (remove_nodes_from g (elements avoid))
      (start_lon request) (start_lat request) = Ok start_node /\
    nearest_nodes (haversine W) (remove_nodes_from g (elements avoid))
      (end_lon request) (end_lat request) = Ok end_node.
Proof.
  unfold route_setup. simpl.
  intros (hotspots & s1 & E1 & H)%bind_Ok_inv.
  apply bind_Ok_inv in H as (G' & s2 & E2 & H).
  apply bind_Ok_inv in H as (avoid' & s3 & E3 & H).
  pose proof (stateless_eq _ _ _ _ (stateless_avoid_loop _ _ _ _ _ _) E3) as ->.
  apply bind_Ok_inv in H as (G_safe' & s3 & E4 & H).
  apply graph_copy_inv in E4 as [(_ & [=] & _)|(g & Hg & [= ->] & ->)].
  apply bind_Ok_inv in H as ([] & s4 & E5 & H).
  rewrite graph_remove_safe in E5. injection E5 as <-.
  set (g_safe := remove_nodes_from g (elements avoid')) in *.
  apply bind_Ok_inv in H as (sn & s5 & E6 & H).
  rewrite (ox_nearest_nodes_eq _ _ _ _ _ _ (with_safe_lookup _ _)) in E6.
  injection E6 as E6 <-.
  apply bind_Ok_inv in H as (en & s6 & E7 & H).
  rewrite (ox_nearest_nodes_eq _ _ _ _ _ _ (with_safe_lookup _ _)) in E7.
  injection E7 as E7 <-.
  injection H as <- <- <- <- <- <-.
  exists hotspots, s1, s2, g. done.
Qed.

Lemma route_setup_frame W request s r s' :
  route_setup W request s = (r, s') -> frame W s s'.
Proof.
  unfold route_setup. simpl. intros H.
  assert (F1 : forall r1 s1, get_wildfires W 2015 "CA" s = (r1, s1) -> frame W s s1).
  { intros r1 s1 [? ?]%get_wildfires_state. by apply frame_same. }
  apply bind_inv in H as [(hotspots & s1 & E1 & H)|[(e & E1 & _)|(E1 & _)]];
    [|by eapply F1..].
  apply (frame_trans _ _ s1); [by eapply F1|]. clear F1 E1.
  apply bind_inv in H as [(G & s2 & E2 & H)|[(e & E2 & _)|(E2 & _)]];
    [|by eapply cached_graph_frame..].
  apply (frame_trans _ _ s2); [by eapply cached_graph_frame|]. clear E2.
  assert (F3 : forall r3 s3, avoid_loop W G (request_bbox request) danger_radius_meters
                ((fun f => (longitude f, latitude f)) <$> hotspots) ∅ s2 = (r3, s3) ->
                s3 = s2).
  { intros r3 s3. apply stateless_eq, stateless_avoid_loop. }
  apply bind_inv in H as [(avoid & s3 & E3 & H)|[(e & E3 & _)|(E3 & _)]];
    apply F3 in E3 as ->; [|apply frame_refl..].
  apply bind_inv in H as [(G_safe & s3 & E4 & H)|[(e & E4 & _)|(E4 & _)]];
    apply graph_copy_inv in E4 as [(_ & E & ->)|(g & Hg & E & ->)];
    try discriminate E; try apply frame_refl; try apply with_safe_frame.
  injection E as ->.
  apply bind_inv in H as [([] & s4 & E5 & H)|[(e & E5 & _)|(E5 & _)]];
    rewrite graph_remove_safe in E5; try discriminate E5.
  injection E5 as <-.
  apply stateless_eq in H as ->; [apply with_safe_frame|].
  apply stateless_bind; [apply stateless_ox_nearest_nodes|]. intros sn.
  apply stateless_bind; [apply stateless_ox_nearest_nodes|]. intros en.
  apply stateless_ret.
Qed.

Lemma calculate_route_body_frame W request s r s' :
  calculate_route_body W request s = (r, s') -> frame W s s'.
Proof.
  unfold calculate_route_body. intros H.
  apply bind_inv in H as [(x & s1 & E1 & H)|[(e & E1 & _)|(E1 & _)]];
    [|by eapply route_setup_frame..].
  destruct x as [[[[G avoid] G_safe] sn] en].
  apply stateless_eq in H as ->; [by eapply route_setup_frame|].
  apply stateless_bind; [apply stateless_nx_astar_path|]. intros path.
  apply stateless_coords_loop.
Qed.

(** The handler of [calculate_route] only renames the exception. *)
Lemma calculate_route_state W request s :
  (calculate_route W request s).2 = (calculate_route_body W request s).2.
Proof.
  unfold calculate_route.
  destruct (calculate_route_body W request s) as [[route|e|] s']; [done| |done].
  by destruct e.
Qed.

Lemma calculate_route_Ok W request s route s' :
  calculate_route W request s = (Ok route, s') <->
  calculate_route_body W request s = (Ok route, s').
Proof.
  unfold calculate_route.
  destruct (calculate_route_body W request s) as [[r|e|] s1]; [done| |done].
  by destruct e.
Qed.

(** ** The coordinates of a route *)

Lemma coords_loop_Ok G g path : forall acc s route s',
  heap s !! G = Some g ->
  coords_loop G path acc s = (Ok route, s') ->
  exists r, route = acc ++ r /\ route_of g path r.
Proof.
  induction path as [|n path IH]; intros acc s route s' HG; simpl.
  - intros [= <- <-]. exists []. split; [by rewrite app_nil_r|constructor].
  - rewrite (bind_Ok _ _ _ _ _ (deref_Some _ _ _ HG)).
    destruct (node_attr g n) as [[x y]|] eqn:Hn; [|done].
    intros (r & -> & Hr)%IH; [|done].
    exists ((y, x) :: r). split; [by rewrite <- app_assoc|].
    constructor; [eauto|done].
Qed.

Lemma coords_loop_total G g path : forall acc s,
  heap s !! G = Some g ->
  Forall (fun n => n ∈ node_ids g) path ->
  exists route, coords_loop G path acc s = (Ok route, s).
Proof.
  induction path as [|n path IH]; intros acc s HG Hall; simpl.
  - by eexists.
  - apply Forall_cons in Hall as [Hn Hall].
    rewrite (bind_Ok _ _ _ _ _ (deref_Some _ _ _ HG)).
    destruct (node_attr_Some _ _ Hn) as [[x y] ->]. by apply IH.
Qed.

(** ** The safe subgraph *)

Lemma safe_node_not_excluded g (avoid : gset node) n :
  n ∈ node_ids (remove_nodes_from g (elements avoid)) -> n ∈ node_ids g /\ n ∉ avoid.
Proof. rewrite node_ids_remove, elem_of_elements. done. Qed.

Lemma safe_path_not_excluded g (avoid : gset node) source target path :
  source ∈ node_ids (remove_nodes_from g (elements avoid)) ->
  astar_path (remove_nodes_from g (elements avoid)) source target = Ok path ->
  Forall (fun n => n ∉ avoid) path.
Proof.
  intros Hs%safe_node_not_excluded. apply astar_path_nodes; [by destruct Hs|].
  intros e (He & _ & H2)%edges_remove. by rewrite elem_of_elements in H2.
Qed.

(** What a successful request has computed. *)
Lemma calculate_route_Ok_inv W request s route s' :
  calculate_route W request s = (Ok route, s') ->
  exists G avoid G_safe start_node end_node path,
    route_setup W request s = (Ok (G, avoid, G_safe, start_node, end_node), s') /\
    nx_astar_path G_safe start_node end_node s' = (Ok path, s') /\
    coords_loop G path [] s' = (Ok route, s').
Proof.
  intros H%calculate_route_Ok. unfold calculate_route_body in H.
  apply bind_Ok_inv in H as ([[[[G avoid] G_safe] sn] en] & s1 & E1 & H).
  apply bind_Ok_inv in H as (path & s2 & E2 & H).
  pose proof (stateless_eq _ _ _ _ (stateless_nx_astar_path _ _ _) E2) as ->.
  pose proof (stateless_eq _ _ _ _ (stateless_coords_loop _ _ _) H) as ->.
  exists G, avoid, G_safe, sn, en, path. done.
Qed.

(** C1: whenever [calculate_route] returns a route, the route is made of the
    positions of a node path found in the safe subgraph, and no node of that
    path belongs to [nodes_to_avoid], the excluded set computed from the
    hazards. *)
Theorem route_avoids_excluded_nodes W request s route s' :
  calculate_route W request s = (Ok route, s') ->
  exists G nodes_to_avoid G_safe start_node end_node g path,
    route_setup W request s
      = (Ok (G, nodes_to_avoid, G_safe, start_node, end_node), s') /\
    nx_astar_path G_safe start_node end_node s' = (Ok path, s') /\
    heap s' !! G = Some g /\ route_of g path route /\
    Forall (fun n => n ∉ nodes_to_avoid) path.
Proof.
  intros (G & avoid & G_safe & sn & en & path & E1 & E2 & E3)%calculate_route_Ok_inv.
  destruct (route_setup_Ok _ _ _ _ _ _ _ _ _ E1)
    as (hotspots & s1 & s2 & g & _ & _ & Hg & _ & -> & -> & Hsn & _).
  exists G, avoid, (fresh (dom (heap s2))), sn, en, g, path.
  pose proof (with_safe_lookup_old s2 (remove_nodes_from g (elements avoid)) _ _ Hg) as Hg'.
  split; [done|]. split; [done|]. split; [done|]. split.
  - destruct (coords_loop_Ok _ _ _ _ _ _ _ Hg' E3) as (r & -> & Hr). done.
  - rewrite (nx_astar_path_eq _ _ _ _ _ (with_safe_lookup _ _)) in E2.
    injection E2 as E2. eapply safe_path_not_excluded; [|exact E2].
    by eapply nearest_nodes_node.
Qed.

Lemma route_avoids_excluded_nodes_witness :
  exists route s', calculate_route (world_of (Some fires) town) across_town fresh_server
                   = (Ok route, s') /\
    exists G nodes_to_avoid G_safe start_node end_node g path,
      route_setup (world_of (Some fires) town) across_town fresh_server
        = (Ok (G, nodes_to_avoid, G_safe, start_node, end_node), s') /\
      nx_astar_path G_safe start_node end_node s' = (Ok path, s') /\
      heap s' !! G = Some g /\ route_of g path route /\
      Forall (fun n => n ∉ nodes_to_avoid) path.
Proof.
  eexists _, _. split; [vm_compute; reflexivity|].
  apply route_avoids_excluded_nodes. vm_compute. reflexivity.
Defined.

(** The end points and the safe graph of a request that reached the search. *)
Lemma route_setup_safe W request s G avoid G_safe start_node end_node s' g_safe :
  route_setup W request s = (Ok (G, avoid, G_safe, start_node, end_node), s') ->
  heap s' !! G_safe = Some g_safe ->
  exists g, heap s' !! G = Some g /\
    g_safe = remove_nodes_from g (elements avoid) /\
    nearest_nodes (haversine W) g_safe (start_lon request) (start_lat request)
      = Ok start_node /\
    nearest_nodes (haversine W) g_safe (end_lon request) (end_lat request)
      = Ok end_node.
Proof.
  intros E1 Hsafe.
  destruct (route_setup_Ok _ _ _ _ _ _ _ _ _ E1)
    as (hotspots & s1 & s2 & g & _ & _ & Hg & _ & -> & -> & Hsn & Hen).
  rewrite with_safe_lookup in Hsafe. injection Hsafe as <-.
  exists g. split; [by apply with_safe_lookup_old|done].
Qed.

(** C2: when the safe subgraph has non-negative edge lengths and a path joins
    the two projected nodes, the search returns a path of the safe subgraph
    between them whose total length is least among all such paths, and
    [calculate_route] answers with the route along it. *)
Theorem route_is_shortest W request s G avoid G_safe start_node end_node s' g_safe :
  route_setup W request s = (Ok (G, avoid, G_safe, start_node, end_node), s') ->
  heap s' !! G_safe = Some g_safe ->
  wf_graph g_safe ->
  (exists es, is_walk (graph_edge g_safe) start_node es end_node) ->
  exists path es route g,
    nx_astar_path G_safe start_node end_node s' = (Ok path, s') /\
    path = walk_nodes start_node es /\
    shortest_walk (graph_edge g_safe) start_node end_node es /\
    calculate_route W request s = (Ok route, s') /\
    heap s' !! G = Some g /\ route_of g path route.
Proof.
  intros E1 Hsafe Hwf [es0 Hwalk0].
  destruct (route_setup_safe _ _ _ _ _ _ _ _ _ _ E1 Hsafe) as (g & Hg & Hgs & Hsn & Hen).
  pose proof (nearest_nodes_node _ _ _ _ _ Hsn) as Hs.
  pose proof (nearest_nodes_node _ _ _ _ _ Hen) as Ht.
  pose proof (astar_path_correct _ _ _ Hwf Hs Ht) as Hpost.
  destruct (astar_path g_safe start_node end_node) as [path|e|] eqn:Ea;
    [|destruct e; simpl in Hpost; try done; by destruct (Hpost es0)|done].
  destruct Hpost as (es & -> & Hshort).
  assert (Hnodes : Forall (fun n => n ∈ node_ids g) (walk_nodes start_node es)).
  { eapply Forall_impl.
    - apply (astar_path_nodes (fun n => n ∈ node_ids g_safe)
               g_safe start_node end_node _ Hs); [|exact Ea].
      intros e He. destruct Hwf as [_ Hall]. rewrite Forall_forall in Hall.
      by destruct (Hall _ He) as (_ & ? & _).
    - intros n Hn. rewrite Hgs in Hn. by apply node_ids_remove in Hn as [? _]. }
  destruct (coords_loop_total _ _ _ [] s' Hg Hnodes) as [route Ec].
  exists (walk_nodes start_node es), es, route, g.
  assert (En : nx_astar_path G_safe start_node end_node s'
               = (Ok (walk_nodes start_node es), s')).
  { by rewrite (nx_astar_path_eq _ _ _ _ _ Hsafe), Ea. }
  split; [done|]. split; [done|]. split; [done|]. split.
  - apply calculate_route_Ok. unfold calculate_route_body.
    rewrite (bind_Ok _ _ _ _ _ E1). by rewrite (bind_Ok _ _ _ _ _ En).
  - split; [done|].
    by destruct (coords_loop_Ok _ _ _ _ _ _ _ Hg Ec) as (r & -> & Hr).
Qed.

(** C5: when no path joins the two projected nodes in the safe subgraph,
    [calculate_route] raises the 404 not-found [HTTPException], not the 500
    one. *)
Theorem no_safe_path_is_not_found W request s G avoid G_safe start_node end_node s' g_safe :
  route_setup W request s = (Ok (G, avoid, G_safe, start_node, end_node), s') ->
  heap s' !! G_safe = Some g_safe ->
  wf_graph g_safe ->
  (forall es, ~ is_walk (graph_edge g_safe) start_node es end_node) ->
  calculate_route W request s
    = (Raise (HTTPException 404 "Could not find a safe path."), s').
Proof.
  intros E1 Hsafe Hwf Hnone.
  destruct (route_setup_safe _ _ _ _ _ _ _ _ _ _ E1 Hsafe) as (g & Hg & Hgs & Hsn & Hen).
  pose proof (nearest_nodes_node _ _ _ _ _ Hsn) as Hs.
  pose proof (nearest_nodes_node _ _ _ _ _ Hen) as Ht.
  pose proof (astar_path_correct _ _ _ Hwf Hs Ht) as Hpost.
  assert (Ea : astar_path g_safe start_node end_node = Raise NetworkXNoPath).
  { destruct (astar_path g_safe start_node end_node) as [path|e|];
      [|by destruct e|done].
    destruct Hpost as (es & _ & Hwalk & _). by destruct (Hnone es). }
  unfold calculate_route, calculate_route_body.
  rewrite (bind_Ok _ _ _ _ _ E1). unfold bind at 1.
  by rewrite (nx_astar_path_eq _ _ _ _ _ Hsafe), Ea.
Qed.

(** C3: the two end points are projected on the safe subgraph, the copy of
    the network from which [nodes_to_avoid] have been removed: each projected
    node is a nearest node of that subgraph and is not an excluded node. *)
Theorem endpoints_projected_on_safe_subgraph
    W request s G nodes_to_avoid G_safe start_node end_node s' :
  route_setup W request s
    = (Ok (G, nodes_to_avoid, G_safe, start_node, end_node), s') ->
  exists g g_safe,
    heap s' !! G = Some g /\ heap s' !! G_safe = Some g_safe /\
    g_safe = remove_nodes_from g (elements nodes_to_avoid) /\
    ox_nearest_nodes W G_safe (start_lon request) (start_lat request) s'
      = (Ok start_node, s') /\
    ox_nearest_nodes W G_safe (end_lon request) (end_lat request) s'
      = (Ok end_node, s') /\
    nearest_in (haversine W) g_safe (start_lat request) (start_lon request) start_node /\
    nearest_in (haversine W) g_safe (end_lat request) (end_lon request) end_node /\
    (start_node ∉ nodes_to_avoid) /\ (end_node ∉ nodes_to_avoid).
Proof.
  intros E1.
  destruct (route_setup_Ok _ _ _ _ _ _ _ _ _ E1)
    as (hotspots & s1 & s2 & g & _ & _ & Hg & _ & -> & -> & Hsn & Hen).
  set (g_safe := remove_nodes_from g (elements nodes_to_avoid)) in *.
  exists g, g_safe.
  split; [by apply with_safe_lookup_old|]. split; [apply with_safe_lookup|].
  split; [done|].
  rewrite !(ox_nearest_nodes_eq _ _ g_safe) by apply with_safe_lookup.
  rewrite Hsn, Hen. split; [done|]. split; [done|].
  split; [by apply nearest_nodes_Ok|]. split; [by apply nearest_nodes_Ok|].
  split; eapply safe_node_not_excluded, nearest_nodes_node; eassumption.
Qed.

(** ** The excluded set *)

Lemma avoid_loop_step W G g b radius lon lat rest acc s :
  heap s !! G = Some g -> in_bbox b lon lat = true ->
  avoid_loop W G b radius ((lon, lat) :: rest) acc s =
  match nearest_nodes (haversine W) g lon lat with
  | Ok center_node =>
      match ego_graph g center_node radius with
      | Ok nodes_within_radius =>
          avoid_loop W G b radius rest
            (acc ∪ list_to_set (node_ids nodes_within_radius)) s
      | Raise e => (Raise e, s)
      | Diverge => (Diverge, s)
      end
  | Raise e => (Raise e, s)
  | Diverge => (Diverge, s)
  end.
Proof.
  intros HG Hin. cbn [avoid_loop]. rewrite Hin. unfold bind at 1.
  rewrite (ox_nearest_nodes_eq _ _ _ _ _ _ HG).
  destruct (nearest_nodes _ _ _ _) as [c|e|]; [|done|done].
  unfold bind at 1. rewrite (nx_ego_graph_eq _ _ _ _ _ HG).
  by destruct (ego_graph g c radius).
Qed.

Lemma avoid_loop_mono W G g b r1 r2 s zones :
  heap s !! G = Some g -> wf_graph g -> 0 <= r1 -> r1 <= r2 ->
  forall (acc1 acc2 S1 : gset node) s1,
    acc1 ⊆ acc2 ->
    avoid_loop W G b r1 zones acc1 s = (Ok S1, s1) ->
    exists S2, avoid_loop W G b r2 zones acc2 s = (Ok S2, s1) /\ S1 ⊆ S2.
Proof.
  intros HG Hwf Hr1 Hr12.
  induction zones as [|[lon lat] zones IH]; intros acc1 acc2 S1 s1 Hacc.
  - simpl. intros [= <- <-]. by exists acc2.
  - destruct (in_bbox b lon lat) eqn:Hin.
    2:{ cbn [avoid_loop]. rewrite Hin. by apply IH. }
    rewrite !(avoid_loop_step _ _ g) by done.
    destruct (nearest_nodes (haversine W) g lon lat) as [c|e|] eqn:Hc; [|done|done].
    apply nearest_nodes_node in Hc.
    destruct (ego_graph_nodes g c r1 Hwf Hc Hr1) as (H1 & -> & Hn1).
    destruct (ego_graph_nodes g c r2 Hwf Hc) as (H2 & -> & Hn2); [lra|].
    apply IH. intros v. rewrite !elem_of_union, !elem_of_list_to_set.
    intros [?|Hv]; [left; by apply Hacc|right].
    apply Hn2. apply Hn1 in Hv as (es & ? & ?). exists es. split; [done|lra].
Qed.

(** C6: on a network with non-negative edge lengths, for radii
    [0 <= r1 <= r2], the excluded set computed with [r1] is a subset of the
    one computed with [r2]. *)
Theorem excluded_nodes_monotone W G g b r1 r2 zones s (acc S1 : gset node) s1 :
  heap s !! G = Some g -> wf_graph g -> 0 <= r1 -> r1 <= r2 ->
  avoid_loop W G b r1 zones acc s = (Ok S1, s1) ->
  exists S2, avoid_loop W G b r2 zones acc s = (Ok S2, s1) /\ S1 ⊆ S2.
Proof. intros HG Hwf H1 H2. by apply (avoid_loop_mono _ _ g). Qed.

Lemma outside_not_in_bbox b lon lat : outside_bbox b lon lat -> in_bbox b lon lat = false.
Proof.
  destruct b as [[[north south] east] west]. unfold outside_bbox, in_bbox.
  intros H. apply not_true_is_false. intros Hin.
  apply andb_prop in Hin as [Hin H4]. apply andb_prop in Hin as [Hin H3].
  apply andb_prop in Hin as [H1 H2].
  apply Qltb_lt in H1, H2, H3, H4. lra.
Qed.

Lemma avoid_loop_skip W G b radius l1 lon lat l2 :
  in_bbox b lon lat = false ->
  forall acc s,
    avoid_loop W G b radius (l1 ++ (lon, lat) :: l2) acc s =
    avoid_loop W G b radius (l1 ++ l2) acc s.
Proof.
  intros Hout. induction l1 as [|[lon1 lat1] l1 IH]; intros acc s;
    cbn [avoid_loop app].
  - by rewrite Hout.
  - destruct (in_bbox b lon1 lat1); [|apply IH].
    unfold bind. destruct (ox_nearest_nodes _ _ _ _ s) as [[c|e|] s1]; [|done|done].
    destruct (nx_ego_graph _ _ _ s1) as [[H|e|] s2]; [|done|done].
    apply IH.
Qed.

(** C8: a hazard strictly outside the bounding box of the request adds
    nothing to the excluded set: the loop over the danger zones gives the
    same result with and without it. *)
Theorem hazard_outside_bbox_ignored W G request radius l1 lon lat l2 acc s :
  outside_bbox (request_bbox request) lon lat ->
  avoid_loop W G (request_bbox request) radius (l1 ++ (lon, lat) :: l2) acc s =
  avoid_loop W G (request_bbox request) radius (l1 ++ l2) acc s.
Proof. intros Hout%outside_not_in_bbox. by apply avoid_loop_skip. Qed.

(** C7: whatever the outcome of [calculate_route], every graph object that
    was in the store before the call, the cached networks among them, is
    left as it was (nodes, attributes and edges), and a network added to the
    cache by the call is stored as the provider returned it: the nodes are
    removed from a copy only. *)
Theorem cached_network_not_mutated W request s :
  frame W s (calculate_route W request s).2.
Proof.
  rewrite calculate_route_state.
  destruct (calculate_route_body W request s) as [r s'] eqn:E.
  by eapply calculate_route_body_frame.
Qed.


Lemma bind_Raise {A B} (m : M A) (k : A -> M B) s e s1 :
  m s = (Raise e, s1) -> bind m k s = (Raise e, s1).
Proof. unfold bind. by intros ->. Qed.

Lemma calculate_route_no_hazards W request s e s1 :
  get_wildfires W 2015 "CA" s = (Raise e, s1) ->
  calculate_route_body W request s = (Raise e, s1).
Proof.
  intros E. unfold calculate_route_body. apply bind_Raise.
  unfold route_setup. by apply bind_Raise.
Qed.

(** C4, as amended: when nothing is cached for 2015 and CA and the hazard
    source returns an empty list, [get_wildfires] raises its 404
    [HTTPException] and [calculate_route] returns no route but fails with an
    [HTTPException]; a source that fails (returns [None]) leads to the very
    same outcome. *)
Theorem no_hazard_data_fails W W' request s :
  wildfire_data_cache s !! "2015-CA" = None ->
  get_wildfire_data (database W) 2015 "CA" = Some [] ->
  get_wildfire_data (database W') 2015 "CA" = None ->
  str_exn W' = str_exn W ->
  get_wildfires W 2015 "CA" s
    = (Raise (HTTPException 404
                "No wildfire data found for the specified year and state."), s) /\
  get_wildfires W' 2015 "CA" s = get_wildfires W 2015 "CA" s /\
  exists status_code detail,
    calculate_route W request s = (Raise (HTTPException status_code detail), s) /\
    calculate_route W' request s = (Raise (HTTPException status_code detail), s).
Proof.
  intros Hcache Hempty Hnone Hstr.
  assert (E : get_wildfires W 2015 "CA" s
    = (Raise (HTTPException 404
                "No wildfire data found for the specified year and state."), s)).
  { unfold get_wildfires.
    change (pretty 2015%Z +:+ "-" +:+ "CA") with "2015-CA".
    by rewrite Hcache, Hempty. }
  assert (E' : get_wildfires W' 2015 "CA" s = get_wildfires W 2015 "CA" s).
  { rewrite E. unfold get_wildfires.
    change (pretty 2015%Z +:+ "-" +:+ "CA") with "2015-CA".
    by rewrite Hcache, Hnone. }
  split; [done|]. split; [done|].
  eexists 500%Z, _. unfold calculate_route.
  rewrite (calculate_route_no_hazards W _ _ _ _ E).
  rewrite E in E'. rewrite (calculate_route_no_hazards W' _ _ _ _ E').
  by rewrite Hstr.
Qed.

Lemma no_hazard_data_fails_witness :
  exists status_code detail,
    calculate_route (world_of (Some []) town) across_town fresh_server
      = (Raise (HTTPException status_code detail), fresh_server) /\
    calculate_route (world_of None town) across_town fresh_server
      = (Raise (HTTPException status_code detail), fresh_server).
Proof.
  apply (no_hazard_data_fails (world_of (Some []) town) (world_of None town));
    reflexivity.
Defined.

(** C4 as stated fails: with an empty hazard list the request across town is
    not routed as if nothing were excluded but fails, with the same outcome as
    when the hazard source itself fails; the same town is routed when one
    fire is on record. *)
Lemma empty_hazards_are_an_error :
  calculate_route (world_of (Some []) town) across_town fresh_server
    = (Raise (HTTPException 500
         "An internal server error occurred: 404: No wildfire data found for the specified year and state."),
       fresh_server) /\
  calculate_route (world_of None town) across_town fresh_server
    = calculate_route (world_of (Some []) town) across_town fresh_server /\
  (calculate_route (world_of (Some fires) town) across_town fresh_server).1
    = Ok [(0, 1 # 100); (0, 2 # 100); (1 # 100, 3 # 100); (0, 4 # 100); (0, 5 # 100)].
Proof. split; [|split]; vm_compute; reflexivity. Qed.


(** ** The scenario, worked out *)

Lemma no_walk_out_of (S : list node) G u v :
  u ∈ S -> v ∉ S ->
  Forall (fun e => e.1.1 ∈ S -> e.1.2 ∈ S) (edges G) ->
  forall es, ~ is_walk (graph_edge G) u es v.
Proof.
  intros Hu Hv Hclosed es. rewrite Forall_forall in Hclosed. revert u Hu.
  induction es as [|e es IH]; simpl; intros u Hu.
  - by intros <-.
  - intros (<- & He & Hwalk). apply (IH e.1.2); [|done]. by apply Hclosed.
Qed.

Ltac by_decide := apply (bool_decide_unpack _); vm_compute; exact I.
Ltac by_compute := vm_compute; reflexivity.

Lemma route_is_shortest_witness :
  exists path es route s',
    path = walk_nodes 1%Z es /\
    calculate_route (world_of (Some fires) town) across_town fresh_server
      = (Ok route, s').
Proof.
  edestruct (route_is_shortest (world_of (Some fires) town) across_town fresh_server)
    as (path & es & route & g & H1 & H2 & H3 & H4 & _).
  - by_compute.
  - by_compute.
  - by_decide.
  - exists [(1%Z, 2%Z, 2000); (2%Z, 6%Z, 3000); (6%Z, 4%Z, 3000); (4%Z, 5%Z, 2000)].
    vm_compute. repeat split; repeat constructor.
  - exists path, es, route. eexists. split; [exact H2|exact H4].
Defined.

Lemma no_safe_path_is_not_found_witness :
  exists s',
    calculate_route (world_of (Some fires) row_town) across_town fresh_server
      = (Raise (HTTPException 404 "Could not find a safe path."), s').
Proof.
  eexists.
  eapply (no_safe_path_is_not_found (world_of (Some fires) row_town) across_town
            fresh_server).
  - by_compute.
  - by_compute.
  - by_decide.
  - apply (no_walk_out_of [1; 2]%Z).
    + by_decide.
    + by_decide.
    + by_decide.
Defined.

Lemma endpoints_projected_on_safe_subgraph_witness :
  exists G nodes_to_avoid G_safe start_node end_node s',
    route_setup (world_of (Some fires) town) from_the_fire fresh_server
      = (Ok (G, nodes_to_avoid, G_safe, start_node, end_node), s') /\
    exists g g_safe,
      heap s' !! G = Some g /\ heap s' !! G_safe = Some g_safe /\
      g_safe = remove_nodes_from g (elements nodes_to_avoid) /\
      ox_nearest_nodes (world_of (Some fires) town) G_safe
        (start_lon from_the_fire) (start_lat from_the_fire) s' = (Ok start_node, s') /\
      ox_nearest_nodes (world_of (Some fires) town) G_safe
        (end_lon from_the_fire) (end_lat from_the_fire) s' = (Ok end_node, s') /\
      nearest_in flat_metric g_safe (start_lat from_the_fire)
        (start_lon from_the_fire) start_node /\
      nearest_in flat_metric g_safe (end_lat from_the_fire)
        (end_lon from_the_fire) end_node /\
      (start_node ∉ nodes_to_avoid) /\ (end_node ∉ nodes_to_avoid).
Proof.
  eexists _, _, _, _, _, _. split; [by_compute|].
  apply (endpoints_projected_on_safe_subgraph (world_of (Some fires) town)
           from_the_fire fresh_server).
  by_compute.
Defined.

(** A request that starts at the fire: the nearest node of the network is
    node 3, which is excluded, and the start is projected on node 2. *)
Example projection_falls_back :
  nearest_nodes flat_metric town (start_lon from_the_fire) (start_lat from_the_fire)
    = Ok 3%Z /\
  (route_setup (world_of (Some fires) town) from_the_fire fresh_server).1
    = Ok (1%positive, {[3%Z]}, 2%positive, 2%Z, 5%Z).
Proof. split; by_compute. Qed.

Lemma excluded_nodes_monotone_witness :
  exists S1 S2 : gset node,
    S1 = {[3%Z]} /\ S1 ⊆ S2 /\
    avoid_loop (world_of (Some fires) town) 1%positive (request_bbox across_town)
      2500 [(3 # 100, 0)] ∅ (with_safe fresh_server town)
    = (Ok S2, with_safe fresh_server town).
Proof.
  edestruct (excluded_nodes_monotone (world_of (Some fires) town) 1%positive town
               (request_bbox across_town) 1000 2500 [(3 # 100, 0)]
               (with_safe fresh_server town) ∅)
    as (S2 & H1 & H2).
  - by_compute.
  - by_decide.
  - by_decide.
  - by_decide.
  - by_compute.
  - eexists _, S2. split; [reflexivity|]. split; [|exact H1].
    intros x Hx. apply H2. vm_compute in Hx |- *. exact Hx.
Defined.

Lemma hazard_outside_bbox_ignored_witness :
  outside_bbox (request_bbox across_town) (3 # 100) 40 /\
  avoid_loop (world_of (Some fires) town) 1%positive (request_bbox across_town)
    1000 ([(3 # 100, 0)] ++ (3 # 100, 40) :: []) ∅ (with_safe fresh_server town) =
  avoid_loop (world_of (Some fires) town) 1%positive (request_bbox across_town)
    1000 ([(3 # 100, 0)] ++ []) ∅ (with_safe fresh_server town).
Proof.
  assert (H : outside_bbox (request_bbox across_town) (3 # 100) 40).
  { vm_compute. right; right; right. reflexivity. }
  split; [exact H|]. apply hazard_outside_bbox_ignored. exact H.
Defined.

(** ** Cache keys *)

Lemma string_app_cons c (s1 s2 : string) :
  String c s1 +:+ s2 = String c (s1 +:+ s2).
Proof. reflexivity. Qed.

Lemma string_app_nil_l (s : string) : "" +:+ s = s.
Proof. reflexivity. Qed.

Lemma string_app_assoc (s1 s2 s3 : string) :
  (s1 +:+ s2) +:+ s3 = s1 +:+ (s2 +:+ s3).
Proof.
  induction s1 as [|c s1 IH]; [done|].
  rewrite !string_app_cons. by rewrite IH.
Qed.

Lemma string_app_nil_r (s : string) : s +:+ "" = s.
Proof.
  induction s as [|c s IH]; [done|]. rewrite string_app_cons. by rewrite IH.
Qed.

Lemma no_dash_app s1 s2 : no_dash (s1 +:+ s2) = no_dash s1 && no_dash s2.
Proof.
  induction s1 as [|c s1 IH]; [done|].
  rewrite string_app_cons. simpl. rewrite IH. by rewrite andb_assoc.
Qed.

Lemma pretty_N_char_no_dash x :
  bool_decide (String (pretty_N_char x) "" = "-") = false.
Proof. unfold pretty_N_char. by repeat case_match. Qed.

Lemma pretty_N_go_prefix x : forall s,
  exists p, pretty_N_go x s = p +:+ s /\ no_dash p = true /\
            ((0 < x)%N -> p <> "").
Proof.
  induction (N.lt_wf_0 x) as [x _ IH]; intros s.
  destruct (decide (0 < x)%N) as [Hx|Hx].
  - rewrite pretty_N_go_step by done.
    destruct (IH (x `div` 10)%N (N.div_lt x 10 Hx eq_refl)
                 (String (pretty_N_char (x `mod` 10)) s)) as (p & -> & Hp & _).
    exists (p +:+ String (pretty_N_char (x `mod` 10)) "").
    split; [|split].
    + by rewrite string_app_assoc.
    + rewrite no_dash_app, Hp. simpl. by rewrite pretty_N_char_no_dash.
    + intros _. by destruct p.
  - assert (x = 0%N) as -> by lia. exists "". rewrite pretty_N_go_0.
    split; [done|]. split; [done|lia].
Qed.

Lemma pretty_N_no_dash (x : N) : no_dash (pretty x) = true /\ pretty x <> "".
Proof.
  unfold pretty, pretty_N. case_decide as Hx; [done|].
  destruct (pretty_N_go_prefix x "") as (p & -> & Hp & Hne).
  rewrite string_app_nil_r. split; [done|]. apply Hne. lia.
Qed.

Lemma dash_split d1 : forall d2 r1 r2,
  no_dash d1 = true -> no_dash d2 = true ->
  d1 +:+ "-" +:+ r1 = d2 +:+ "-" +:+ r2 -> d1 = d2 /\ r1 = r2.
Proof.
  induction d1 as [|c d1 IH]; intros [|c' d2] r1 r2;
    rewrite ?string_app_cons, ?string_app_nil_l; simpl.
  - by intros _ _ [= ->].
  - intros _ [Hc _]%andb_prop [= <- _]. done.
  - intros [Hc _]%andb_prop _ [= -> _]. done.
  - intros [_ H1]%andb_prop [_ H2]%andb_prop [= -> H].
    destruct (IH _ _ _ H1 H2 H) as [-> ->]. done.
Qed.

Lemma pretty_Z_nonneg_no_dash (z : Z) :
  (0 <= z)%Z -> no_dash (pretty z) = true /\ pretty z <> "".
Proof.
  destruct z as [|p|p]; intros Hz; [done| |lia].
  apply (pretty_N_no_dash (Npos p)).
Qed.

Lemma pretty_Z_neg (p : positive) : pretty (Zneg p) = "-" +:+ pretty p.
Proof. reflexivity. Qed.

Lemma wildfire_cache_key_inj year st year' st' :
  wildfire_cache_key year st = wildfire_cache_key year' st' ->
  year = year' /\ st = st'.
Proof.
  unfold wildfire_cache_key.
  assert (Hmixed : forall (p : positive) d r1 r2,
            no_dash d = true -> d <> "" ->
            ("-" +:+ pretty p) +:+ "-" +:+ r1 = d +:+ "-" +:+ r2 -> False).
  { intros p [|c d] r1 r2 Hd Hne; [done|].
    rewrite !string_app_cons, ?string_app_nil_l. simpl in *.
    apply andb_prop in Hd as [Hc _]. intros [= <- _]. done. }
  destruct (Z_lt_le_dec year 0) as [Hy|Hy], (Z_lt_le_dec year' 0) as [Hy'|Hy'].
  - destruct year as [|p|p], year' as [|q|q]; try lia.
    rewrite !pretty_Z_neg, !string_app_cons, !string_app_nil_l.
    intros [= H].
    apply dash_split in H as [H ->]; [|apply (pretty_N_no_dash (Npos _))..].
    apply (inj pretty) in H. by subst.
  - destruct year as [|p|p]; try lia. rewrite pretty_Z_neg. intros H.
    apply Hmixed in H; [done|by apply pretty_Z_nonneg_no_dash..].
  - destruct year' as [|q|q]; try lia. rewrite pretty_Z_neg. intros H.
    symmetry in H.
    apply Hmixed in H; [done|by apply pretty_Z_nonneg_no_dash..].
  - intros H.
    apply dash_split in H as [H ->]; [|by apply pretty_Z_nonneg_no_dash..].
    apply (inj pretty) in H. by subst.
Qed.

(** ** The wildfire endpoint and its cache *)

Lemma get_wildfire_data_fire_of db year st hotspots :
  get_wildfire_data db year st = Some hotspots ->
  Forall (fire_of year st) hotspots.
Proof.
  unfold get_wildfire_data. destruct db as [rows|]; [|done]. intros [= <-].
  apply Forall_fmap, Forall_forall. intros r [[? ?] _]%list_elem_of_filter.
  by repeat split.
Qed.

Lemma filter_nil_Forall {A} (P : A -> Prop) `{!forall x, Decision (P x)} (l : list A) :
  filter P l = [] <-> Forall (fun x => ~ P x) l.
Proof.
  induction l as [|x l IH]; [done|]. rewrite filter_cons, Forall_cons.
  destruct (decide (P x)); [|by rewrite IH; tauto].
  split; [done|]. by intros [? _].
Qed.

Lemma get_wildfire_data_nil db year st :
  get_wildfire_data db year st = Some [] <->
  exists rows, db = Some rows /\
    Forall (fun r => ~ (FIRE_YEAR r = year /\ STATE r = st)) rows.
Proof.
  unfold get_wildfire_data. destruct db as [rows|].
  - split.
    + intros [= H]. exists rows. split; [done|].
      apply fmap_nil_inv in H. by apply filter_nil_Forall in H.
    + intros (rows' & [= <-] & Hall). f_equal.
      apply (filter_nil_Forall (fun r => FIRE_YEAR r = year /\ STATE r = st)) in Hall.
      by rewrite Hall.
  - split; [done|]. by intros (rows & [=] & _).
Qed.

Lemma get_wildfires_inv W year st s r s' :
  get_wildfires W year st s = (r, s') ->
  (exists hotspots,
     wildfire_data_cache s !! wildfire_cache_key year st = Some hotspots /\
     r = Ok hotspots /\ s' = s) \/
  (wildfire_data_cache s !! wildfire_cache_key year st = None /\
   ((exists f l,
       get_wildfire_data (database W) year st = Some (f :: l) /\
       r = Ok (f :: l) /\
       s' = {| heap := heap s; graph_cache := graph_cache s;
               wildfire_data_cache :=
                 <[wildfire_cache_key year st := f :: l]> (wildfire_data_cache s) |}) \/
    ((get_wildfire_data (database W) year st = None \/
      get_wildfire_data (database W) year st = Some []) /\
     r = Raise (HTTPException 404
                  "No wildfire data found for the specified year and state.") /\
     s' = s))).
Proof.
  unfold get_wildfires. fold (wildfire_cache_key year st).
  destruct (wildfire_data_cache s !! _) as [hs|]; [intros [= <- <-]; left; eauto|].
  intros H. right. split; [done|].
  destruct (get_wildfire_data _ _ _) as [[|f l]|]; injection H as <- <-.
  - right. eauto.
  - left. eauto.
  - right. eauto.
Qed.

Lemma get_wildfires_hit W year st s hotspots :
  wildfire_data_cache s !! wildfire_cache_key year st = Some hotspots ->
  get_wildfires W year st s = (Ok hotspots, s).
Proof. unfold get_wildfires. fold (wildfire_cache_key year st). by intros ->. Qed.

Lemma get_wildfires_Ok_cached W year st s hotspots s' :
  get_wildfires W year st s = (Ok hotspots, s') ->
  wildfire_data_cache s' !! wildfire_cache_key year st = Some hotspots.
Proof.
  intros [(hs & H & [= <-] & ->)|[_ [(f & l & _ & [= <-] & ->)|(_ & [=] & _)]]]%get_wildfires_inv;
    [done|]. simpl. apply lookup_insert_eq.
Qed.

(** X1: once [get_wildfires] has answered for a year and a state, every later
    call for them gets the same list from the cache and leaves the state as
    it is, whatever has become of the database. *)
Theorem get_wildfires_answers_from_cache W W' year st s hotspots s' :
  get_wildfires W year st s = (Ok hotspots, s') ->
  get_wildfires W' year st s' = (Ok hotspots, s').
Proof. intros H. by eapply get_wildfires_hit, get_wildfires_Ok_cached. Qed.

Lemma get_wildfires_answers_from_cache_witness :
  exists hotspots s',
    hotspots <> [] /\
    get_wildfires (world_of None town) 2015 "CA" s' = (Ok hotspots, s').
Proof.
  eexists _, _. split; [|
    apply (get_wildfires_answers_from_cache (world_of (Some fires) town) _ _ _
             fresh_server); vm_compute; reflexivity].
  done.
Defined.

(** X2: the cache keeps one entry per year and state: a call for one pair
    never changes what a call for another pair returns. *)
Theorem get_wildfires_pairs_independent W W' year st year' st' s :
  (year, st) <> (year', st') ->
  (get_wildfires W' year' st' (get_wildfires W year st s).2).1
  = (get_wildfires W' year' st' s).1.
Proof.
  intros Hne.
  assert (Hk : wildfire_cache_key year st <> wildfire_cache_key year' st').
  { intros [-> ->]%wildfire_cache_key_inj. done. }
  destruct (get_wildfires W year st s) as [r s1] eqn:E. simpl.
  apply get_wildfires_inv in E
    as [(hs & _ & _ & ->)|[_ [(f & l & _ & _ & ->)|(_ & _ & ->)]]]; [done| |done].
  unfold get_wildfires. fold (wildfire_cache_key year' st'). simpl.
  rewrite lookup_insert_ne by done.
  destruct (wildfire_data_cache s !! _); [done|].
  by destruct (get_wildfire_data _ _ _) as [[|f' l']|].
Qed.

Lemma get_wildfires_pairs_independent_witness :
  (get_wildfires (world_of (Some fires) town) 2014 "CA"
     (get_wildfires (world_of (Some fires) town) 2015 "CA" fresh_server).2).1
  = (get_wildfires (world_of (Some fires) town) 2014 "CA" fresh_server).1.
Proof. apply get_wildfires_pairs_independent. discriminate. Defined.

Lemma cache_sound_empty s : wildfire_data_cache s = ∅ -> cache_sound s.
Proof. intros H year st hs. by rewrite H, lookup_empty. Qed.

(** X3: [get_wildfires] keeps the cache sound, and on a sound cache it never
    returns an empty list: what it returns are records of the year and the
    state asked for, with the two constant columns that [get_wildfire_data]
    adds. *)
Theorem get_wildfires_sound W year st s r s' :
  cache_sound s ->
  get_wildfires W year st s = (r, s') ->
  cache_sound s' /\
  forall hotspots, r = Ok hotspots ->
    hotspots <> [] /\ Forall (fire_of year st) hotspots.
Proof.
  intros Hs [(hs & Hhit & -> & ->)|[Hmiss [(f & l & Hdb & -> & ->)|(_ & -> & ->)]]]%get_wildfires_inv.
  - split; [done|]. intros ? [= <-]. by apply Hs.
  - apply get_wildfire_data_fire_of in Hdb. split.
    + intros y t hs. simpl.
      destruct (decide (wildfire_cache_key year st = wildfire_cache_key y t)) as [E|E].
      * rewrite E, lookup_insert_eq. apply wildfire_cache_key_inj in E as [<- <-].
        by intros [= <-].
      * rewrite lookup_insert_ne by done. apply Hs.
    + by intros ? [= <-].
  - split; [done|]. by intros ? [=].
Qed.

Lemma get_wildfires_sound_witness :
  exists r s',
    get_wildfires (world_of (Some fires) town) 2015 "CA" fresh_server = (r, s') /\
    cache_sound s' /\
    forall hotspots, r = Ok hotspots ->
      hotspots <> [] /\ Forall (fire_of 2015 "CA") hotspots.
Proof.
  eexists _, _. split; [vm_compute; reflexivity|].
  apply (get_wildfires_sound (world_of (Some fires) town) 2015 "CA" fresh_server).
  - by apply cache_sound_empty.
  - vm_compute. reflexivity.
Defined.

(** X4: [get_wildfires] fails exactly when nothing is cached for the year
    and the state and the data source fails or has no matching row; the
    failure is the 404 [HTTPException] and it caches nothing, so that the
    source is asked again by the next call.  In every other case a list is
    returned. *)
Theorem get_wildfires_not_found W year st s :
  (get_wildfires W year st s
   = (Raise (HTTPException 404
               "No wildfire data found for the specified year and state."), s)
   <-> wildfire_data_cache s !! wildfire_cache_key year st = None /\
       (database W = None \/
        exists rows, database W = Some rows /\
          Forall (fun r => ~ (FIRE_YEAR r = year /\ STATE r = st)) rows)) /\
  (forall r s', get_wildfires W year st s = (r, s') ->
     (exists hotspots, r = Ok hotspots) \/
     (r = Raise (HTTPException 404
                   "No wildfire data found for the specified year and state.") /\
      s' = s)).
Proof.
  split; [split|].
  - intros [(hs & _ & [=] & _)|[Hmiss [(f & l & _ & [=] & _)|([Hdb|Hdb] & _ & _)]]]%get_wildfires_inv;
      (split; [done|]).
    + left. unfold get_wildfire_data in Hdb. by destruct (database W).
    + right. by apply get_wildfire_data_nil.
  - intros [Hmiss Hdb]. unfold get_wildfires. fold (wildfire_cache_key year st).
    rewrite Hmiss. destruct Hdb as [Hdb|Hdb].
    + unfold get_wildfire_data. by rewrite Hdb.
    + apply get_wildfire_data_nil in Hdb. by rewrite Hdb.
  - intros r s' [(hs & _ & -> & _)|[_ [(f & l & _ & -> & _)|(_ & -> & ->)]]]%get_wildfires_inv;
      eauto.
Qed.

(** ** Requests served from the caches *)

Lemma bind_ext {A B} (m m' : M A) (k k' : A -> M B) s :
  m s = m' s -> (forall a s1, k a s1 = k' a s1) -> bind m k s = bind m' k' s.
Proof.
  intros Hm Hk. unfold bind. rewrite Hm.
  destruct (m' s) as [[a|e|] s1]; [apply Hk|done|done].
Qed.

Lemma ox_nearest_nodes_world W W' G X Y s :
  haversine W' = haversine W ->
  ox_nearest_nodes W' G X Y s = ox_nearest_nodes W G X Y s.
Proof. intros H. unfold ox_nearest_nodes. by rewrite H. Qed.

Lemma avoid_loop_world W W' G b radius zones :
  haversine W' = haversine W ->
  forall acc s,
    avoid_loop W' G b radius zones acc s = avoid_loop W G b radius zones acc s.
Proof.
  intros H. induction zones as [|[lon lat] zones IH]; intros acc s;
    cbn [avoid_loop]; [done|].
  destruct (in_bbox b lon lat); [|apply IH].
  apply bind_ext; [by apply ox_nearest_nodes_world|]. intros c s1.
  apply bind_ext; [done|]. intros H1 s2. apply IH.
Qed.

Lemma cached_graph_hit W b s G :
  graph_cache s !! graph_cache_key b = Some G -> cached_graph W b s = (Ok G, s).
Proof.
  destruct b as [[[north south] east] west]. unfold cached_graph. by intros ->.
Qed.

Lemma cached_graph_Ok_cached W b s G s' :
  cached_graph W b s = (Ok G, s') -> graph_cache s' !! graph_cache_key b = Some G.
Proof.
  intros [(G' & H & [= <-] & ->)|[_ [[_ H]|(g & _ & [= <-] & ->)]]]%cached_graph_inv.
  - done.
  - by destruct (H G).
  - simpl. apply lookup_insert_eq.
Qed.

(** With both caches filled, the set-up of a request reads neither the
    database nor the network provider. *)
Lemma route_setup_warm W W' request s hotspots G :
  wildfire_data_cache s !! "2015-CA" = Some hotspots ->
  graph_cache s !! graph_cache_key (request_bbox request) = Some G ->
  haversine W' = haversine W ->
  route_setup W' request s = route_setup W request s.
Proof.
  intros Hw Hg Hh. unfold route_setup.
  rewrite !(bind_Ok _ _ _ _ _ (get_wildfires_hit _ 2015 "CA" _ _ Hw)).
  rewrite !(bind_Ok _ _ _ _ _ (cached_graph_hit _ _ _ _ Hg)).
  apply bind_ext; [by apply avoid_loop_world|]. intros avoid s1.
  apply bind_ext; [done|]. intros G_safe s2.
  apply bind_ext; [done|]. intros [] s3.
  apply bind_ext; [by apply ox_nearest_nodes_world|]. intros sn s4.
  apply bind_ext; [by apply ox_nearest_nodes_world|]. done.
Qed.

(** The caches after a request that got as far as the search. *)
Lemma route_setup_caches W request s G avoid G_safe start_node end_node s' :
  route_setup W request s = (Ok (G, avoid, G_safe, start_node, end_node), s') ->
  (exists hotspots, wildfire_data_cache s' !! "2015-CA" = Some hotspots) /\
  graph_cache s' !! graph_cache_key (request_bbox request) = Some G.
Proof.
  intros E1.
  destruct (route_setup_Ok _ _ _ _ _ _ _ _ _ E1)
    as (hotspots & s1 & s2 & g & Hw & Hc & _ & _ & _ & -> & _).
  apply get_wildfires_Ok_cached in Hw.
  pose proof (cached_graph_Ok_cached _ _ _ _ _ Hc) as Hg.
  split; [|done]. exists hotspots. simpl.
  apply cached_graph_inv in Hc
    as [(G' & _ & _ & ->)|[_ [[-> _]|(g' & _ & _ & ->)]]]; done.
Qed.

(** X5: once a request has succeeded, every request whose bounding box has
    the same four-decimal key is answered from the two caches alone: the
    outcome is the same whatever the database and the network provider have
    become. *)
Theorem warm_caches_answer_alone W W' request request' s route s' :
  calculate_route W request s = (Ok route, s') ->
  graph_cache_key (request_bbox request') = graph_cache_key (request_bbox request) ->
  haversine W' = haversine W -> str_exn W' = str_exn W ->
  calculate_route W' request' s' = calculate_route W request' s'.
Proof.
  intros (G & avoid & G_safe & sn & en & path & E1 & _)%calculate_route_Ok_inv
    Hkey Hh Hstr.
  apply route_setup_caches in E1 as [[hotspots Hw] Hg]. rewrite <- Hkey in Hg.
  unfold calculate_route, calculate_route_body.
  assert (E : forall k : _ -> M (list (Q * Q)),
            bind (route_setup W' request') k s' = bind (route_setup W request') k s').
  { intros k. apply bind_ext; [|done]. by eapply route_setup_warm. }
  rewrite E. by rewrite Hstr.
Qed.

Lemma warm_caches_answer_alone_witness :
  exists route s',
    calculate_route (world_of (Some fires) town) across_town fresh_server
      = (Ok route, s') /\
    calculate_route (world_without_network None)
      {| start_lat := 0; start_lon := 100001 # 10000000;
         end_lat := 0; end_lon := 5 # 100 |} s'
    = calculate_route (world_of (Some fires) town)
        {| start_lat := 0; start_lon := 100001 # 10000000;
           end_lat := 0; end_lon := 5 # 100 |} s'.
Proof.
  eexists _, _. split; [by_compute|].
  eapply (warm_caches_answer_alone _ _ across_town _ fresh_server); by_compute.
Defined.

(** ** Running the set-up of a request forwards *)

Lemma avoid_loop_ext W G g b radius zones : forall acc s t,
  heap s !! G = Some g -> heap t !! G = Some g ->
  (avoid_loop W G b radius zones acc t).1 = (avoid_loop W G b radius zones acc s).1.
Proof.
  induction zones as [|[lon lat] zones IH]; intros acc s t Hs Ht; [done|].
  destruct (in_bbox b lon lat) eqn:Hin.
  2:{ cbn [avoid_loop]. rewrite Hin. by apply IH. }
  rewrite !(avoid_loop_step _ _ g) by done.
  destruct (nearest_nodes _ _ _ _) as [c|e|]; [|done|done].
  destruct (ego_graph g c radius) as [H|e|]; [|done|done]. by apply IH.
Qed.

Lemma avoid_loop_at W G g b radius zones acc s t avoid :
  heap s !! G = Some g -> heap t !! G = Some g ->
  avoid_loop W G b radius zones acc s = (Ok avoid, s) ->
  avoid_loop W G b radius zones acc t = (Ok avoid, t).
Proof.
  intros Hs Ht E.
  pose proof (avoid_loop_ext W G g b radius zones acc s t Hs Ht) as H.
  rewrite E in H. simpl in H.
  destruct (avoid_loop W G b radius zones acc t) as [r t'] eqn:E'.
  pose proof (stateless_eq _ _ _ _ (stateless_avoid_loop _ _ _ _ _ _) E') as ->.
  simpl in H. by subst.
Qed.

Lemma coords_loop_ext G g path : forall acc s t,
  heap s !! G = Some g -> heap t !! G = Some g ->
  (coords_loop G path acc t).1 = (coords_loop G path acc s).1.
Proof.
  induction path as [|n path IH]; intros acc s t Hs Ht; [done|].
  cbn [coords_loop].
  rewrite (bind_Ok _ _ _ _ _ (deref_Some _ _ _ Hs)).
  rewrite (bind_Ok _ _ _ _ _ (deref_Some _ _ _ Ht)).
  destruct (node_attr g n) as [[x y]|]; [by apply IH|done].
Qed.

Lemma coords_loop_at G g path acc s t route :
  heap s !! G = Some g -> heap t !! G = Some g ->
  coords_loop G path acc s = (Ok route, s) ->
  coords_loop G path acc t = (Ok route, t).
Proof.
  intros Hs Ht E.
  pose proof (coords_loop_ext G g path acc s t Hs Ht) as H.
  rewrite E in H. simpl in H.
  destruct (coords_loop G path acc t) as [r t'] eqn:E'.
  pose proof (stateless_eq _ _ _ _ (stateless_coords_loop _ _ _) E') as ->.
  simpl in H. by subst.
Qed.

(** The set-up of a request, once the hazards, the network and the excluded
    set are known: the copy is made, the nodes are removed from it and the
    two end points are projected on what is left. *)
Lemma route_setup_run W request s hotspots s1 G s2 g avoid :
  get_wildfires W 2015 "CA" s = (Ok hotspots, s1) ->
  cached_graph W (request_bbox request) s1 = (Ok G, s2) ->
  heap s2 !! G = Some g ->
  avoid_loop W G (request_bbox request) danger_radius_meters
    ((fun f => (longitude f, latitude f)) <$> hotspots) ∅ s2 = (Ok avoid, s2) ->
  route_setup W request s =
  let g_safe := remove_nodes_from g (elements avoid) in
  match nearest_nodes (haversine W) g_safe (start_lon request) (start_lat request) with
  | Ok start_node =>
      match nearest_nodes (haversine W) g_safe (end_lon request) (end_lat request) with
      | Ok end_node =>
          (Ok (G, avoid, fresh (dom (heap s2)), start_node, end_node),
           with_safe s2 g_safe)
      | Raise e => (Raise e, with_safe s2 g_safe)
      | Diverge => (Diverge, with_safe s2 g_safe)
      end
  | Raise e => (Raise e, with_safe s2 g_safe)
  | Diverge => (Diverge, with_safe s2 g_safe)
  end.
Proof.
  intros Hw Hc Hg Ha. unfold route_setup.
  rewrite (bind_Ok _ _ _ _ _ Hw), (bind_Ok _ _ _ _ _ Hc), (bind_Ok _ _ _ _ _ Ha).
  assert (Hcopy : graph_copy G s2 = (Ok (fresh (dom (heap s2))), with_safe s2 g)).
  { unfold graph_copy. by rewrite (bind_Ok _ _ _ _ _ (deref_Some _ _ _ Hg)). }
  rewrite (bind_Ok _ _ _ _ _ Hcopy).
  rewrite (bind_Ok _ _ _ _ _ (graph_remove_safe _ _ _)).
  simpl. unfold bind at 1.
  rewrite (ox_nearest_nodes_eq _ _ _ _ _ _ (with_safe_lookup _ _)).
  destruct (nearest_nodes _ _ (start_lon request) _) as [sn|e|]; [|done|done].
  unfold bind at 1.
  rewrite (ox_nearest_nodes_eq _ _ _ _ _ _ (with_safe_lookup _ _)).
  by destruct (nearest_nodes _ _ (end_lon request) _) as [en|e|].
Qed.

(** X6: a request that succeeded gives the same route when it is repeated:
    the hazards and the network come from the caches, and the network is as
    it was, the first request having removed nodes from its own copy only. *)
Theorem repeated_request_same_route W request s route s' :
  calculate_route W request s = (Ok route, s') ->
  exists s'', calculate_route W request s' = (Ok route, s'').
Proof.
  intros (G & avoid & G_safe & sn & en & path & E1 & E2 & E3)%calculate_route_Ok_inv.
  destruct (route_setup_Ok _ _ _ _ _ _ _ _ _ E1)
    as (hotspots & s1 & s2 & g & Hw & Hc & Hg & Ha & -> & -> & Hsn & Hen).
  rewrite (nx_astar_path_eq _ _ _ _ _ (with_safe_lookup _ _)) in E2.
  injection E2 as E2.
  set (g_safe := remove_nodes_from g (elements avoid)) in *.
  set (s' := with_safe s2 g_safe) in *.
  assert (Hg' : heap s' !! G = Some g) by by apply with_safe_lookup_old.
  assert (Hw' : get_wildfires W 2015 "CA" s' = (Ok hotspots, s')).
  { apply get_wildfires_hit. apply get_wildfires_Ok_cached in Hw.
    apply cached_graph_inv in Hc
      as [(G' & _ & _ & ->)|[_ [[-> _]|(g' & _ & _ & ->)]]]; done. }
  assert (Hc' : cached_graph W (request_bbox request) s' = (Ok G, s')).
  { apply cached_graph_hit. by apply cached_graph_Ok_cached in Hc. }
  pose proof (avoid_loop_at _ _ _ _ _ _ _ _ s' _ Hg Hg' Ha) as Ha'.
  pose proof (route_setup_run _ _ _ _ _ _ _ _ _ Hw' Hc' Hg' Ha') as E1'.
  simpl in E1'. fold g_safe in E1'. rewrite Hsn, Hen in E1'.
  exists (with_safe s' g_safe). apply calculate_route_Ok.
  assert (En : nx_astar_path (fresh (dom (heap s'))) sn en (with_safe s' g_safe)
               = (Ok path, with_safe s' g_safe)).
  { by rewrite (nx_astar_path_eq _ _ _ _ _ (with_safe_lookup _ _)), E2. }
  unfold calculate_route_body.
  rewrite (bind_Ok _ _ _ _ _ E1'), (bind_Ok _ _ _ _ _ En).
  eapply (coords_loop_at _ g); [exact Hg'|by apply with_safe_lookup_old|exact E3].
Qed.

Lemma repeated_request_same_route_witness :
  exists route s' s'',
    calculate_route (world_of (Some fires) town) across_town fresh_server
      = (Ok route, s') /\
    calculate_route (world_of (Some fires) town) across_town s' = (Ok route, s'').
Proof.
  eexists _, _.
  edestruct (repeated_request_same_route (world_of (Some fires) town) across_town
               fresh_server) as [s'' H]; [by_compute|].
  exists s''. split; [by_compute|exact H].
Defined.

(** ** Failures of the set-up *)

(** X7: when the network of the bounding box is not cached and the provider
    fails, [calculate_route] answers with the 500 [HTTPException] that
    carries the provider's message; the hazards stay cached, no network is
    cached and no graph object is created. *)
Theorem network_failure_is_internal_error W request s hotspots s1 e :
  get_wildfires W 2015 "CA" s = (Ok hotspots, s1) ->
  graph_cache s !! graph_cache_key (request_bbox request) = None ->
  (let '(north, south, east, west) := request_bbox request in
   graph_from_bbox W north south east west) = Raise e ->
  e <> NetworkXNoPath ->
  calculate_route W request s
  = (Raise (HTTPException 500
              ("An internal server error occurred: " +:+ str_exn W e)), s1) /\
  graph_cache s1 = graph_cache s /\ heap s1 = heap s.
Proof.
  intros Hw Hmiss Hp He.
  destruct (get_wildfires_state _ _ _ _ _ _ Hw) as [Hheap Hcache].
  split; [|done].
  assert (Hc : cached_graph W (request_bbox request) s1 = (Raise e, s1)).
  { destruct (request_bbox request) as [[[north south] east] west] eqn:Eb.
    unfold cached_graph. rewrite Hcache, Hmiss.
    unfold bind, lift. by rewrite Hp. }
  assert (E : calculate_route_body W request s = (Raise e, s1)).
  { unfold calculate_route_body. apply bind_Raise. unfold route_setup.
    rewrite (bind_Ok _ _ _ _ _ Hw). by apply bind_Raise. }
  unfold calculate_route. rewrite E. by destruct e.
Qed.

Lemma network_failure_is_internal_error_witness :
  exists s1,
    calculate_route (world_without_network (Some fires)) across_town fresh_server
    = (Raise (HTTPException 500 "An internal server error occurred: "), s1) /\
    graph_cache s1 = ∅ /\ heap s1 = ∅.
Proof.
  eexists.
  eapply (network_failure_is_internal_error (world_without_network (Some fires))
            across_town fresh_server _ _ ProviderError);
    [by_compute|by_compute|by_compute|discriminate].
Defined.

Lemma remove_all_nodes g (avoid : gset node) :
  (forall n, n ∈ node_ids g -> n ∈ avoid) ->
  nodes (remove_nodes_from g (elements avoid)) = [].
Proof.
  intros Hall. unfold remove_nodes_from. simpl.
  apply filter_nil_Forall, Forall_forall. intros [n a] Hin Hn. apply Hn. simpl.
  apply elem_of_elements, Hall, list_elem_of_fmap. by exists (n, a).
Qed.

(** X8: when every node of the network lies in a danger zone, the safe copy
    is empty, the projection of the start point fails, and [calculate_route]
    answers with the 500 [HTTPException], not with the 404 one of a
    destination that cannot be reached. *)
Theorem engulfed_network_is_internal_error W request s hotspots s1 G s2 g avoid :
  get_wildfires W 2015 "CA" s = (Ok hotspots, s1) ->
  cached_graph W (request_bbox request) s1 = (Ok G, s2) ->
  heap s2 !! G = Some g ->
  avoid_loop W G (request_bbox request) danger_radius_meters
    ((fun f => (longitude f, latitude f)) <$> hotspots) ∅ s2 = (Ok avoid, s2) ->
  (forall n, n ∈ node_ids g -> n ∈ avoid) ->
  exists s',
    calculate_route W request s
    = (Raise (HTTPException 500
                ("An internal server error occurred: " +:+ str_exn W ValueError)),
       s').
Proof.
  intros Hw Hc Hg Ha Hall.
  pose proof (route_setup_run _ _ _ _ _ _ _ _ _ Hw Hc Hg Ha) as E1.
  simpl in E1. unfold nearest_nodes in E1 at 1.
  rewrite (remove_all_nodes _ _ Hall) in E1.
  eexists. unfold calculate_route, calculate_route_body.
  by rewrite (bind_Raise _ _ _ _ _ E1).
Qed.

Lemma engulfed_network_is_internal_error_witness :
  exists s',
    calculate_route (world_of (Some fires) hamlet)
      {| start_lat := 0; start_lon := 3 # 100; end_lat := 1 # 100; end_lon := 3 # 100 |}
      fresh_server
    = (Raise (HTTPException 500 "An internal server error occurred: "), s').
Proof.
  eapply (engulfed_network_is_internal_error (world_of (Some fires) hamlet) _
            fresh_server _ _ _ _ hamlet {[1%Z; 2%Z]}).
  - by_compute.
  - by_compute.
  - by_compute.
  - by_compute.
  - intros n Hn. vm_compute in Hn.
    apply elem_of_cons in Hn as [->|Hn]; [set_solver|].
    apply elem_of_cons in Hn as [->|Hn]; [set_solver|].
    by apply elem_of_nil in Hn.
Defined.

(** ** A request from a point to itself *)

Lemma astar_path_same G n : n ∈ node_ids G -> astar_path G n n = Ok [n].
Proof.
  intros Hn%has_node_true. unfold astar_path. rewrite Hn. cbn [negb orb].
  unfold search_fuel, astar_init. cbn [astar_loop a_queue heappop].
  unfold qnode. simpl. by rewrite Z.eqb_refl.
Qed.

(** X9: a request whose start and end are the same point is not rejected:
    when it is answered, the route is one point, the position of a node of
    the cached network. *)
Theorem same_point_gives_one_point_route W request s route s' :
  start_lat request = end_lat request ->
  start_lon request = end_lon request ->
  calculate_route W request s = (Ok route, s') ->
  exists G g n x y,
    graph_cache s' !! graph_cache_key (request_bbox request) = Some G /\
    heap s' !! G = Some g /\ node_attr g n = Some (x, y) /\ route = [(y, x)].
Proof.
  intros Hlat Hlon
    (G & avoid & G_safe & sn & en & path & E1 & E2 & E3)%calculate_route_Ok_inv.
  pose proof (route_setup_caches _ _ _ _ _ _ _ _ _ E1) as [_ Hcache].
  destruct (route_setup_Ok _ _ _ _ _ _ _ _ _ E1)
    as (hotspots & s1 & s2 & g & Hw & Hc & Hg & Ha & -> & -> & Hsn & Hen).
  rewrite (nx_astar_path_eq _ _ _ _ _ (with_safe_lookup _ _)) in E2.
  injection E2 as E2.
  rewrite <- Hlat, <- Hlon, Hsn in Hen. injection Hen as <-.
  rewrite (astar_path_same _ _ (nearest_nodes_node _ _ _ _ _ Hsn)) in E2.
  injection E2 as <-.
  pose proof (with_safe_lookup_old s2 (remove_nodes_from g (elements avoid)) _ _ Hg)
    as Hg'.
  destruct (coords_loop_Ok _ _ _ _ _ _ _ Hg' E3) as (r & -> & Hr).
  apply Forall2_cons_inv_l in Hr as (c & r' & (x & y & Hattr & ->) & Hr' & ->).
  apply Forall2_nil_inv_l in Hr' as ->.
  exists G, g, sn, x, y. done.
Qed.

Lemma same_point_gives_one_point_route_witness :
  exists route s',
    calculate_route (world_of (Some fires) town)
      {| start_lat := 0; start_lon := 1 # 100; end_lat := 0; end_lon := 1 # 100 |}
      fresh_server = (Ok route, s') /\
    exists G g n x y,
      graph_cache s' !! graph_cache_key (request_bbox
        {| start_lat := 0; start_lon := 1 # 100; end_lat := 0; end_lon := 1 # 100 |})
        = Some G /\
      heap s' !! G = Some g /\ node_attr g n = Some (x, y) /\ route = [(y, x)].
Proof.
  eexists _, _. split; [by_compute|].
  apply (same_point_gives_one_point_route (world_of (Some fires) town) _ fresh_server);
    by_compute.
Defined.

(** ** The excluded set, exactly *)

Lemma avoid_loop_exact W G g b radius s :
  heap s !! G = Some g -> wf_graph g -> nodes g <> [] -> 0 <= radius ->
  forall zones (acc : gset node),
  exists avoid,
    avoid_loop W G b radius zones acc s = (Ok avoid, s) /\
    forall n, n ∈ avoid <->
      n ∈ acc \/
      exists lon lat center_node es,
        (lon, lat) ∈ zones /\ in_bbox b lon lat = true /\
        nearest_nodes (haversine W) g lon lat = Ok center_node /\
        is_walk (graph_edge g) center_node es n /\ walk_length es <= radius.
Proof.
  intros HG Hwf Hne Hr. induction zones as [|[lon lat] zones IH]; intros acc.
  - exists acc. split; [done|]. intros n. split; [by left|].
    intros [?|(? & ? & ? & ? & []%elem_of_nil & _)]. done.
  - destruct (in_bbox b lon lat) eqn:Hin.
    + rewrite (avoid_loop_step _ _ g) by done.
      destruct (nearest_nodes_total (haversine W) g lon lat Hne) as [c Hc].
      rewrite Hc.
      destruct (ego_graph_nodes g c radius Hwf (nearest_nodes_node _ _ _ _ _ Hc) Hr)
        as (H & -> & Hnodes).
      destruct (IH (acc ∪ list_to_set (node_ids H))) as (avoid & -> & Havoid).
      exists avoid. split; [done|]. intros n. rewrite Havoid.
      rewrite elem_of_union, elem_of_list_to_set, Hnodes. split.
      * intros [[?|(es & ? & ?)]|(lon' & lat' & c' & es & ? & ?)].
        -- by left.
        -- right. exists lon, lat, c, es. split; [left|done].
        -- right. exists lon', lat', c', es. split; [by right|done].
      * intros [?|(lon' & lat' & c' & es & [[= -> ->]|?]%elem_of_cons & ? & Hc' & ?)].
        -- left. by left.
        -- left. right. rewrite Hc in Hc'. injection Hc' as <-. by exists es.
        -- right. exists lon', lat', c', es. done.
    + cbn [avoid_loop]. rewrite Hin.
      destruct (IH acc) as (avoid & -> & Havoid).
      exists avoid. split; [done|]. intros n. rewrite Havoid. split.
      * intros [?|(lon' & lat' & c' & es & ? & ?)]; [by left|].
        right. exists lon', lat', c', es. split; [by right|done].
      * intros [?|(lon' & lat' & c' & es & [[= -> ->]|?]%elem_of_cons & Hin' & ?)].
        -- by left.
        -- congruence.
        -- right. exists lon', lat', c', es. done.
Qed.

(** X10: on a network with at least one node, unique node ids and
    non-negative lengths, the loop over the danger zones never fails, and
    the excluded nodes are exactly those that a directed walk of total length
    at most the radius reaches from the node nearest to a hazard lying
    strictly inside the bounding box. *)
Theorem excluded_nodes_exactly W G g b radius zones s :
  heap s !! G = Some g -> wf_graph g -> nodes g <> [] -> 0 <= radius ->
  exists nodes_to_avoid,
    avoid_loop W G b radius zones ∅ s = (Ok nodes_to_avoid, s) /\
    forall n, n ∈ nodes_to_avoid <->
      exists lon lat center_node es,
        (lon, lat) ∈ zones /\ in_bbox b lon lat = true /\
        nearest_nodes (haversine W) g lon lat = Ok center_node /\
        is_walk (graph_edge g) center_node es n /\ walk_length es <= radius.
Proof.
  intros HG Hwf Hne Hr.
  destruct (avoid_loop_exact W G g b radius s HG Hwf Hne Hr zones ∅)
    as (avoid & E & H).
  exists avoid. split; [done|]. intros n. rewrite H. split; [|by right].
  intros [[]%elem_of_empty|?]. done.
Qed.

Lemma excluded_nodes_exactly_witness :
  exists nodes_to_avoid,
    avoid_loop (world_of (Some fires) town) 1%positive (request_bbox across_town)
      1000 [(3 # 100, 0)] ∅ (with_safe fresh_server town)
      = (Ok nodes_to_avoid, with_safe fresh_server town) /\
    forall n, n ∈ nodes_to_avoid <->
      exists lon lat center_node es,
        (lon, lat) ∈ [(3 # 100, 0)] /\
        in_bbox (request_bbox across_town) lon lat = true /\
        nearest_nodes flat_metric town lon lat = Ok center_node /\
        is_walk (graph_edge town) center_node es n /\ walk_length es <= 1000.
Proof.
  apply (excluded_nodes_exactly (world_of (Some fires) town) 1%positive town).
  - by_compute.
  - by_decide.
  - discriminate.
  - by_decide.
Defined.

(** ** The caches *)

Lemma same_caches_refl s : same_caches s s.
Proof. done. Qed.

Lemma keeps_caches_stateless {A} (m : M A) : stateless m -> keeps_caches m.
Proof. intros H s r s' ->%(stateless_eq _ _ _ _ H). done. Qed.

Lemma keeps_caches_bind {A B} (m : M A) (k : A -> M B) :
  keeps_caches m -> (forall a, keeps_caches (k a)) -> keeps_caches (bind m k).
Proof.
  intros Hm Hk s r s' [(a & s1 & E1 & E2)|[(e & E1 & _)|(E1 & _)]]%bind_inv;
    [|by eapply Hm..].
  destruct (Hm _ _ _ E1) as [H1 H2]. destruct (Hk _ _ _ _ E2) as [H3 H4].
  split; congruence.
Qed.

Lemma keeps_caches_graph_copy G : keeps_caches (graph_copy G).
Proof.
  intros s r s' [(_ & _ & ->)|(g & _ & _ & ->)]%graph_copy_inv; done.
Qed.

Lemma keeps_caches_graph_remove G ns : keeps_caches (graph_remove_nodes_from G ns).
Proof.
  intros s r s'. unfold graph_remove_nodes_from.
  destruct (heap s !! G); by intros [= <- <-].
Qed.

Lemma footprint_refl kw kg s : footprint kw kg s s.
Proof. done. Qed.

Lemma footprint_trans kw kg s1 s2 s3 :
  footprint kw kg s1 s2 -> footprint kw kg s2 s3 -> footprint kw kg s1 s3.
Proof.
  intros (A1 & A2 & A3 & A4) (B1 & B2 & B3 & B4). repeat split.
  - intros k Hk. by rewrite B1, A1.
  - intros k Hk. by rewrite B2, A2.
  - eauto.
  - eauto.
Qed.

Lemma footprint_same kw kg s s' : same_caches s s' -> footprint kw kg s s'.
Proof. intros [H1 H2]. unfold footprint. rewrite H1, H2. done. Qed.

Lemma footprint_get_wildfires W year st kg s r s' :
  get_wildfires W year st s = (r, s') ->
  footprint (wildfire_cache_key year st) kg s s'.
Proof.
  intros [(hs & _ & _ & ->)|[Hmiss [(f & l & _ & _ & ->)|(_ & _ & ->)]]]%get_wildfires_inv;
    [apply footprint_refl| |apply footprint_refl].
  repeat split; simpl; try done.
  - intros k Hk. by rewrite lookup_insert_ne.
  - intros k hs Hk. rewrite lookup_insert_ne; [done|]. congruence.
Qed.

Lemma footprint_cached_graph W b kw s r s' :
  cached_graph W b s = (r, s') -> footprint kw (graph_cache_key b) s s'.
Proof.
  intros [(G & _ & _ & ->)|[Hmiss [[-> _]|(g & _ & _ & ->)]]]%cached_graph_inv;
    [apply footprint_refl..|].
  repeat split; simpl; try done.
  - intros k Hk. by rewrite lookup_insert_ne.
  - intros k G Hk. rewrite lookup_insert_ne; [done|]. congruence.
Qed.

Lemma footprint_route_setup W request s r s' :
  route_setup W request s = (r, s') ->
  footprint "2015-CA" (graph_cache_key (request_bbox request)) s s'.
Proof.
  unfold route_setup. intros H. simpl in H.
  apply bind_inv in H as [(hotspots & s1 & E1 & H)|[(e & E1 & _)|(E1 & _)]];
    [|by eapply (footprint_get_wildfires _ 2015 "CA")..].
  eapply footprint_trans; [by eapply (footprint_get_wildfires _ 2015 "CA")|].
  apply bind_inv in H as [(G & s2 & E2 & H)|[(e & E2 & _)|(E2 & _)]];
    [|by eapply footprint_cached_graph..].
  eapply footprint_trans; [by eapply footprint_cached_graph|].
  apply footprint_same. revert H. apply keeps_caches_bind.
  { apply keeps_caches_stateless, stateless_avoid_loop. }
  intros avoid. apply keeps_caches_bind; [apply keeps_caches_graph_copy|].
  intros G_safe. apply keeps_caches_bind; [apply keeps_caches_graph_remove|].
  intros []. apply keeps_caches_stateless.
  apply stateless_bind; [apply stateless_ox_nearest_nodes|]. intros sn.
  apply stateless_bind; [apply stateless_ox_nearest_nodes|]. intros en.
  apply stateless_ret.
Qed.

Lemma footprint_calculate_route_body W request s r s' :
  calculate_route_body W request s = (r, s') ->
  footprint "2015-CA" (graph_cache_key (request_bbox request)) s s'.
Proof.
  unfold calculate_route_body. intros H.
  apply bind_inv in H as [(x & s1 & E1 & H)|[(e & E1 & _)|(E1 & _)]];
    [|by eapply footprint_route_setup..].
  destruct x as [[[[G avoid] G_safe] sn] en].
  apply stateless_eq in H as ->; [by eapply footprint_route_setup|].
  apply stateless_bind; [apply stateless_nx_astar_path|]. intros path.
  apply stateless_coords_loop.
Qed.

(** X11: whatever its outcome, a request changes the caches at most at two
    keys, the hazard key of 2015 and CA and the key of its own bounding box,
    and it never replaces an entry that was there: the hazards and the
    networks cached for other requests stay as they are. *)
Theorem request_touches_its_own_keys W request s :
  let s' := (calculate_route W request s).2 in
  (forall k, k <> "2015-CA" ->
     wildfire_data_cache s' !! k = wildfire_data_cache s !! k) /\
  (forall k, k <> graph_cache_key (request_bbox request) ->
     graph_cache s' !! k = graph_cache s !! k) /\
  (forall k hotspots, wildfire_data_cache s !! k = Some hotspots ->
     wildfire_data_cache s' !! k = Some hotspots) /\
  (forall k G, graph_cache s !! k = Some G -> graph_cache s' !! k = Some G).
Proof.
  simpl. rewrite calculate_route_state.
  destruct (calculate_route_body W request s) as [r s'] eqn:E.
  by apply footprint_calculate_route_body in E.
Qed.

(** ** The danger zones of the script *)

Lemma danger_zones_loop_spec all_fires : forall acc,
  (length acc < 3)%nat ->
  danger_zones_loop all_fires acc
  = take 3 (acc ++ ((fun f => (longitude f, latitude f))
                      <$> filter (fun f => near_berkeley f = true) all_fires)).
Proof.
  induction all_fires as [|f l IH]; intros acc Hacc; cbn [danger_zones_loop].
  - rewrite filter_nil, fmap_nil, app_nil_r. symmetry. apply take_ge. lia.
  - destruct (near_berkeley f) eqn:Hf.
    + rewrite (filter_cons_True (fun f => near_berkeley f = true)) by done.
      rewrite fmap_cons.
      rewrite (cons_middle _ acc (_ <$> filter _ l)), (app_assoc acc [_] (_ <$> _)).
      destruct (3 <=? length (acc ++ [(longitude f, latitude f)]))%nat eqn:E.
      * apply Nat.leb_le in E. rewrite length_app in E. simpl in E.
        rewrite take_app_length'; [done|]. rewrite length_app. simpl. lia.
      * apply Nat.leb_gt in E. by apply IH.
    + rewrite (filter_cons_False (fun f => near_berkeley f = true))
        by (rewrite Hf; done).
      by apply IH.
Qed.

(** X12: the script routes around the first three fires of the data set
    that lie in the box around Berkeley, in the order of the data set, or,
    when there is none (or no data at all), around its two dummy zones; so
    there are always between one and three danger zones. *)
Theorem danger_zones_first_three all_fires :
  let near := (fun f => (longitude f, latitude f))
                <$> filter (fun f => near_berkeley f = true) (default [] all_fires) in
  DANGER_ZONES all_fires
  = (if decide (near = [])
     then [(-12226 # 100, 3786 # 100); (-12225 # 100, 3785 # 100)]
     else take 3 near) /\
  (1 <= length (DANGER_ZONES all_fires) <= 3)%nat.
Proof.
  simpl.
  set (near := (fun f : fire => (longitude f, latitude f)) <$> _).
  assert (E : match all_fires with
              | Some (fire :: rest) => danger_zones_loop (fire :: rest) []
              | _ => []
              end = take 3 near).
  { unfold near. destruct all_fires as [[|f l]|]; [done| |done].
    rewrite danger_zones_loop_spec by (simpl; lia). done. }
  unfold DANGER_ZONES. rewrite E.
  destruct near as [|z near]; [split; [done|simpl; lia]|].
  rewrite decide_False by done. split; [done|].
  cbn [take]. rewrite length_cons, length_take. lia.
Qed.

(** ** The script, step by step *)

Lemma stateless_script_avoid_loop W G zones : forall acc,
  stateless (script_avoid_loop W G zones acc).
Proof.
  induction zones as [|[lon lat] zones IH]; intros acc; simpl.
  - apply stateless_ret.
  - apply stateless_bind; [apply stateless_ox_nearest_nodes|]. intros c.
    apply stateless_bind; [apply stateless_nx_ego_graph|]. intros H. apply IH.
Qed.



Lemma new_graph_eq g s : new_graph g s = (Ok (fresh (dom (heap s))), with_safe s g).
Proof. done. Qed.

Lemma script_setup_Ok W graph_from_place s G avoid G_safe start_node end_node s' :
  script_setup W graph_from_place s
    = (Ok (G, avoid, G_safe, start_node, end_node), s') ->
  exists g,
    graph_from_place = Ok g /\ G = fresh (dom (heap s)) /\
    script_avoid_loop W G (DANGER_ZONES (get_wildfire_data (database W) 2015 "CA"))
      ∅ (with_safe s g) = (Ok avoid, with_safe s g) /\
    G_safe = fresh (dom (heap (with_safe s g))) /\
    s' = with_safe (with_safe s g) (remove_nodes_from g (elements avoid)) /\
    nearest_nodes (haversine W) (remove_nodes_from g (elements avoid))
      START_POINT.2 START_POINT.1 = Ok start_node /\
    nearest_nodes (haversine W) (remove_nodes_from g (elements avoid))
      END_POINT.2 END_POINT.1 = Ok end_node.
Proof.
  unfold script_setup.
  intros (g & s0 & E0 & H)%bind_Ok_inv.
  unfold lift in E0. injection E0 as -> <-.
  apply bind_Ok_inv in H as (G' & s1 & E1 & H).
  rewrite new_graph_eq in E1. injection E1 as <- <-.
  apply bind_Ok_inv in H as (avoid' & s3 & E3 & H).
  pose proof (stateless_eq _ _ _ _ (stateless_script_avoid_loop _ _ _ _) E3) as ->.
  apply bind_Ok_inv in H as (G_safe' & s3 & E4 & H).
  apply graph_copy_inv in E4 as [(_ & [=] & _)|(g' & Hg & [= ->] & ->)].
  rewrite with_safe_lookup in Hg. injection Hg as <-.
  apply bind_Ok_inv in H as ([] & s4 & E5 & H).
  change (<[fresh (dom (heap s)) := g]> (heap s)) with (heap (with_safe s g)) in *.
  rewrite graph_remove_safe in E5. injection E5 as <-.
  apply bind_Ok_inv in H as (sn & s5 & E6 & H).
  rewrite (ox_nearest_nodes_eq _ _ _ _ _ _ (with_safe_lookup _ _)) in E6.
  injection E6 as E6 <-.
  apply bind_Ok_inv in H as (en & s6 & E7 & H).
  rewrite (ox_nearest_nodes_eq _ _ _ _ _ _ (with_safe_lookup _ _)) in E7.
  injection E7 as E7 <-.
  injection H as <- <- <- <- <-.
  exists g. done.
Qed.


(** X13: when the script saves a map, the route drawn on it follows a path
    found in the copy of the network from which the nodes of the danger
    zones were removed: no node of the path is within the danger radius of
    a zone, and the zones drawn are the ones routed around. *)
Theorem script_route_avoids_danger_zones
    W F graph_from_place s route_coords danger_zones s' :
  generate_evacuation_route W F graph_from_place s
    = (Ok (MapSaved route_coords danger_zones), s') ->
  exists g nodes_to_avoid path,
    graph_from_place = Ok g /\
    danger_zones = DANGER_ZONES (get_wildfire_data (database W) 2015 "CA") /\
    script_avoid_loop W (fresh (dom (heap s))) danger_zones ∅ (with_safe s g)
      = (Ok nodes_to_avoid, with_safe s g) /\
    route_of g path route_coords /\
    Forall (fun n => n ∉ nodes_to_avoid) path.
Proof.
  unfold generate_evacuation_route.
  intros ([[[[G avoid] G_safe] sn] en] & s1 & E1 & H)%bind_Ok_inv.
  cbv zeta in H.
  destruct (bind (nx_astar_path G_safe sn en) _ s1) as [[route|e|] s2] eqn:E;
    [|by destruct e|done].
  injection H as <- <- <-.
  apply bind_Ok_inv in E as (path & s3 & E2 & E).
  pose proof (stateless_eq _ _ _ _ (stateless_nx_astar_path _ _ _) E2) as ->.
  apply bind_Ok_inv in E as ([] & s3 & Em & E).
  pose proof (stateless_eq _ _ _ _ (stateless_lift _) Em) as ->.
  apply bind_Ok_inv in E as (route' & s3 & E3 & E).
  pose proof (stateless_eq _ _ _ _ (stateless_coords_loop _ _ _) E3) as ->.
  apply bind_Ok_inv in E as ([] & s3 & Ed & E).
  pose proof (stateless_eq _ _ _ _ (stateless_lift _) Ed) as ->.
  injection E as -> <-.
  apply script_setup_Ok in E1 as (g & -> & -> & Ha & -> & -> & Hsn & Hen).
  rewrite (nx_astar_path_eq _ _ _ _ _ (with_safe_lookup _ _)) in E2.
  injection E2 as E2.
  assert (Hg : heap (with_safe (with_safe s g)
                       (remove_nodes_from g (elements avoid)))
               !! fresh (dom (heap s)) = Some g).
  { apply with_safe_lookup_old, with_safe_lookup. }
  destruct (coords_loop_Ok _ _ _ _ _ _ _ Hg E3) as (r & -> & Hr).
  exists g, avoid, path. split; [done|]. split; [done|]. split; [done|].
  split; [done|].
  eapply safe_path_not_excluded; [|exact E2]. by eapply nearest_nodes_node.
Qed.

Lemma script_route_avoids_danger_zones_witness :
  exists route_coords danger_zones s',
    generate_evacuation_route (world_of (Some berkeley_fires) berkeley)
      folium_at_work (Ok berkeley) fresh_server
      = (Ok (MapSaved route_coords danger_zones), s') /\
    exists g nodes_to_avoid path,
      Ok berkeley = Ok g /\
      danger_zones = DANGER_ZONES (get_wildfire_data (Some berkeley_fires) 2015 "CA") /\
      script_avoid_loop (world_of (Some berkeley_fires) berkeley)
        (fresh (dom (heap fresh_server))) danger_zones ∅ (with_safe fresh_server g)
        = (Ok nodes_to_avoid, with_safe fresh_server g) /\
      route_of g path route_coords /\
      Forall (fun n => n ∉ nodes_to_avoid) path.
Proof.
  eexists _, _, _. split; [by_compute|].
  eapply (script_route_avoids_danger_zones (world_of (Some berkeley_fires) berkeley)
            folium_at_work (Ok berkeley) fresh_server).
  by_compute.
Defined.



(** ** The prediction endpoint *)

Lemma and_then_Ok_inv {A B} (r : result A) (k : A -> result B) b :
  and_then r k = Ok b -> exists a, r = Ok a /\ k a = Ok b.
Proof. destruct r as [a|e|]; [|done..]. simpl. eauto. Qed.

Lemma predict_body_Ok V model image_bytes prediction_result :
  predict_body V model image_bytes = Ok prediction_result ->
  exists input_data prob_nofire confidence_fire,
    predict V model input_data = Ok (prob_nofire, confidence_fire) /\
    prediction_result
    = <["prediction" := if Qltb (1 # 2) confidence_fire
                        then "Fire Detected" else "No Fire Detected"]>
        (<["confidence" := format_2pct confidence_fire]> ∅).
Proof.
  unfold predict_body.
  intros (image_np & _ & H)%and_then_Ok_inv.
  apply and_then_Ok_inv in H as (image_np' & _ & H).
  apply and_then_Ok_inv in H as (resized_array & _ & H).
  apply and_then_Ok_inv in H as ([p0 p1] & Hp & H).
  injection H as <-. eauto.
Qed.

(** X15: when the network cannot be loaded at start-up, the server runs all
    the same and no upload is ever passed to a network.  An upload declared
    as an image is answered with the 500 [HTTPException] "Model is not
    loaded."; the content type is tested first, so an upload of another
    declared type still gets the 400 one, and an upload that declares no
    content type makes the endpoint raise [AttributeError], which it does
    not catch. *)
Theorem unloaded_model_is_reported V e file :
  load_model V = Raise e ->
  serve_upload V file
  = match content_type file with
    | None => Raise AttributeError
    | Some content_type =>
        if String.prefix "image/" content_type
        then Raise (HTTPException 500 "Model is not loaded.")
        else Raise (HTTPException 400 "File must be an image.")
    end.
Proof.
  intros H. unfold serve_upload, load_wildfire_model. rewrite H. simpl.
  unfold predict_wildfire. destruct (content_type file) as [ct|]; [|done].
  by destruct (String.prefix _ _).
Qed.

Lemma unloaded_model_is_reported_witness :
  serve_upload vision_without_network
    {| content_type := Some "image/png"; file_read := [] |}
  = Raise (HTTPException 500 "Model is not loaded.").
Proof.
  apply (unloaded_model_is_reported vision_without_network ValueError
           {| content_type := Some "image/png"; file_read := [] |}).
  reflexivity.
Defined.

(** X16: the outcomes of the prediction endpoint.  An answer is given only
    for an upload declared as an image, with the network loaded, and carries
    the label "Fire Detected" exactly when the fire probability returned by
    the network exceeds one half, together with that probability as a
    percentage.  A failure is the uncaught [AttributeError] for an upload
    that declares no content type, the 400 [HTTPException] for a declared
    type that is not an image, and otherwise the 500 one, for a missing
    network or for an exception raised while the image is processed. *)
Theorem predict_wildfire_outcomes V WILDFIRE_MODEL file :
  match predict_wildfire V WILDFIRE_MODEL file with
  | Ok prediction_result =>
      (exists declared,
         content_type file = Some declared /\
         String.prefix "image/" declared = true) /\
      exists model input_data prob_nofire confidence_fire,
        WILDFIRE_MODEL = Some model /\
        predict V model input_data = Ok (prob_nofire, confidence_fire) /\
        (1 # 2 < confidence_fire ->
         prediction_result !! "prediction" = Some "Fire Detected") /\
        (confidence_fire <= 1 # 2 ->
         prediction_result !! "prediction" = Some "No Fire Detected") /\
        prediction_result !! "confidence" = Some (format_2pct confidence_fire) /\
        prediction_result !! "error" = None
  | Raise e =>
      (content_type file = None /\ e = AttributeError) \/
      (exists declared,
         content_type file = Some declared /\
         String.prefix "image/" declared = false /\
         e = HTTPException 400 "File must be an image.") \/
      (exists declared,
         content_type file = Some declared /\
         String.prefix "image/" declared = true /\
         ((WILDFIRE_MODEL = None /\ e = HTTPException 500 "Model is not loaded.") \/
          exists model e0,
            WILDFIRE_MODEL = Some model /\
            predict_body V model (file_read file) = Raise e0 /\
            e = HTTPException 500 ("Error processing image: " +:+ str_error V e0)))
  | Diverge => True
  end.
Proof.
  unfold predict_wildfire.
  destruct (content_type file) as [ct|]; [|by left].
  destruct (String.prefix "image/" ct) eqn:Hct; simpl; [|right; left; by eauto].
  unfold predict_wildfire_from_image.
  destruct WILDFIRE_MODEL as [model|]; simpl;
    [|right; right; exists ct; by eauto].
  destruct (predict_body V model (file_read file)) as [d|e0|] eqn:E; simpl.
  - apply predict_body_Ok in E as (input & p0 & p1 & Hp & ->).
    rewrite lookup_insert_ne by done. rewrite lookup_insert_ne by done.
    rewrite lookup_empty. split; [by eauto|].
    exists model, input, p0, p1. split; [done|]. split; [done|].
    rewrite lookup_insert_eq.
    rewrite lookup_insert_ne by done. rewrite lookup_insert_eq.
    split; [|split; [|done]].
    + intros Hlt. destruct (Qltb (1 # 2) p1) eqn:Eb; [done|].
      apply Qltb_ge in Eb. lra.
    + intros Hle. destruct (Qltb (1 # 2) p1) eqn:Eb; [|done].
      apply Qltb_lt in Eb. lra.
  - right. right. exists ct. split; [done|]. split; [done|].
    right. by exists model, e0.
  - done.
Qed.

(** ** The vegetation index and the drought classes *)

Lemma clip_id a : -1 <= a -> a <= 1 -> clip a (-1) 1 = a.
Proof.
  intros H1 H2. unfold clip, py_min, py_max.
  destruct (Qltb a (-1)) eqn:E1; [apply Qltb_lt in E1; lra|].
  destruct (Qltb 1 a) eqn:E2; [apply Qltb_lt in E2; lra|]. done.
Qed.

Lemma ratio_bounds (n g : Q) :
  0 <= g -> 0 <= n -> ~ n + g == 0 ->
  -1 <= (n - g) / (n + g) /\ (n - g) / (n + g) <= 1.
Proof.
  intros Hg Hn Hne. assert (Hpos : 0 < n + g) by lra. split.
  - apply Qle_shift_div_l; [done|]. lra.
  - apply Qle_shift_div_r; [done|]. lra.
Qed.

Lemma ndvi_of_pixel_eq b g r :
  (0 <= b)%Z -> (0 <= g)%Z ->
  ndvi_of_pixel (b, g, r)
  = (if Qeq_bool (inject_Z g + inject_Z b) 0 then 0
     else (inject_Z g - inject_Z b) / (inject_Z g + inject_Z b)) /\
  -1 <= ndvi_of_pixel (b, g, r) <= 1.
Proof.
  intros Hb Hg. unfold ndvi_of_pixel, COLOR_BGR2RGB.
  assert (Hb' : 0 <= inject_Z b) by (change 0 with (inject_Z 0); by rewrite <- Zle_Qle).
  assert (Hg' : 0 <= inject_Z g) by (change 0 with (inject_Z 0); by rewrite <- Zle_Qle).
  destruct (Qeq_bool (inject_Z g + inject_Z b) 0) eqn:E.
  - rewrite clip_id by lra. split; [done|lra].
  - apply Qeq_bool_neq in E.
    destruct (ratio_bounds (inject_Z g) (inject_Z b) Hb' Hg' E) as [H1 H2].
    rewrite clip_id by done. done.
Qed.

(** X17: for an image with non-negative samples, the index that
    [calculate_ndvi_from_jpeg] computes at a pixel is the difference of its
    green and blue samples over their sum, and 0 where the sum is 0; the
    red sample plays no part.  The value lies between -1 and 1 as computed,
    so that the final clipping changes nothing. *)
Theorem ndvi_is_green_against_blue (img : image) ndvi :
  Forall (Forall (fun p : pixel => (0 <= p.1.1)%Z /\ (0 <= p.1.2)%Z)) img ->
  calculate_ndvi_from_jpeg (Some img) = Some ndvi ->
  Forall2 (Forall2 (fun (p : pixel) v =>
             v = (if Qeq_bool (inject_Z p.1.2 + inject_Z p.1.1) 0 then 0
                  else (inject_Z p.1.2 - inject_Z p.1.1)
                       / (inject_Z p.1.2 + inject_Z p.1.1)) /\
             -1 <= v <= 1)) img ndvi.
Proof.
  intros Himg [= <-]. apply Forall2_fmap_r, Forall_Forall2_diag.
  eapply Forall_impl; [exact Himg|]. intros row Hrow.
  apply Forall2_fmap_r, Forall_Forall2_diag.
  eapply Forall_impl; [exact Hrow|]. intros [[b g] r] [Hb Hg]. simpl in *.
  by apply ndvi_of_pixel_eq.
Qed.

Lemma ndvi_is_green_against_blue_witness :
  Forall2 (Forall2 (fun (p : pixel) v =>
             v = (if Qeq_bool (inject_Z p.1.2 + inject_Z p.1.1) 0 then 0
                  else (inject_Z p.1.2 - inject_Z p.1.1)
                       / (inject_Z p.1.2 + inject_Z p.1.1)) /\
             -1 <= v <= 1))
    [[(10, 200, 77)%Z; (0, 0, 255)%Z]]
    [[ndvi_of_pixel (10, 200, 77)%Z; ndvi_of_pixel (0, 0, 255)%Z]].
Proof.
  apply (ndvi_is_green_against_blue [[(10, 200, 77)%Z; (0, 0, 255)%Z]]).
  - repeat constructor; done.
  - reflexivity.
Defined.

Lemma Qle_bool_true x y : Qle_bool x y = true -> x <= y.
Proof. apply Qle_bool_iff. Qed.

Lemma Qle_bool_false' x y : Qle_bool x y = false -> y < x.
Proof.
  intros H. apply Qnot_le_lt. intros Hle. apply Qle_bool_iff in Hle. congruence.
Qed.

Ltac cases_drought :=
  repeat match goal with
    | |- context [Qltb ?a ?b] =>
        let E := fresh "E" in
        destruct (Qltb a b) eqn:E; [apply Qltb_lt in E|apply Qltb_ge in E]
    | |- context [Qle_bool ?a ?b] =>
        let E := fresh "E" in
        destruct (Qle_bool a b) eqn:E;
        [apply Qle_bool_true in E|apply Qle_bool_false' in E]
    end; cbn [andb].

Lemma drought_class_spec v :
  (v < 5 # 100 /\ drought_class v = 4%Z) \/
  (5 # 100 <= v < 15 # 100 /\ drought_class v = 3%Z) \/
  (15 # 100 <= v < 3 # 10 /\ drought_class v = 2%Z) \/
  (3 # 10 <= v < 4 # 10 /\ drought_class v = 1%Z) \/
  (4 # 10 <= v /\ drought_class v = 0%Z).
Proof.
  unfold drought_class. cases_drought; try lra.
  - left. split; [lra|done].
  - right; left. split; [lra|done].
  - right; right; left. split; [lra|done].
  - right; right; right; left. split; [lra|done].
  - right; right; right; right. split; [lra|done].
Qed.

(** X18: the five masked assignments of [classify_drought] overlap nowhere
    and leave no gap: every cell gets the class of the one interval that
    holds its index, 4 below 0.05, 3 from 0.05 to 0.15, 2 from 0.15 to 0.3,
    1 from 0.3 to 0.4 and 0 from 0.4 on (each interval closed on the left,
    open on the right); so the class of a cell never goes up when its index
    does. *)
Theorem drought_classes_partition (ndvi : list (list Q)) :
  Forall2 (Forall2 (fun v c =>
             (v < 5 # 100 /\ c = 4%Z) \/
             (5 # 100 <= v < 15 # 100 /\ c = 3%Z) \/
             (15 # 100 <= v < 3 # 10 /\ c = 2%Z) \/
             (3 # 10 <= v < 4 # 10 /\ c = 1%Z) \/
             (4 # 10 <= v /\ c = 0%Z)))
    ndvi (classify_drought ndvi) /\
  forall ndvi',
    Forall2 (Forall2 Qle) ndvi ndvi' ->
    Forall2 (Forall2 Z.le) (classify_drought ndvi') (classify_drought ndvi).
Proof.
  unfold classify_drought. split.
  - apply Forall2_fmap_r, Forall_Forall2_diag, Forall_forall. intros row _.
    apply Forall2_fmap_r, Forall_Forall2_diag, Forall_forall. intros v _.
    apply drought_class_spec.
  - intros ndvi' H.
    apply Forall2_fmap, Forall2_flip. eapply Forall2_impl; [exact H|].
    intros row row' Hrow. apply Forall2_fmap, Forall2_flip.
    eapply Forall2_impl; [exact Hrow|]. intros v v' Hv. simpl.
    destruct (drought_class_spec v) as [[? ->]|[[? ->]|[[? ->]|[[? ->]|[? ->]]]]];
      destruct (drought_class_spec v') as [[? ->]|[[? ->]|[[? ->]|[[? ->]|[? ->]]]]];
      try done; lra.
Qed.

(** X19: taken together, the two functions class as severe drought (4)
    every pixel whose green sample does not exceed its blue one, whatever
    its red sample: grey, white, black and blue areas all come out as
    class 4. *)
Theorem green_below_blue_is_severe (img : image) ndvi :
  Forall (Forall (fun p : pixel => (0 <= p.1.2 <= p.1.1)%Z)) img ->
  calculate_ndvi_from_jpeg (Some img) = Some ndvi ->
  Forall (Forall (fun c => c = 4%Z)) (classify_drought ndvi).
Proof.
  intros Himg [= <-]. unfold classify_drought.
  apply Forall_fmap, Forall_fmap.
  eapply Forall_impl; [exact Himg|]. intros row Hrow. simpl.
  apply Forall_fmap, Forall_fmap.
  eapply Forall_impl; [exact Hrow|]. intros [[b g] r] [Hg Hgb]. simpl in *.
  destruct (ndvi_of_pixel_eq b g r) as [Hv _]; [lia|done|]. rewrite Hv.
  assert (Hb' : 0 <= inject_Z b).
  { change 0 with (inject_Z 0). rewrite <- Zle_Qle. lia. }
  assert (Hg' : 0 <= inject_Z g) by (change 0 with (inject_Z 0); by rewrite <- Zle_Qle).
  assert (Hgb' : inject_Z g <= inject_Z b) by by rewrite <- Zle_Qle.
  set (v := if Qeq_bool _ 0 then _ else _).
  assert (Hle : v <= 0).
  { unfold v. destruct (Qeq_bool _ 0) eqn:E; [lra|]. apply Qeq_bool_neq in E.
    apply Qle_shift_div_r; lra. }
  destruct (drought_class_spec v) as [[? ->]|[[? _]|[[? _]|[[? _]|[? _]]]]];
    [done|lra..].
Qed.

Lemma green_below_blue_is_severe_witness :
  Forall (Forall (fun c => c = 4%Z))
    (classify_drought [[ndvi_of_pixel (200, 120, 0)%Z; ndvi_of_pixel (0, 0, 255)%Z]]).
Proof.
  apply (green_below_blue_is_severe [[(200, 120, 0)%Z; (0, 0, 255)%Z]]).
  - repeat constructor; done.
  - reflexivity.
Defined.

(** ** Windows over a time series *)

Lemma create_sequences_fold (data : list frame_row) (sequence_length n : nat) :
  (n <= length data - sequence_length)%nat ->
  fold_left
    (fun '(xs, ys) i =>
       let x := fst <$> take sequence_length (drop i data) in
       match data !! (i + sequence_length)%nat with
       | Some row => (xs ++ [x], ys ++ [row.2])
       | None => (xs, ys)
       end)
    (seq 0 n) ([], [])
  = ((fun i => fst <$> take sequence_length (drop i data)) <$> seq 0 n,
     (fun i => match data !! (i + sequence_length)%nat with
               | Some row => row.2
               | None => 0
               end) <$> seq 0 n).
Proof.
  induction n as [|n IH]; intros Hn; [done|].
  rewrite seq_S, fold_left_app, IH by lia. rewrite !fmap_app.
  cbn [fold_left fmap list_fmap]. rewrite Nat.add_0_l.
  destruct (data !! (n + sequence_length)%nat) as [row|] eqn:Hrow; [done|].
  apply lookup_ge_None in Hrow. unfold frame_row in *. lia.
Qed.

(** X20: [create_sequences] returns one window and one target for each of
    the [len(data) - sequence_length] starting rows, none when the series is
    too short: window [i] holds the features of the [sequence_length] rows
    from row [i] on, and target [i] is the last column of the row that
    follows them. *)
Theorem create_sequences_windows (data : list frame_row) sequence_length xs ys :
  create_sequences data sequence_length = (xs, ys) ->
  length xs = (length data - sequence_length)%nat /\
  length ys = (length data - sequence_length)%nat /\
  forall i, (i < length data - sequence_length)%nat ->
    exists x row,
      xs !! i = Some x /\ length x = sequence_length /\
      (forall j, (j < sequence_length)%nat -> x !! j = fst <$> data !! (i + j)%nat) /\
      data !! (i + sequence_length)%nat = Some row /\
      ys !! i = Some row.2.
Proof.
  unfold create_sequences. rewrite create_sequences_fold by done.
  intros [= <- <-]. rewrite !length_fmap, length_seq.
  split; [done|]. split; [done|]. intros i Hi.
  destruct (lookup_lt_is_Some_2 data (i + sequence_length)) as [row Hrow]; [lia|].
  exists (fst <$> take sequence_length (drop i data)), row.
  unfold frame_row in *.
  rewrite !list_lookup_fmap, lookup_seq_lt by done. simpl. rewrite Hrow.
  split; [done|]. split; [|split; [|done]].
  - rewrite length_fmap, length_take, length_drop. lia.
  - intros j Hj. rewrite list_lookup_fmap, lookup_take_lt, lookup_drop by done. done.
Qed.

Lemma create_sequences_windows_witness :
  exists xs ys,
    create_sequences [([1; 2], 0); ([3; 4], 1); ([5; 6], 0); ([7; 8], 1)] 2 = (xs, ys) /\
    length xs = 2%nat /\ ys = [0; 1].
Proof.
  eexists _, _. split; [reflexivity|].
  destruct (create_sequences_windows
              [([1; 2], 0); ([3; 4], 1); ([5; 6], 0); ([7; 8], 1)] 2 _ _ eq_refl)
    as (H1 & _ & _).
  split; [exact H1|reflexivity].
Defined.

(** ** What the excluded set depends on *)

(** X21: on a network with at least one node, unique node ids and
    non-negative lengths, the excluded set depends on which danger zones
    there are, not on their order nor on how often each one is listed. *)
Theorem excluded_nodes_order_irrelevant W G g b radius zones zones' s :
  heap s !! G = Some g -> wf_graph g -> nodes g <> [] -> 0 <= radius ->
  (forall z, z ∈ zones <-> z ∈ zones') ->
  avoid_loop W G b radius zones ∅ s = avoid_loop W G b radius zones' ∅ s.
Proof.
  intros HG Hwf Hne Hr Hz.
  destruct (avoid_loop_exact W G g b radius s HG Hwf Hne Hr zones ∅)
    as (avoid & -> & H).
  destruct (avoid_loop_exact W G g b radius s HG Hwf Hne Hr zones' ∅)
    as (avoid' & -> & H').
  f_equal. f_equal. apply set_eq. intros n. rewrite H, H'.
  split; (intros [?|(lon & lat & c & es & Hin & ?)]; [by left|right]);
    exists lon, lat, c, es; (split; [by apply Hz|done]).
Qed.

Lemma excluded_nodes_order_irrelevant_witness :
  avoid_loop (world_of (Some fires) town) 1%positive (request_bbox across_town)
    2500 [(3 # 100, 0); (1 # 100, 0)] ∅ (with_safe fresh_server town)
  = avoid_loop (world_of (Some fires) town) 1%positive (request_bbox across_town)
      2500 [(1 # 100, 0); (3 # 100, 0); (1 # 100, 0)] ∅ (with_safe fresh_server town).
Proof.
  apply (excluded_nodes_order_irrelevant _ _ town).
  - by_compute.
  - by_decide.
  - discriminate.
  - by_decide.
  - intros z. rewrite !elem_of_cons. tauto.
Defined.

(** X22: a route returned over a network with unique node ids and
    non-negative lengths keeps clear of every hazard of the bounding box:
    from the node nearest to such a hazard, each node of the route is more
    than 1000 metres away along the roads. *)
Theorem route_keeps_clear_of_hazards W request s route s' G g hotspots :
  calculate_route W request s = (Ok route, s') ->
  graph_cache s' !! graph_cache_key (request_bbox request) = Some G ->
  heap s' !! G = Some g -> wf_graph g ->
  wildfire_data_cache s' !! "2015-CA" = Some hotspots ->
  exists path,
    route_of g path route /\
    forall n f center_node es,
      n ∈ path -> f ∈ hotspots ->
      in_bbox (request_bbox request) (longitude f) (latitude f) = true ->
      nearest_nodes (haversine W) g (longitude f) (latitude f) = Ok center_node ->
      is_walk (graph_edge g) center_node es n ->
      1000 < walk_length es.
Proof.
  intros (G0 & avoid & G_safe & sn & en & path & E1 & E2 & E3)%calculate_route_Ok_inv
    HG Hg Hwf Hcache.
  pose proof (route_setup_caches _ _ _ _ _ _ _ _ _ E1) as [_ HG0].
  rewrite HG in HG0. injection HG0 as <-.
  destruct (route_setup_Ok _ _ _ _ _ _ _ _ _ E1)
    as (hs & s1 & s2 & g0 & Hw & Hc & Hg0 & Ha & -> & -> & Hsn & Hen).
  rewrite (with_safe_lookup_old _ _ _ _ Hg0) in Hg. injection Hg as ->.
  assert (hs = hotspots) as ->.
  { apply get_wildfires_Ok_cached in Hw.
    apply cached_graph_inv in Hc
      as [(G' & _ & _ & ->)|[_ [[-> _]|(g' & _ & _ & ->)]]];
      simpl in Hcache; change (wildfire_cache_key 2015 "CA") with "2015-CA" in Hw;
      congruence. }
  rewrite (nx_astar_path_eq _ _ _ _ _ (with_safe_lookup _ _)) in E2.
  injection E2 as E2.
  pose proof (with_safe_lookup_old s2 (remove_nodes_from g (elements avoid)) _ _ Hg0)
    as Hg'.
  destruct (coords_loop_Ok _ _ _ _ _ _ _ Hg' E3) as (r & -> & Hr).
  exists path. split; [done|].
  assert (Hne : nodes g <> []).
  { apply nearest_nodes_node, node_ids_remove in Hsn as [Hin _].
    unfold node_ids in Hin. destruct (nodes g); [|done].
    by apply elem_of_nil in Hin. }
  destruct (avoid_loop_exact W G g (request_bbox request) danger_radius_meters s2
              Hg0 Hwf Hne ltac:(done)
              ((fun f => (longitude f, latitude f)) <$> hotspots) ∅) as (avoid' & Ha' & Hex).
  rewrite Ha in Ha'. injection Ha' as <-.
  pose proof (safe_path_not_excluded _ _ _ _ _ (nearest_nodes_node _ _ _ _ _ Hsn) E2)
    as Hsafe.
  rewrite Forall_forall in Hsafe.
  intros n f c es Hn Hf Hin Hc' Hwalk.
  apply Qnot_le_lt. intros Hle. apply (Hsafe n Hn). apply Hex. right.
  exists (longitude f), (latitude f), c, es.
  split; [|done]. apply list_elem_of_fmap. by exists f.
Qed.

Lemma route_keeps_clear_of_hazards_witness :
  exists route path,
    (calculate_route (world_of (Some fires) town) across_town fresh_server).1
      = Ok route /\
    route_of town path route /\
    forall n f center_node es,
      n ∈ path ->
      f ∈ [ {| fire_year := 2015; state := "CA"; latitude := 0;
               longitude := 3 # 100; fire_size := 12;
               confidence := 90; bright_ti4 := 330 |} ] ->
      in_bbox (request_bbox across_town) (longitude f) (latitude f) = true ->
      nearest_nodes flat_metric town (longitude f) (latitude f) = Ok center_node ->
      is_walk (graph_edge town) center_node es n ->
      1000 < walk_length es.
Proof.
  eexists.
  edestruct (route_keeps_clear_of_hazards (world_of (Some fires) town) across_town
               fresh_server) as (path & H1 & H2).
  - by_compute.
  - by_compute.
  - by_compute.
  - by_decide.
  - by_compute.
  - exists path. split; [by_compute|]. split; [exact H1|exact H2].
Defined.

(** ** Requests with coordinates out of range *)






(** ** The hazards and the radius of a request *)

Lemma get_wildfires_world W W' year st s :
  get_wildfire_data (database W') year st = get_wildfire_data (database W) year st ->
  get_wildfires W' year st s = get_wildfires W year st s.
Proof. intros H. unfold get_wildfires. by rewrite H. Qed.

Lemma cached_graph_world W W' b s :
  (forall north south east west,
     graph_from_bbox W' north south east west
     = graph_from_bbox W north south east west) ->
  cached_graph W' b s = cached_graph W b s.
Proof.
  intros H. destruct b as [[[north south] east] west]. unfold cached_graph.
  by rewrite H.
Qed.

Lemma route_setup_world W W' request s :
  get_wildfire_data (database W') 2015 "CA"
    = get_wildfire_data (database W) 2015 "CA" ->
  (forall north south east west,
     graph_from_bbox W' north south east west
     = graph_from_bbox W north south east west) ->
  haversine W' = haversine W ->
  route_setup W' request s = route_setup W request s.
Proof.
  intros Hdb Hp Hh. unfold route_setup.
  apply bind_ext; [by apply get_wildfires_world|]. intros hotspots s1.
  apply bind_ext; [by apply cached_graph_world|]. intros G s2.
  apply bind_ext; [by apply avoid_loop_world|]. intros avoid s3.
  apply bind_ext; [done|]. intros G_safe s4.
  apply bind_ext; [done|]. intros [] s5.
  apply bind_ext; [by apply ox_nearest_nodes_world|]. intros sn s6.
  apply bind_ext; [by apply ox_nearest_nodes_world|]. done.
Qed.

Lemma calculate_route_body_run_state W request s hotspots s1 G s2 g avoid :
  get_wildfires W 2015 "CA" s = (Ok hotspots, s1) ->
  cached_graph W (request_bbox request) s1 = (Ok G, s2) ->
  heap s2 !! G = Some g ->
  avoid_loop W G (request_bbox request) danger_radius_meters
    ((fun f => (longitude f, latitude f)) <$> hotspots) ∅ s2 = (Ok avoid, s2) ->
  (calculate_route_body W request s).2
  = with_safe s2 (remove_nodes_from g (elements avoid)).
Proof.
  intros Hw Hc Hg Ha.
  pose proof (route_setup_run _ _ _ _ _ _ _ _ _ Hw Hc Hg Ha) as E1.
  cbv zeta in E1. unfold calculate_route_body.
  destruct (nearest_nodes _ _ (start_lon request) _) as [sn|e|];
    [|by rewrite (bind_Raise _ _ _ _ _ E1)|unfold bind; by rewrite E1].
  destruct (nearest_nodes _ _ (end_lon request) _) as [en|e|];
    [|by rewrite (bind_Raise _ _ _ _ _ E1)|unfold bind; by rewrite E1].
  rewrite (bind_Ok _ _ _ _ _ E1). cbn beta iota.
  destruct (bind (nx_astar_path _ sn en) _ _) as [r s'] eqn:E. simpl.
  eapply stateless_eq; [|exact E].
  apply stateless_bind; [apply stateless_nx_astar_path|]. intros path.
  apply stateless_coords_loop.
Qed.

(** C10: a request is planned against the hazards that [get_wildfires]
    returns for the fixed filter year 2015, state CA, and with the fixed
    radius of 1000 metres.  On a network with at least one node, unique node
    ids and non-negative lengths, whatever the outcome of the request, the
    safe copy it builds is the network without exactly the nodes that a
    directed walk of at most 1000 metres reaches from the node nearest to
    such a hazard lying strictly inside the bounding box, and a route that
    is returned runs through nodes of that copy only.  The request carries
    the four coordinates and nothing else: the answer is the same for every
    request with the same coordinates, whatever the rows of other years and
    states in the database. *)
Theorem hazards_and_radius_are_fixed W request s hotspots s1 G s2 g :
  get_wildfires W 2015 "CA" s = (Ok hotspots, s1) ->
  cached_graph W (request_bbox request) s1 = (Ok G, s2) ->
  heap s2 !! G = Some g -> wf_graph g -> nodes g <> [] ->
  let threatened n :=
    exists f center_node es,
      f ∈ hotspots /\
      in_bbox (request_bbox request) (longitude f) (latitude f) = true /\
      nearest_nodes (haversine W) g (longitude f) (latitude f) = Ok center_node /\
      is_walk (graph_edge g) center_node es n /\ walk_length es <= 1000 in
  (exists g_safe,
     heap (calculate_route W request s).2 !! fresh (dom (heap s2)) = Some g_safe /\
     (forall n, n ∈ node_ids g_safe <-> n ∈ node_ids g /\ ~ threatened n) /\
     (forall e, e ∈ edges g_safe <->
        e ∈ edges g /\ ~ threatened e.1.1 /\ ~ threatened e.1.2) /\
     (forall route, (calculate_route W request s).1 = Ok route ->
        exists path, route_of g path route /\
                     Forall (fun n => n ∈ node_ids g_safe) path)) /\
  (forall W' request' rows rows',
     database W = Some rows -> database W' = Some rows' ->
     filter (fun r => FIRE_YEAR r = 2015%Z /\ STATE r = "CA") rows'
       = filter (fun r => FIRE_YEAR r = 2015%Z /\ STATE r = "CA") rows ->
     (forall north south east west,
        graph_from_bbox W' north south east west
        = graph_from_bbox W north south east west) ->
     haversine W' = haversine W -> str_exn W' = str_exn W ->
     start_lat request' = start_lat request ->
     start_lon request' = start_lon request ->
     end_lat request' = end_lat request ->
     end_lon request' = end_lon request ->
     calculate_route W' request' s = calculate_route W request s).
Proof.
  intros Hw Hc Hg Hwf Hne. cbv zeta. split.
  - destruct (avoid_loop_exact W G g (request_bbox request) danger_radius_meters s2
                Hg Hwf Hne ltac:(done)
                ((fun f => (longitude f, latitude f)) <$> hotspots) ∅)
      as (avoid & Ha & Hex).
    assert (Hthr : forall n, n ∈ elements avoid <->
              exists f center_node es,
                f ∈ hotspots /\
                in_bbox (request_bbox request) (longitude f) (latitude f) = true /\
                nearest_nodes (haversine W) g (longitude f) (latitude f)
                  = Ok center_node /\
                is_walk (graph_edge g) center_node es n /\ walk_length es <= 1000).
    { intros n. rewrite elem_of_elements, Hex. split.
      - intros [[]%elem_of_empty|(lon & lat & c & es & Hin & ? & ? & ? & ?)].
        apply list_elem_of_fmap in Hin as (f & [= -> ->] & Hf).
        by exists f, c, es.
      - intros (f & c & es & Hf & ? & ? & ? & ?). right.
        exists (longitude f), (latitude f), c, es. split; [|done].
        apply list_elem_of_fmap. by exists f. }
    set (g_safe := remove_nodes_from g (elements avoid)).
    exists g_safe. rewrite calculate_route_state.
    rewrite (calculate_route_body_run_state _ _ _ _ _ _ _ _ _ Hw Hc Hg Ha).
    split; [apply with_safe_lookup|]. split; [|split].
    + intros n. unfold g_safe. by rewrite node_ids_remove, Hthr.
    + intros e. unfold g_safe. by rewrite edges_remove, !Hthr.
    + intros route Hroute.
      destruct (calculate_route W request s) as [r s'] eqn:E. simpl in Hroute.
      subst r.
      apply calculate_route_Ok_inv in E
        as (G0 & avoid0 & G_safe & sn & en & path & E1 & E2 & E3).
      pose proof (route_setup_run _ _ _ _ _ _ _ _ _ Hw Hc Hg Ha) as E1'.
      cbv zeta in E1'. fold g_safe in E1'. rewrite E1' in E1.
      destruct (nearest_nodes _ g_safe (start_lon request) _) as [sn'|e|] eqn:Hsn;
        [|done..].
      destruct (nearest_nodes _ g_safe (end_lon request) _) as [en'|e|] eqn:Hen;
        [|done..].
      injection E1 as <- <- <- <- <- <-.
      rewrite (nx_astar_path_eq _ _ _ _ _ (with_safe_lookup _ _)) in E2.
      injection E2 as E2.
      pose proof (with_safe_lookup_old s2 g_safe _ _ Hg) as Hg'.
      destruct (coords_loop_Ok _ _ _ _ _ _ _ Hg' E3) as (r & -> & Hr).
      exists path. split; [done|].
      pose proof (nearest_nodes_node _ _ _ _ _ Hsn) as Hs.
      apply (astar_path_nodes (fun n => n ∈ node_ids g_safe) g_safe sn' en' _ Hs);
        [|exact E2].
      intros e He. destruct (wf_graph_remove g (elements avoid) Hwf) as [_ Hall].
      rewrite Forall_forall in Hall. by destruct (Hall _ He) as (_ & ? & _).
  - intros W' request' rows rows' Hrows Hrows' Hfilter Hp Hh Hstr Ha Hb Hc' Hd.
    assert (request' = request) as ->.
    { destruct request', request. simpl in *. by subst. }
    assert (Hdb : get_wildfire_data (database W') 2015 "CA"
                  = get_wildfire_data (database W) 2015 "CA").
    { unfold get_wildfire_data. by rewrite Hrows, Hrows', Hfilter. }
    unfold calculate_route, calculate_route_body.
    assert (E : forall k : _ -> M (list (Q * Q)),
              bind (route_setup W' request) k s = bind (route_setup W request) k s).
    { intros k. apply bind_ext; [|done]. by apply route_setup_world. }
    rewrite E. by rewrite Hstr.
Qed.

Lemma hazards_and_radius_are_fixed_witness :
  exists G_safe g_safe,
    heap (calculate_route (world_of (Some fires) town) across_town fresh_server).2
      !! G_safe = Some g_safe /\
    (3%Z ∉ node_ids g_safe) /\
    calculate_route
      (world_of (Some [ {| FIRE_YEAR := 2015; STATE := "CA"; LATITUDE := 0;
                           LONGITUDE := 3 # 100; FIRE_SIZE := 12 |} ]) town)
      across_town fresh_server
    = calculate_route (world_of (Some fires) town) across_town fresh_server.
Proof.
  edestruct (hazards_and_radius_are_fixed (world_of (Some fires) town) across_town
               fresh_server) as [(g_safe & H1 & H2 & _) HB].
  - by_compute.
  - by_compute.
  - by_compute.
  - by_decide.
  - discriminate.
  - eexists _, g_safe. split; [exact H1|]. split.
    + intros [_ Hn]%H2. apply Hn.
      eexists _, 3%Z, []. split; [left|].
      split; [by_compute|]. split; [by_compute|]. split; [reflexivity|by_decide].
    + eapply HB; reflexivity.
Defined.
